(** * Finite elements in one dimension: the [fem] notebook

    A shallow embedding of the code cells of
    "Lecture 13 - LH - LAB - Lax Milgram and Cea's Lemma.ipynb":
    [mapping], [mapping_J], [lagrange_basis], [lagrange_basis_derivative]
    and [fem] (cells 2 and 3), the test problem (cell 4) and the
    convergence study (cell 6).

    The notebook computes on numpy arrays of binary64 numbers.  Every
    function is written once, over a type [T] of scalars with the
    operations the code uses (class [Scalar]), and is read at three
    instances:
    - [float], the kernel's binary64 numbers with IEEE 754 rounding, the
      arithmetic the notebook runs;
    - [Qc], the rationals in lowest terms: the same programs without
      rounding, and still executable;
    - [R], the real numbers, where the nodes of a Gauss-Legendre rule
      live.
    Statements that only move values around (the numbering table, the
    boundary rows, the exceptions) are proved for every [T]; statements
    that need the laws of a field are proved in exact arithmetic, and
    say so.  Where binary64 departs from them, the statement says what
    holds in binary64 (by evaluation of the code on a range of
    arguments, or from the IEEE 754 specification of the operations),
    and an evaluation in binary64 shows the departure.
    Integers (element count, degree, indices, the table [P]) are [Z];
    one-dimensional arrays are lists, matrices are lists of rows.
    Exceptions are values of a small error monad. *)

From Stdlib Require Import ZArith List Bool Lia QArith Qcanon Floats Reals Lra.
From Stdlib Require Qreals.
Import ListNotations.

Set Implicit Arguments.
Open Scope Z_scope.

(** ** Exceptions *)

(** The [assert] statements of the notebook. *)
Inductive assertion : Set :=
| degree_positive        (* fem:            assert degree > 0       *)
| dof_max_is_last        (* fem:            assert P.max() == N-1   *)
| mapping_index_below    (* mapping:        assert i < len(q)-1     *)
| mapping_index_nonneg   (* mapping:        assert i >= 0           *)
| jacobian_index_below   (* mapping_J:      assert i < len(q)-1     *)
| jacobian_index_nonneg  (* mapping_J:      assert i >= 0           *)
| basis_index_below      (* lagrange_basis: assert i < len(q)       *)
| basis_index_nonneg.    (* lagrange_basis: assert i >= 0           *)

(** The places where numpy raises [ValueError] on the arguments [fem]
    passes to it. *)
Inductive value_error : Set :=
| negative_sample_count  (* linspace(start, stop, num) with num < 0 *)
| negative_dimension     (* zeros(shape) with a negative dimension   *)
| max_of_empty_array.    (* max() of an array without elements       *)

(** [AttributeError] is what [lagrange_basis_derivative] raises on a
    list of one point: there the comprehension of [lagrange_basis] is
    empty, [prod([])] is the numpy float [1.0] and not a sympy
    expression, and a numpy float has no method [diff]. *)
Inductive exn : Set :=
| AssertionError (a : assertion)
| ValueError (v : value_error)
| AttributeError
| LinAlgError.

Inductive result (A : Type) : Type :=
| Ok (a : A)
| Raise (e : exn).

Arguments Ok {A} a.
Arguments Raise {A} e.

Definition bind {A B : Type} (m : result A) (k : A -> result B) : result B :=
  match m with
  | Ok a => k a
  | Raise e => Raise e
  end.

Notation "x <- m ;; k" := (bind m (fun x => k))
  (at level 61, m at next level, right associativity).
Notation "m ;;; k" := (bind m (fun _ => k))
  (at level 61, right associativity).

(** [assert c], failing with the assertion named [a]. *)
Definition assert (a : assertion) (c : bool) : result unit :=
  if c then Ok tt else Raise (AssertionError a).

Definition is_ok {A : Type} (m : result A) : bool :=
  match m with
  | Ok _ => true
  | Raise _ => false
  end.

(** A comprehension [[f(x) for x in xs]] whose body can raise. *)
Fixpoint mapM {A B : Type} (f : A -> result B) (xs : list A) : result (list B) :=
  match xs with
  | [] => Ok []
  | x :: xs' => y <- f x ;; ys <- mapM f xs' ;; Ok (y :: ys)
  end.

(** ** Scalars *)

Class Scalar (T : Type) : Type := {
  of_int : Z -> T;          (* an integer as a scalar *)
  add : T -> T -> T;
  sub : T -> T -> T;
  mul : T -> T -> T;
  div : T -> T -> T;
  eqb : T -> T -> bool;     (* == *)
  sqrt : T -> T
}.

Declare Scope scalar_scope.
Delimit Scope scalar_scope with s.
Infix "+" := add : scalar_scope.
Infix "-" := sub : scalar_scope.
Infix "*" := mul : scalar_scope.
Infix "/" := div : scalar_scope.

Definition zero {T : Type} `{Scalar T} : T := of_int 0.
Definition one {T : Type} `{Scalar T} : T := of_int 1.

(** Binary64.  [of_uint63] is exact on the integers below 2^53, which
    covers every count and index of an array that fits in memory. *)
Definition float_of_int (z : Z) : float :=
  match z with
  | Z0 => PrimFloat.zero
  | Zpos _ => PrimFloat.of_uint63 (Uint63.of_Z z)
  | Zneg p => PrimFloat.opp (PrimFloat.of_uint63 (Uint63.of_Z (Zpos p)))
  end.

#[export] Instance float_scalar : Scalar float := {|
  of_int := float_of_int;
  add := PrimFloat.add;
  sub := PrimFloat.sub;
  mul := PrimFloat.mul;
  div := PrimFloat.div;
  eqb := PrimFloat.eqb;
  sqrt := PrimFloat.sqrt
|}.

(** Exact rationals.  Division by zero gives 0 here, where binary64
    gives an infinity or a NaN; no statement below rests on that value.

    The rationals have no square root.  [Qc_sqrt] is a stand-in that
    lets [fem] run on them: the integer roots of the numerator and of
    the denominator.  It is the square root on the squares of rationals
    ([Qc_sqrt(9/4) = 3/2], [Qc_sqrt(0) = 0]) and nothing of the kind
    elsewhere ([Qc_sqrt(1/2) = 1]; a negative number is sent to 0, where
    binary64 gives NaN).  The statements about the value that [fem]
    returns are made over the reals, whose square root is the true one;
    over the rationals only the solution vector is looked at, and the
    value of [fem] where the error is exactly 0. *)
Definition Qc_sqrt (x : Qc) : Qc :=
  Q2Qc (Qmake (Z.sqrt (Qnum x)) (Pos.sqrt (Qden x))).

#[export] Instance Qc_scalar : Scalar Qc := {|
  of_int := fun z => Q2Qc (inject_Z z);
  add := Qcplus;
  sub := Qcminus;
  mul := Qcmult;
  div := Qcdiv;
  eqb := Qc_eq_bool;
  sqrt := Qc_sqrt
|}.

(** Real numbers: the arithmetic the notebook approximates. *)
#[export] Instance R_scalar : Scalar R := {|
  of_int := IZR;
  add := Rplus;
  sub := Rminus;
  mul := Rmult;
  div := Rdiv;
  eqb := fun x y => if Req_dec_T x y then true else false;
  sqrt := R_sqrt.sqrt
|}.

(** ** Python lists and numpy arrays *)

(** [range(n)] and [range(lo, hi)]. *)
Definition range (n : Z) : list Z := map Z.of_nat (seq 0 (Z.to_nat n)).
Definition range2 (lo hi : Z) : list Z := map (fun i => lo + i) (range (hi - lo)).

Definition len {A : Type} (l : list A) : Z := Z.of_nat (length l).

(** [l[i]] for an index that the caller has checked, [0 <= i < len(l)]. *)
Definition get {A : Type} (d : A) (l : list A) (i : Z) : A := nth (Z.to_nat i) l d.

(** [l[i] = v] for [0 <= i < len(l)] (every store of [fem] is in range;
    out of range the list is left as it is). *)
Fixpoint set_nth {A : Type} (n : nat) (v : A) (l : list A) : list A :=
  match l, n with
  | [], _ => []
  | _ :: l', O => v :: l'
  | x :: l', S n' => x :: set_nth n' v l'
  end.

Definition set {A : Type} (l : list A) (i : Z) (v : A) : list A :=
  if i <? 0 then l else set_nth (Z.to_nat i) v l.

(** Python's index [-1]: the last position. *)
Definition last_index {A : Type} (l : list A) : Z := len l - 1.

Section Arrays.
Context {T : Type} `{Scalar T}.
Local Open Scope scalar_scope.

(** [zeros(n)] for one dimension, [n >= 0]. *)
Definition zeros1 (n : Z) : list T := repeat zero (Z.to_nat n).

(** [prod(xs)]. *)
Definition prod (xs : list T) : T := fold_left mul xs one.

(** A sum of terms, accumulated from 0 in index order. *)
Definition sum (xs : list T) : T := fold_left add xs zero.

(** [numpy.linspace(start, stop, num)]: the library's steps.
    [arange(0, num)] is scaled by [step = (stop - start)/(num - 1)]
    (or divided first when the step underflows to 0), shifted by
    [start], and the last sample is overwritten with [stop]. *)
Definition linspace (start stop : T) (num : Z) : result (list T) :=
  if num <? 0 then Raise (ValueError negative_sample_count)
  else
    let dv := (num - 1)%Z in
    let delta := stop - start in
    let y := map of_int (range num) in
    let y :=
      if (0 <? dv)%Z then
        let step := delta / of_int dv in
        if eqb step zero
        then map (fun v => (v / of_int dv) * delta) y
        else map (fun v => v * step) y
      else map (fun v => v * delta) y in
    let y := map (fun v => v + start) y in
    Ok (if (1 <? num)%Z then set y (num - 1) stop else y).

(** ** The reference element: cell 2 of the notebook *)

Definition mapping (q : list T) (i : Z) : result (T -> T) :=
  assert mapping_index_below (i <? len q - 1)%Z ;;;
  assert mapping_index_nonneg (0 <=? i)%Z ;;;
  Ok (fun x => get zero q i + x * (get zero q (i + 1) - get zero q i)).

Definition mapping_J (q : list T) (i : Z) : result T :=
  assert jacobian_index_below (i <? len q - 1)%Z ;;;
  assert jacobian_index_nonneg (0 <=? i)%Z ;;;
  Ok (get zero q (i + 1) - get zero q i).

(** The indices [j in range(len(q)) if i != j]. *)
Definition others (q : list T) (i : Z) : list Z :=
  filter (fun j => negb (i =? j)%Z) (range (len q)).

Definition lagrange_basis (q : list T) (i : Z) : result (T -> T) :=
  assert basis_index_below (i <? len q)%Z ;;;
  assert basis_index_nonneg (0 <=? i)%Z ;;;
  Ok (fun x =>
        prod (map (fun j => (x - get zero q j) / (get zero q i - get zero q j))
                  (others q i))).

(** [lagrange_basis(q,i)(t).diff(t)]: the two assertions of
    [lagrange_basis] come first.  The basis function is then applied to
    the sympy symbol [t].  With no other point than [q[i]] the product
    is empty and its value is a numpy float, whose attribute [diff] does
    not exist: [AttributeError].  Otherwise the value is a sympy
    expression, a product of linear factors, which sympy differentiates
    symbolically: the derivative is the sum, over the factors, of the
    factor's slope times the product of the other factors.

    In exact arithmetic this sum is the function sympy returns.  In
    binary64 it is one order of evaluation of that function: sympy
    rewrites the expression before [lambdify] evaluates it, so the
    notebook's values can differ from this sum's in the last bits.  The
    statements about binary64 values of the derivative are therefore
    statements about this order of evaluation. *)
Definition lagrange_basis_derivative (q : list T) (i : Z) : result (T -> T) :=
  assert basis_index_below (i <? len q)%Z ;;;
  assert basis_index_nonneg (0 <=? i)%Z ;;;
  match others q i with
  | [] => Raise AttributeError
  | _ :: _ =>
      Ok (fun x =>
            sum (map (fun m =>
                        (one / (get zero q i - get zero q m)) *
                        prod (map (fun j => (x - get zero q j) / (get zero q i - get zero q j))
                                  (filter (fun j => negb (m =? j)%Z) (others q i))))
                     (others q i)))
  end.

End Arrays.

(** ** The numpy routines [fem] calls and this notebook does not define *)

(** [numpy.polynomial.legendre.leggauss(n)] returns the [n] nodes and the
    [n] weights of the Gauss-Legendre rule on [-1,1];
    [numpy.linalg.solve(A, b)] returns [x] with [A x = b] or raises
    [LinAlgError] on a singular matrix.  Both are taken as they come. *)
Class Numpy (T : Type) : Type := {
  leggauss : Z -> list T * list T;
  linalg_solve : list (list T) -> list T -> result (list T)
}.

(** [zeros(shape)]: numpy refuses a negative dimension. *)
Definition check_shape (shape : list Z) : result unit :=
  if existsb (fun n => n <? 0) shape
  then Raise (ValueError negative_dimension)
  else Ok tt.

(** [a.max()] of a two-dimensional integer array. *)
Definition array_max (a : list (list Z)) : result Z :=
  match concat a with
  | [] => Raise (ValueError max_of_empty_array)
  | x :: xs => Ok (fold_left Z.max xs x)
  end.

(** A [for] loop whose body can raise. *)
Fixpoint foldM {A S : Type} (f : S -> A -> result S) (xs : list A) (s : S) : result S :=
  match xs with
  | [] => Ok s
  | x :: xs' => s' <- f s x ;; foldM f xs' s'
  end.

(** ** The solver: cell 3 of the notebook *)

Section Fem.
Context {T : Type} `{Scalar T} `{Numpy T}.
Local Open Scope scalar_scope.

Definition matrix : Type := list (list T).

Definition zeros2 (r c : Z) : matrix := repeat (zeros1 c) (Z.to_nat r).
Definition zeros3 (m r c : Z) : list matrix := repeat (zeros2 r c) (Z.to_nat m).

(** [a.T] of an array with [c] columns. *)
Definition transpose (c : Z) (a : matrix) : matrix :=
  map (fun j => map (fun row => get zero row j) a) (range c).

(** [B[k,:,Pk] = V] on the [k]-th block [B[k]]: the row [V[alpha]] is
    written down the column [Pk[alpha]], so that
    [B[k][j][Pk[alpha]] = V[alpha][j]]. *)
Definition scatter (Pk : list Z) (V : matrix) (Bk : matrix) : matrix :=
  map (fun '(j, row) =>
         fold_left (fun r '(i, v) => set r i (get zero v j)) (combine Pk V) row)
      (combine (range (len Bk)) Bk).

(** [einsum('qi,qj,q', B1, B2, J)]: the [n] by [n] matrix of the sums
    over [q] of [B1[q,i] * B2[q,j] * J[q]]. *)
Definition einsum_qi_qj_q (n : Z) (B1 B2 : matrix) (J : list T) : matrix :=
  map (fun i =>
         map (fun j =>
                sum (map (fun '(r1, r2, jq) => get zero r1 i * get zero r2 j * jq)
                         (combine (combine B1 B2) J)))
             (range n))
      (range n).

(** [einsum('qi,q,q', B, g, J)]: the vector of the sums over [q] of
    [B[q,i] * g[q] * J[q]]. *)
Definition einsum_qi_q_q (n : Z) (B : matrix) (g J : list T) : list T :=
  map (fun i =>
         sum (map (fun '(r, gq, jq) => get zero r i * gq * jq)
                  (combine (combine B g) J)))
      (range n).

(** [einsum('q,q', v, J)]. *)
Definition einsum_q_q (v J : list T) : T :=
  sum (map (fun '(x, jq) => x * jq) (combine v J)).

(** [B.dot(u)]. *)
Definition dot (B : matrix) (u : list T) : list T :=
  map (fun row => sum (map (fun '(x, y) => x * y) (combine row u))) B.

(** [A[i,:] = 0] and [A[i,j] = v]. *)
Definition zero_row (A : matrix) (i : Z) : matrix :=
  set A i (map (fun _ => zero) (get [] A i)).
Definition set2 (A : matrix) (i j : Z) (v : T) : matrix :=
  set A i (set (get [] A i) j v).

(** The row [i] of the identity, written over a row [r]. *)
Definition unit_row (r : list T) (i : Z) : list T :=
  set (map (fun _ => zero) r) i one.

(** Lines 173-174: the two boundary rows of the stiffness matrix. *)
Definition boundary_rows (A : matrix) : matrix :=
  let A := zero_row A 0 in
  let A := zero_row A (last_index A) in
  let A := set2 A 0 0 one in
  set2 A (last_index A) (last_index (get [] A (last_index A))) one.

(** Lines 178-179: the two boundary entries of the right-hand side. *)
Definition boundary_values (f : list T) (ga gb : T) : list T :=
  let f := set f 0 ga in
  set f (last_index f) gb.

(** Lines 147-151: the numbering of the basis functions.  The entries
    are numpy integers of 64 bits; they are bounded by [M * degree],
    below the number of entries of [Bq], so that no store overflows in a
    table that fits in memory. *)
Definition numbering (M degree : Z) : list (list Z) :=
  fold_left (fun P k => let start := (k * degree)%Z in
                        set P k (range2 start (start + degree + 1)))
            (range M)
            (repeat (repeat 0%Z (Z.to_nat (degree + 1))) (Z.to_nat M)).

(** The local variables of [fem] when it reaches [linalg.solve]. *)
Record assembly : Type := {
  N : Z;
  ref_vertices : list T;
  vertices : list T;
  q : list T;
  w : list T;
  P : list (list Z);
  Xq : list T;
  Bq : matrix;
  Bprimeq : matrix;
  JxWq : list T;
  assembled_matrix : matrix;   (* stiffness_matrix after line 172 *)
  stiffness_matrix : matrix;   (* stiffness_matrix after line 174 *)
  assembled_rhs : list T;      (* rhs after line 177 *)
  rhs : list T                 (* rhs after line 179 *)
}.

(** [fem] up to and including line 179. *)
Definition fem_assemble (M : Z) (exact_function rhs_function : T -> T)
           (degree : Z) (a b : T) : result assembly :=
  assert degree_positive (0 <? degree)%Z ;;;
  let n_quadrature_points := (2 * degree + 1)%Z in
  let N := (M * degree + 1)%Z in
  ref_vertices <- linspace zero one (degree + 1) ;;
  vertices <- linspace a b (M + 1) ;;
  let '(q, w) := leggauss n_quadrature_points in
  let q := map (fun x => (x + one) / of_int 2) q in
  let w := map (fun x => x / of_int 2) w in
  VqT <- mapM (fun i => v <- lagrange_basis ref_vertices i ;; Ok (map v q))
              (range (degree + 1)) ;;
  VprimeqT <- mapM (fun i => v <- lagrange_basis_derivative ref_vertices i ;; Ok (map v q))
                   (range (degree + 1)) ;;
  let Vq := transpose (len q) VqT in
  let Vprimeq := transpose (len q) VprimeqT in
  check_shape [M; n_quadrature_points; N] ;;;
  let Bq := zeros3 M n_quadrature_points N in
  let Bprimeq := zeros3 M n_quadrature_points N in
  check_shape [M; (degree + 1)%Z] ;;;
  let P := numbering M degree in
  Pmax <- array_max P ;;
  assert dof_max_is_last (Pmax =? N - 1)%Z ;;;
  Q <- mapM (fun k => F <- mapping vertices k ;; Ok (map F q)) (range M) ;;
  JxW <- mapM (fun k => J <- mapping_J vertices k ;; Ok (map (fun wj => J * wj) w))
              (range M) ;;
  BB <- foldM (fun '(Bq, Bprimeq) k =>
                 let Bq := set Bq k
                               (scatter (get [] P k) (transpose (degree + 1) Vq)
                                        (get [] Bq k)) in
                 J <- mapping_J vertices k ;;
                 let Bprimeq := set Bprimeq k
                                    (scatter (get [] P k)
                                             (map (map (fun x => x / J))
                                                  (transpose (degree + 1) Vprimeq))
                                             (get [] Bprimeq k)) in
                 Ok (Bq, Bprimeq))
              (range M) (Bq, Bprimeq) ;;
  let '(Bq, Bprimeq) := BB in
  let Xq := concat Q in
  let Bq := concat Bq in
  let Bprimeq := concat Bprimeq in
  let JxWq := concat JxW in
  let stiffness0 := einsum_qi_qj_q N Bprimeq Bprimeq JxWq in
  let rhs0 := einsum_qi_q_q N Bq (map rhs_function Xq) JxWq in
  Ok {| N := N; ref_vertices := ref_vertices; vertices := vertices;
        q := q; w := w; P := P; Xq := Xq; Bq := Bq; Bprimeq := Bprimeq;
        JxWq := JxWq;
        assembled_matrix := stiffness0;
        stiffness_matrix := boundary_rows stiffness0;
        assembled_rhs := rhs0;
        rhs := boundary_values rhs0 (exact_function a) (exact_function b) |}.


Definition fem (M : Z) (exact_function rhs_function : T -> T)
           (degree : Z) (a b : T) : result T :=
  s <- fem_assemble M exact_function rhs_function degree a b ;;
  u <- linalg_solve (stiffness_matrix s) (rhs s) ;;
  let d := map (fun '(x, y) => x - y)
               (combine (dot (Bq s) u) (map exact_function (Xq s))) in
  Ok (sqrt (einsum_q_q (map (fun x => x * x) d) (JxWq s))).

(** What [fem] has computed when it calls the solver. *)
Definition assembled (M : Z) (exact_function rhs_function : T -> T)
           (degree : Z) (a b : T) (s : assembly) : Prop :=
  N s = (M * degree + 1)%Z /\
  linspace zero one (degree + 1)%Z = Ok (ref_vertices s) /\
  linspace a b (M + 1)%Z = Ok (vertices s) /\
  q s = map (fun x => div (add x one) (of_int 2)) (fst (leggauss (2 * degree + 1)%Z)) /\
  w s = map (fun x => div x (of_int 2)) (snd (leggauss (2 * degree + 1)%Z)) /\
  P s = numbering M degree /\
  assembled_matrix s = einsum_qi_qj_q (N s) (Bprimeq s) (Bprimeq s) (JxWq s) /\
  stiffness_matrix s = boundary_rows (assembled_matrix s) /\
  assembled_rhs s = einsum_qi_q_q (N s) (Bq s) (map rhs_function (Xq s)) (JxWq s) /\
  rhs s = boundary_values (assembled_rhs s) (exact_function a) (exact_function b).

End Fem.

(** ** Solvers and tabulated rules, to run [fem] *)

Section Elimination.
Context {T : Type} `{Scalar T}.
Local Open Scope scalar_scope.

(** The first row with a nonzero entry in column [c], and the others. *)
Fixpoint find_pivot (c : Z) (rows : list (list T)) : option (list T * list (list T)) :=
  match rows with
  | [] => None
  | r :: rs =>
      if eqb (get zero r c) zero
      then match find_pivot c rs with
           | Some (p, rest) => Some (p, r :: rest)
           | None => None
           end
      else Some (r, rs)
  end.

(** [r - r[c] * p], which clears column [c] of [r] when [p[c] = 1]. *)
Definition eliminate (c : Z) (p r : list T) : list T :=
  map (fun '(x, y) => x - get zero r c * y) (combine r p).

(** Gauss-Jordan elimination on the rows [A[i] ++ [b[i]]]: [done] holds
    the pivot rows of the columns treated so far, in column order. *)
Fixpoint gauss_jordan (cols : list Z) (done todo : list (list T)) : result (list (list T)) :=
  match cols with
  | [] => Ok done
  | c :: cs =>
      match find_pivot c todo with
      | None => Raise LinAlgError
      | Some (p, rest) =>
          let p' := map (fun x => x / get zero p c) p in
          gauss_jordan cs (map (eliminate c p') done ++ [p']) (map (eliminate c p') rest)
      end
  end.

Definition vec_eqb (x y : list T) : bool :=
  (len x =? len y)%Z && forallb (fun '(u, v) => eqb u v) (combine x y).

(** The solution read off the last column after the elimination. *)
Definition elimination (A : list (list T)) (b : list T) : result (list T) :=
  rows <- gauss_jordan (range (len b)) [] (map (fun '(r, bi) => r ++ [bi]) (combine A b)) ;;
  Ok (map (fun r => get zero r (len b)) rows).

(** Elimination, and a check of the result against the system: the
    value returned solves it. *)
Definition exact_solve (A : list (list T)) (b : list T) : result (list T) :=
  x <- elimination A b ;;
  if vec_eqb (dot A x) b then Ok x else Raise LinAlgError.

End Elimination.

(** [numpy]'s two routines are not code of the notebook, and the
    theorems about every call of [fem] are stated for every instance of
    [Numpy].  The instances below are stand-ins that let the examples of
    this file run; they are not [numpy]'s routines, and differ from
    them as said here.

    On the rationals: the Gauss-Legendre rules with 3, 5, 7 and 9 nodes,
    the ones [fem] asks for at the degrees 1 to 4 of the notebook, each
    number written to 16 decimal places: close to the exact rules, whose
    nodes are irrational, not equal to them.  For any other [n] the
    table is empty, and [fem] then fails in the solver, where the
    notebook would return a value.  The solver is the checked
    elimination. *)
Definition decimal16 (z : Z) : Qc := Q2Qc (Qmake z (10 ^ 16)).

Definition leggauss_table (n : Z) : list Qc * list Qc :=
  if n =? 3 then
    (map decimal16 [-7745966692414834; 0; 7745966692414834],
     map decimal16 [5555555555555556; 8888888888888888; 5555555555555556])
  else if n =? 5 then
    (map decimal16 [-9061798459386640; -5384693101056831; 0;
                    5384693101056831; 9061798459386640],
     map decimal16 [2369268850561891; 4786286704993665; 5688888888888889;
                    4786286704993665; 2369268850561891])
  else if n =? 7 then
    (map decimal16 [-9491079123427585; -7415311855993944; -4058451513773972; 0;
                    4058451513773972; 7415311855993944; 9491079123427585],
     map decimal16 [1294849661688697; 2797053914892767; 3818300505051189;
                    4179591836734694; 3818300505051189; 2797053914892767;
                    1294849661688697])
  else if n =? 9 then
    (map decimal16 [-9681602395076261; -8360311073266358; -6133714327005904;
                    -3242534234038089; 0; 3242534234038089; 6133714327005904;
                    8360311073266358; 9681602395076261],
     map decimal16 [812743883615744; 1806481606948574; 2606106964029355;
                    3123470770400028; 3302393550012598; 3123470770400028;
                    2606106964029355; 1806481606948574; 812743883615744])
  else ([], []).

#[export] Instance Qc_numpy : Numpy Qc := {|
  leggauss := leggauss_table;
  linalg_solve := exact_solve
|}.

(** In binary64: the numbers of the same table, each rounded to the
    nearest binary64 number, and again nothing for another [n].
    [numpy.polynomial.legendre.leggauss] computes its rule from the
    eigenvalues of a matrix and one step of Newton's method; its weights
    can differ from these in the last bits.  What is stated below of a
    binary64 run that goes through the rule is stated of this table.

    The solver is the elimination without the final check, which
    rounding would defeat.  It takes the first nonzero pivot of a
    column; [numpy.linalg.solve] calls LAPACK, which takes the largest
    one and eliminates in another order, so that the two solutions can
    differ in their last digits.  No statement below gives a digit of a
    binary64 solution, except that it is NaN where the matrix is. *)
Definition leggauss_binary64 (n : Z) : list float * list float :=
  if n =? 3 then
    ([(-0x1.8c97ef43f7248p-1)%float; 0%float; 0x1.8c97ef43f7248p-1%float],
     [0x1.1c71c71c71c72p-1%float; 0x1.c71c71c71c71cp-1%float; 0x1.1c71c71c71c72p-1%float])
  else if n =? 5 then
    ([(-0x1.cff6ce0533a69p-1)%float; (-0x1.13b23fd99b705p-1)%float; 0%float;
      0x1.13b23fd99b705p-1%float; 0x1.cff6ce0533a69p-1%float],
     [0x1.e539ec36e038dp-3%float; 0x1.ea1da25ae415cp-2%float; 0x1.23456789abcdfp-1%float;
      0x1.ea1da25ae415cp-2%float; 0x1.e539ec36e038dp-3%float])
  else if n =? 7 then
    ([(-0x1.e5f178e7c6229p-1)%float; (-0x1.7ba9f9be3a1d5p-1)%float;
      (-0x1.9f95df119fd62p-2)%float; 0%float; 0x1.9f95df119fd62p-2%float;
      0x1.7ba9f9be3a1d5p-1%float; 0x1.e5f178e7c6229p-1%float],
     [0x1.092f69f826d57p-3%float; 0x1.1e6b1713d8645p-2%float; 0x1.86fe74ee32b3dp-2%float;
      0x1.abfd7e03c2fa6p-2%float; 0x1.86fe74ee32b3dp-2%float; 0x1.1e6b1713d8645p-2%float;
      0x1.092f69f826d57p-3%float])
  else if n =? 9 then
    ([(-0x1.efb2b2ebf2106p-1)%float; (-0x1.ac0c44f0d0298p-1)%float;
      (-0x1.3a0bd2077fd8cp-1)%float; (-0x1.4c0916e48aa66p-2)%float; 0%float;
      0x1.4c0916e48aa66p-2%float; 0x1.3a0bd2077fd8cp-1%float;
      0x1.ac0c44f0d0298p-1%float; 0x1.efb2b2ebf2106p-1%float],
     [0x1.4ce65f803eef7p-4%float; 0x1.71f7a9b222beap-3%float; 0x1.0add87c827507p-2%float;
      0x1.3fd7e9838d511p-2%float; 0x1.522a43f65486ap-2%float; 0x1.3fd7e9838d511p-2%float;
      0x1.0add87c827507p-2%float; 0x1.71f7a9b222beap-3%float; 0x1.4ce65f803eef7p-4%float])
  else ([], []).

#[export] Instance float_numpy : Numpy float := {|
  leggauss := leggauss_binary64;
  linalg_solve := elimination
|}.


(** ** Polynomials and quadrature rules, over the reals *)

(** A polynomial is the list of its coefficients, constant term first. *)
Fixpoint eval (p : list R) (x : R) : R :=
  match p with
  | [] => 0%R
  | c :: p' => (c + x * eval p' x)%R
  end.

(** The coefficients [c_j / (k + 1 + j)]: with [k = 0], those of the
    primitive of [p] that vanishes at 0, after its constant term. *)
Fixpoint primitive_from (k : Z) (p : list R) : list R :=
  match p with
  | [] => []
  | c :: p' => (c / IZR (k + 1))%R :: primitive_from (k + 1) p'
  end.

Definition primitive (p : list R) : list R := 0%R :: primitive_from 0 p.

(** The integral of [p] over [[lo, hi]]. *)
Definition integral (p : list R) (lo hi : R) : R :=
  (eval (primitive p) hi - eval (primitive p) lo)%R.

(** The weighted sum of [p] over the nodes [x] with the weights [w]. *)
Definition quadrature (x w : list R) (p : list R) : R :=
  sum (map (fun '(xi, wi) => mul wi (eval p xi)) (combine x w)).

(** A rule that integrates every polynomial of degree at most [m]
    over [[lo, hi]]. *)
Definition exact_rule (lo hi : R) (m : Z) (x w : list R) : Prop :=
  forall p : list R, len p <= m + 1 -> quadrature x w p = integral p lo hi.

(** What [leggauss(n)] returns: [n] nodes and [n] weights of a rule on
    [[-1,1]] that is exact up to degree [2n - 1]. *)
Definition gauss_legendre (n : Z) (rule : list R * list R) : Prop :=
  len (fst rule) = n /\ len (snd rule) = n /\
  exact_rule (-1) 1 (2 * n - 1) (fst rule) (snd rule).

(** The rule with three nodes. *)
Definition leggauss_3 : list R * list R :=
  ([(- R_sqrt.sqrt (3 / 5))%R; 0%R; R_sqrt.sqrt (3 / 5)],
   [(5 / 9)%R; (8 / 9)%R; (5 / 9)%R]).

#[export] Instance R_numpy : Numpy R := {|
  leggauss := fun n => if n =? 3 then leggauss_3 else ([], []);
  linalg_solve := exact_solve
|}.

Section PolynomialOperations.
Local Open Scope R_scope.

Fixpoint eval_deriv (p : list R) (x : R) : R :=
  match p with
  | [] => 0
  | c :: p' => eval p' x + x * eval_deriv p' x
  end.

Fixpoint padd (a b : list R) : list R :=
  match a, b with
  | [], _ => b
  | _, [] => a
  | x :: a', y :: b' => (x + y) :: padd a' b'
  end.

Definition pscale (k : R) (a : list R) : list R := map (Rmult k) a.

(** [r] times [(t + 1)/2]. *)
Definition times_half_shift (r : list R) : list R :=
  padd (pscale (1 / 2) r) (0 :: pscale (1 / 2) r).

(** The polynomial [t |-> p((t + 1)/2)]. *)
Fixpoint shifted (p : list R) : list R :=
  match p with
  | [] => []
  | c :: p' => padd [c] (times_half_shift (shifted p'))
  end.

End PolynomialOperations.

(** ** The reference basis in binary64 *)

(** The Lagrange property of the reference basis of degree [d], checked
    by running [linspace] and [lagrange_basis] in binary64 ([==] holds
    between 0.0 and -0.0). *)
Definition lagrange_property_binary64 (d : Z) : bool :=
  match linspace (T := float) zero one (d + 1) with
  | Raise _ => false
  | Ok rv =>
      forallb (fun alpha =>
                 match lagrange_basis rv alpha with
                 | Raise _ => false
                 | Ok v =>
                     forallb (fun beta =>
                                PrimFloat.eqb (v (get zero rv beta))
                                              (if beta =? alpha then one else zero))
                             (range (d + 1))
                 end)
              (range (d + 1))
  end.

(** ** The values behind the tables of [fem] *)

Section Tables.
Context {T : Type} `{Scalar T} `{Numpy T}.
Local Open Scope scalar_scope.

(** The functions that [lagrange_basis(q,i)] and
    [lagrange_basis_derivative(q,i)] return on a valid index. *)
Definition basis_value (q : list T) (i : Z) (x : T) : T :=
  prod (map (fun j => (x - get zero q j) / (get zero q i - get zero q j))
            (others q i)).

Definition basis_slope (q : list T) (i : Z) (x : T) : T :=
  sum (map (fun m =>
              (one / (get zero q i - get zero q m)) *
              prod (map (fun j => (x - get zero q j) / (get zero q i - get zero q j))
                        (filter (fun j => negb (m =? j)%Z) (others q i))))
           (others q i)).

(** What the comment of lines 160-161 says of the arrays, entry by entry,
    for the element [k], the quadrature point [j] and the local basis
    function [alpha]: the row [k*n + j] of [Xq], [JxWq], [Bq] and
    [Bprimeq] ([n] quadrature points an element) holds the image of the
    point [q[j]], its weight, and the values and derivatives of the basis
    functions, each in the column that [P[k]] gives it, the other
    columns being zero. *)
Definition tabulated (M degree : Z) (s : assembly) : Prop :=
  let n := (2 * degree + 1)%Z in
  len (Xq s) = (M * n)%Z /\
  len (JxWq s) = (M * n)%Z /\
  len (Bq s) = (M * n)%Z /\
  len (Bprimeq s) = (M * n)%Z /\
  forall k j, (0 <= k < M)%Z -> (0 <= j < n)%Z ->
    let row := (k * n + j)%Z in
    let h := get zero (vertices s) (k + 1) - get zero (vertices s) k in
    get zero (Xq s) row = get zero (vertices s) k + get zero (q s) j * h /\
    get zero (JxWq s) row = h * get zero (w s) j /\
    len (get [] (Bq s) row) = N s /\
    len (get [] (Bprimeq s) row) = N s /\
    (forall alpha, (0 <= alpha <= degree)%Z ->
       get zero (get [] (Bq s) row) (k * degree + alpha)
       = basis_value (ref_vertices s) alpha (get zero (q s) j) /\
       get zero (get [] (Bprimeq s) row) (k * degree + alpha)
       = basis_slope (ref_vertices s) alpha (get zero (q s) j) / h) /\
    (forall i, (0 <= i < N s)%Z -> (i < k * degree \/ k * degree + degree < i)%Z ->
       get zero (get [] (Bq s) row) i = zero /\
       get zero (get [] (Bprimeq s) row) i = zero).

End Tables.

(** ** The quadratic form of a matrix *)

(** [u . (A u)]. *)
Definition energy {T : Type} `{Scalar T} (A : list (list T)) (u : list T) : T :=
  einsum_q_q u (dot A u).

(** ** Finite numbers of binary64 *)

(** Neither an infinity nor a NaN. *)
Definition finite64 (x : float) : bool :=
  match PrimFloat.classify x with
  | PInf | NInf | NaN => false
  | _ => true
  end.

(** A NaN, the one value that [==] separates from itself. *)
Definition nan64 (x : float) : bool :=
  match PrimFloat.classify x with
  | NaN => true
  | _ => false
  end.

(** [all(l[i] < l[i+1])]. *)
Fixpoint increasing (l : list float) : bool :=
  match l with
  | x :: ((y :: _) as l') => PrimFloat.ltb x y && increasing l'
  | _ => true
  end.

(** The value of a finite binary64 number, counted in units of
    [2^-1074], the smallest positive number of the format: the integer
    [+-m * 2^(e + 1074)] for the mantissa [m] and the exponent
    [e >= -1074].  (The zeros have the value 0; the infinities and NaN
    have no value, and are sent to 0.) *)
Definition units (x : spec_float) : Z :=
  match x with
  | S754_finite s m e => cond_Zopp s (Zpos m * 2 ^ (e + 1074))
  | _ => 0
  end.

(** The same value as a rational number, and as a real number. *)
Definition binary64_value (x : float) : Q :=
  Qmake (units (Prim2SF x)) (2 ^ 1074).

Definition binary64_real (x : float) : R := Q2R (binary64_value x).

(** A zero or a finite number with a mantissa. *)
Definition binary64_finite (x : spec_float) : Prop :=
  match x with
  | S754_zero _ | S754_finite _ _ _ => True
  | _ => False
  end.

(** The reference points of degree [d], computed in binary64 as on line
    129: [d + 1] finite numbers in strictly increasing order. *)
Definition reference_points_binary64 (d : Z) : bool :=
  match linspace (T := float) zero one (d + 1) with
  | Raise _ => false
  | Ok rv => (len rv =? d + 1) && forallb finite64 rv && increasing rv
  end.

(** ** Polynomials after an affine change of variable *)

Section AffineChange.
Local Open Scope R_scope.

(** [r] times [c + h*t]. *)
Definition times_affine (c h : R) (r : list R) : list R :=
  padd (pscale c r) (0 :: pscale h r).

(** The polynomial [t |-> p(c + h*t)]. *)
Fixpoint affine (c h : R) (p : list R) : list R :=
  match p with
  | [] => []
  | a0 :: p' => padd [a0] (times_affine c h (affine c h p'))
  end.

(** The product of two polynomials. *)
Fixpoint pmul (a b : list R) : list R :=
  match a with
  | [] => []
  | x :: a' => padd (pscale x b) (0 :: pmul a' b)
  end.

(** The coefficients [(k + j) * c_j]: with [k = 1], those of the
    derivative of [c_0 * t + c_1 * t^2 + ...]. *)
Fixpoint pderiv_from (k : R) (p : list R) : list R :=
  match p with
  | [] => []
  | c :: p' => k * c :: pderiv_from (k + 1) p'
  end.

Definition pderiv (p : list R) : list R :=
  match p with
  | [] => []
  | _ :: p' => pderiv_from 1 p'
  end.

(** The coefficients of the function that [lagrange_basis(q,i)] returns:
    the product of the factors [(t - q[j])/(q[i] - q[j])]. *)
Definition basis_poly (q : list R) (i : Z) : list R :=
  fold_right (fun j acc =>
                times_affine (- get 0 q j / (get 0 q i - get 0 q j))
                             (1 / (get 0 q i - get 0 q j)) acc)
             [1] (others q i).

(** Whether the basis function [i] belongs to the element [k]: whether
    [i] is in the row [P[k]] of the numbering. *)
Definition on_element (d k i : Z) : bool :=
  ((k * d <=? i) && (i <=? k * d + d))%Z.

End AffineChange.

(** ** The test problem and the convergence study: cells 4 and 6 *)

(** Cell 4, over the reals: [sin] and [pi] have no counterpart in the
    class [Scalar]. *)
Module TestProblem.

Definition exact_function (x : R) : R := sin (2 * PI * x)%R.

Definition rhs_function (x : R) : R := (sin (2 * PI * x) * (4 * PI ^ 2))%R.

End TestProblem.

Section ConvergenceStudy.
Context {T : Type} `{Scalar T} `{Numpy T}.
Local Open Scope scalar_scope.

Definition degrees : list Z := [1; 2; 3; 4]%Z.

Definition Ms : list Z := map (fun cycle => 2 ^ cycle)%Z (range2 3 9).

Definition h : list T := map (fun M => one / of_int (M + 1)) Ms.

(** The double loop of lines 233-237: the array [errors] it fills. *)
Definition convergence_study (exact_function rhs_function : T -> T)
  : result (list (list T)) :=
  check_shape [len h; len degrees] ;;;
  foldM (fun errors i =>
           foldM (fun errors j =>
                    e <- fem (get 0%Z Ms i) exact_function rhs_function
                             (get 0%Z degrees j) zero one ;;
                    Ok (set2 errors i j e))
                 (range (len degrees)) errors)
        (range (len Ms))
        (zeros2 (len h) (len degrees)).

End ConvergenceStudy.

(** * Properties *)

(** ** Lists, ranges and the error monad *)

Lemma range_length (n : Z) : length (range n) = Z.to_nat n.
Proof. unfold range. now rewrite length_map, length_seq. Qed.

Lemma len_range (n : Z) : 0 <= n -> len (range n) = n.
Proof. intros Hn. unfold len. rewrite range_length. lia. Qed.

Lemma In_range (n k : Z) : In k (range n) <-> 0 <= k < n.
Proof.
  unfold range. rewrite in_map_iff. split.
  - intros [i [<- Hi]]. apply in_seq in Hi. lia.
  - intros Hk. exists (Z.to_nat k). split; [lia | apply in_seq; lia].
Qed.

Lemma get_range (d n k : Z) : 0 <= k < n -> get d (range n) k = k.
Proof.
  intros Hk. unfold get, range.
  rewrite nth_indep with (d' := Z.of_nat 0) by (rewrite length_map, length_seq; lia).
  rewrite map_nth, seq_nth by lia. lia.
Qed.

Lemma get_map {A B : Type} (f : A -> B) (dA : A) (dB : B) (l : list A) (k : Z) :
  0 <= k < len l -> get dB (map f l) k = f (get dA l k).
Proof.
  unfold get, len. intros Hk.
  rewrite nth_indep with (d' := f dA) by (rewrite length_map; lia).
  apply map_nth.
Qed.

Lemma len_map {A B : Type} (f : A -> B) (l : list A) : len (map f l) = len l.
Proof. unfold len. now rewrite length_map. Qed.

Lemma range_succ (n : Z) : 0 <= n -> range (n + 1) = range n ++ [n].
Proof.
  intros Hn. unfold range.
  replace (Z.to_nat (n + 1)) with (S (Z.to_nat n)) by lia.
  rewrite seq_S, map_app. simpl. now rewrite Z2Nat.id.
Qed.

Lemma set_nth_length {A : Type} (n : nat) (v : A) (l : list A) :
  length (set_nth n v l) = length l.
Proof.
  revert n. induction l as [|x l IH]; intros [|n]; simpl; auto.
Qed.

Lemma nth_set_nth_eq {A : Type} (n : nat) (v d : A) (l : list A) :
  (n < length l)%nat -> nth n (set_nth n v l) d = v.
Proof.
  revert n. induction l as [|x l IH]; intros [|n] Hn; simpl in *; try lia; auto.
  apply IH. lia.
Qed.

Lemma nth_set_nth_neq {A : Type} (n m : nat) (v d : A) (l : list A) :
  n <> m -> nth m (set_nth n v l) d = nth m l d.
Proof.
  revert n m. induction l as [|x l IH]; intros [|n] [|m] Hnm; simpl; auto; try lia.
Qed.

Lemma set_nth_app {A : Type} (v : A) (l1 l2 : list A) (x : A) :
  set_nth (length l1) v (l1 ++ x :: l2) = l1 ++ v :: l2.
Proof. induction l1 as [|y l1 IH]; simpl; congruence. Qed.

Lemma len_set {A : Type} (l : list A) (i : Z) (v : A) : len (set l i v) = len l.
Proof.
  unfold set, len. destruct (i <? 0); [reflexivity|]. now rewrite set_nth_length.
Qed.

Lemma get_set_eq {A : Type} (d : A) (l : list A) (i : Z) (v : A) :
  0 <= i < len l -> get d (set l i v) i = v.
Proof.
  unfold set, get, len. intros Hi.
  destruct (Z.ltb_spec i 0); [lia|]. apply nth_set_nth_eq. lia.
Qed.

Lemma get_set_neq {A : Type} (d : A) (l : list A) (i j : Z) (v : A) :
  0 <= j -> i <> j -> get d (set l i v) j = get d l j.
Proof.
  unfold set, get. intros Hj Hij.
  destruct (Z.ltb_spec i 0); [reflexivity|]. apply nth_set_nth_neq. lia.
Qed.


Lemma mapM_some {A B : Type} (f : A -> result B) (xs : list A) :
  (forall x, In x xs -> exists y, f x = Ok y) -> exists ys, mapM f xs = Ok ys.
Proof.
  induction xs as [|x xs IH]; intros Hf; simpl; [eauto|].
  destruct (Hf x) as [y Hy]; [now left|]. rewrite Hy. simpl.
  destruct IH as [ys Hys]; [intros z Hz; apply Hf; now right|].
  rewrite Hys. simpl. eauto.
Qed.

Lemma foldM_some {A S : Type} (f : S -> A -> result S) (xs : list A) :
  (forall s x, In x xs -> exists s', f s x = Ok s') ->
  forall s, exists s', foldM f xs s = Ok s'.
Proof.
  induction xs as [|x xs IH]; intros Hf s; simpl; [eauto|].
  destruct (Hf s x) as [s1 Hs1]; [now left|]. rewrite Hs1. simpl.
  apply IH. intros s2 y Hy. apply Hf. now right.
Qed.

(** ** The numbering table *)

Lemma In_range2 (lo hi x : Z) : In x (range2 lo hi) <-> lo <= x < hi.
Proof.
  unfold range2. rewrite in_map_iff. split.
  - intros [i [<- Hi]]. apply In_range in Hi. lia.
  - intros Hx. exists (x - lo). split; [lia | apply In_range; lia].
Qed.

Lemma len_range2 (lo hi : Z) : lo <= hi -> len (range2 lo hi) = hi - lo.
Proof. intros Hle. unfold range2. rewrite len_map. apply len_range. lia. Qed.

Lemma get_range2 (d lo hi i : Z) : 0 <= i < hi - lo -> get d (range2 lo hi) i = lo + i.
Proof.
  intros Hi. unfold range2.
  rewrite get_map with (dA := 0) by (rewrite len_range; lia).
  now rewrite get_range.
Qed.

(** The loop of lines 149-151 writes row [k] at step [k]: after [m]
    steps the first [m] rows are final and the others are still zero. *)
Lemma numbering_steps (g : Z -> list Z) (r : list Z) (M m : nat) :
  (m <= M)%nat ->
  fold_left (fun P k => set P k (g k)) (range (Z.of_nat m)) (repeat r M)
  = map g (range (Z.of_nat m)) ++ repeat r (M - m).
Proof.
  intros Hm. induction m as [|m IH].
  - simpl. now rewrite Nat.sub_0_r.
  - replace (Z.of_nat (S m)) with (Z.of_nat m + 1) by lia.
    rewrite range_succ by lia.
    rewrite fold_left_app, IH by lia. simpl.
    rewrite map_app. simpl. rewrite <- app_assoc. simpl.
    unfold set. destruct (Z.ltb_spec (Z.of_nat m) 0); [lia|].
    replace (M - m)%nat with (S (M - S m)) by lia. simpl.
    rewrite Nat2Z.id.
    replace m with (length (map g (range (Z.of_nat m)))) at 1
      by (rewrite length_map, range_length; lia).
    apply set_nth_app.
Qed.

(** The table of lines 147-151, row by row. *)
Lemma numbering_rows (M degree : Z) :
  numbering M degree
  = map (fun k => range2 (k * degree) (k * degree + degree + 1)) (range M).
Proof.
  unfold numbering.
  destruct (Z.le_gt_cases 0 M) as [HM|HM].
  - pose proof (numbering_steps
                  (fun k => range2 (k * degree) (k * degree + degree + 1))
                  (repeat 0 (Z.to_nat (degree + 1)))
                  (m := Z.to_nat M) (Nat.le_refl (Z.to_nat M))) as E.
    rewrite Z2Nat.id in E by lia. cbv zeta. rewrite E.
    rewrite Nat.sub_diag. simpl. apply app_nil_r.
  - unfold range. replace (Z.to_nat M) with 0%nat by lia. reflexivity.
Qed.

Lemma fold_max_spec (xs : list Z) (x : Z) :
  In (fold_left Z.max xs x) (x :: xs) /\
  forall y, In y (x :: xs) -> y <= fold_left Z.max xs x.
Proof.
  revert x. induction xs as [|z xs IH]; intros x; simpl.
  - split; [now left | intros y [<-|[]]; lia].
  - destruct (IH (Z.max x z)) as [Hin Hmax]. split.
    + destruct Hin as [Hin|Hin]; [|right; right; exact Hin].
      rewrite <- Hin.
      destruct (Z.max_spec x z) as [[_ E]|[_ E]]; rewrite E; [right; left | left];
        reflexivity.
    + intros y [<-|[<-|Hy]].
      * etransitivity; [apply (Z.le_max_l x z) | apply Hmax; now left].
      * etransitivity; [apply (Z.le_max_r x z) | apply Hmax; now left].
      * apply Hmax. now right.
Qed.

Lemma array_max_unique (a : list (list Z)) (m : Z) :
  In m (concat a) -> (forall x, In x (concat a) -> x <= m) -> array_max a = Ok m.
Proof.
  unfold array_max. intros Hin Hmax.
  destruct (concat a) as [|x xs]; [contradiction|].
  destruct (fold_max_spec xs x) as [Hin' Hmax'].
  f_equal. apply Z.le_antisymm; auto.
Qed.

Lemma array_max_numbering (M degree : Z) :
  1 <= M -> 0 <= degree -> array_max (numbering M degree) = Ok (M * degree).
Proof.
  intros HM Hd. rewrite numbering_rows. apply array_max_unique.
  - apply in_concat. exists (range2 ((M - 1) * degree) ((M - 1) * degree + degree + 1)).
    split.
    + apply in_map_iff. exists (M - 1). split; [reflexivity | apply In_range; lia].
    + apply In_range2. lia.
  - intros x Hx. apply in_concat in Hx. destruct Hx as [row [Hrow Hx]].
    apply in_map_iff in Hrow. destruct Hrow as [k [<- Hk]].
    apply In_range in Hk. apply In_range2 in Hx. nia.
Qed.

(** ** [fem] reaches the linear solve on every mesh with [M >= 1], [degree >= 1] *)

Section Assembly.
Context {T : Type} `{Scalar T} `{Numpy T}.

Lemma linspace_ok (start stop : T) (num : Z) :
  0 <= num -> exists l, linspace start stop num = Ok l /\ len l = num.
Proof.
  intros Hnum. unfold linspace.
  destruct (Z.ltb_spec num 0); [lia|].
  eexists. split; [reflexivity|].
  destruct (1 <? num); [rewrite len_set|];
    rewrite len_map; destruct (0 <? num - 1); [destruct (eqb _ _)| |destruct (eqb _ _)|];
    rewrite !len_map; apply len_range; lia.
Qed.

Lemma mapping_ok (v : list T) (k : Z) :
  0 <= k < len v - 1 -> exists F, mapping v k = Ok F.
Proof.
  intros Hk. unfold mapping, assert.
  destruct (Z.ltb_spec k (len v - 1)); [|lia].
  destruct (Z.leb_spec 0 k); [|lia]. simpl. eauto.
Qed.

Lemma mapping_J_ok (v : list T) (k : Z) :
  0 <= k < len v - 1 ->
  mapping_J v k = Ok (sub (get zero v (k + 1)) (get zero v k)).
Proof.
  intros Hk. unfold mapping_J, assert.
  destruct (Z.ltb_spec k (len v - 1)); [|lia].
  destruct (Z.leb_spec 0 k); [|lia]. reflexivity.
Qed.

Lemma lagrange_basis_ok (v : list T) (i : Z) :
  0 <= i < len v ->
  lagrange_basis v i
  = Ok (fun x => prod (map (fun j => div (sub x (get zero v j))
                                         (sub (get zero v i) (get zero v j)))
                           (others v i))).
Proof.
  intros Hi. unfold lagrange_basis, assert.
  destruct (Z.ltb_spec i (len v)); [|lia].
  destruct (Z.leb_spec 0 i); [|lia]. reflexivity.
Qed.

(** With two points or more there is a point other than [v[i]]. *)
Lemma others_cons (v : list T) (i : Z) :
  2 <= len v -> exists j l, others v i = j :: l.
Proof.
  intros Hv.
  assert (Hin : exists j, In j (others v i)).
  { exists (if i =? 0 then 1 else 0). unfold others.
    apply filter_In. split.
    - apply In_range. destruct (i =? 0); lia.
    - apply negb_true_iff, Z.eqb_neq. destruct (Z.eqb_spec i 0); lia. }
  destruct Hin as [j Hj]. destruct (others v i) as [|j' l]; [destruct Hj|eauto].
Qed.

(** With one point there is none. *)
Lemma others_single (v : list T) (i : Z) :
  len v = 1 -> 0 <= i < len v -> others v i = [].
Proof.
  intros Hv Hi. unfold others. rewrite Hv.
  change (range 1) with [0]. cbn [filter].
  replace i with 0 by lia. reflexivity.
Qed.

Lemma lagrange_basis_derivative_ok (v : list T) (i : Z) :
  2 <= len v -> 0 <= i < len v -> exists f, lagrange_basis_derivative v i = Ok f.
Proof.
  intros Hv Hi. unfold lagrange_basis_derivative, assert.
  destruct (Z.ltb_spec i (len v)); [|lia].
  destruct (Z.leb_spec 0 i); [|lia]. cbn [bind].
  destruct (others_cons v i Hv) as [j [l ->]]. eauto.
Qed.

(** The two comprehensions over the reference basis succeed. *)
Ltac basis_tables rv Lrv :=
  match goal with |- context [mapM ?f (range ?n)] =>
    let V := fresh "V" in
    let EV := fresh "EV" in
    destruct (mapM_some f (range n)) as [V EV];
    [ intros ?i ?Hi; apply In_range in Hi;
      first [ rewrite lagrange_basis_ok by lia; cbn [bind]; eauto
            | match goal with
              | |- context [lagrange_basis_derivative rv ?i] =>
                  let f := fresh "f" in
                  let Ef := fresh "Ef" in
                  destruct (lagrange_basis_derivative_ok rv (i := i)) as [f Ef];
                  [lia | lia | rewrite Ef; cbn [bind]; eauto]
              end ]
    | rewrite EV; cbn [bind] ]
  end.

(** With [M >= 1] and [degree >= 1] no assertion fails and numpy accepts
    every shape: the system is assembled. *)
Lemma fem_assemble_ok (M : Z) (exact_function rhs_function : T -> T)
      (degree : Z) (a b : T) :
  1 <= M -> 1 <= degree ->
  exists s, fem_assemble M exact_function rhs_function degree a b = Ok s /\
            assembled M exact_function rhs_function degree a b s.
Proof.
  intros HM Hd. unfold fem_assemble, assert.
  destruct (Z.ltb_spec 0 degree); [|lia]. cbn [bind].
  destruct (linspace_ok zero one (num := degree + 1)) as [rv [Erv Lrv]]; [lia|].
  destruct (linspace_ok a b (num := M + 1)) as [vs [Evs Lvs]]; [lia|].
  rewrite Erv, Evs. cbn [bind].
  destruct (leggauss (2 * degree + 1)) as [q0 w0] eqn:Elg. cbv zeta.
  basis_tables rv Lrv. basis_tables rv Lrv.
  unfold check_shape. cbn [existsb orb].
  destruct (Z.ltb_spec M 0); [lia|].
  destruct (Z.ltb_spec (2 * degree + 1) 0); [lia|].
  destruct (Z.ltb_spec (M * degree + 1) 0); [nia|].
  destruct (Z.ltb_spec (degree + 1) 0); [lia|]. cbn [bind].
  rewrite array_max_numbering by lia. cbn [bind].
  replace (M * degree =? M * degree + 1 - 1) with true by (symmetry; apply Z.eqb_eq; lia).
  cbn [bind].
  match goal with |- context [mapM ?f (range M)] =>
    destruct (mapM_some f (range M)) as [Qs EQ] end.
  { intros k Hk. apply In_range in Hk.
    destruct (mapping_ok vs (k := k)) as [F EF]; [lia|].
    rewrite EF. simpl. eauto. }
  rewrite EQ. cbn [bind].
  match goal with |- context [mapM ?f (range M)] =>
    destruct (mapM_some f (range M)) as [Js EJ] end.
  { intros k Hk. apply In_range in Hk.
    rewrite mapping_J_ok by lia. simpl. eauto. }
  rewrite EJ. cbn [bind].
  match goal with |- context [foldM ?f (range M) ?s0] =>
    destruct (foldM_some f (range M)) with (s := s0) as [[B B'] EB] end.
  { intros [B B'] k Hk. apply In_range in Hk.
    rewrite mapping_J_ok by lia. simpl. eauto. }
  rewrite EB. cbn [bind].
  eexists. split; [reflexivity|].
  unfold assembled. cbn [N ref_vertices vertices q w P Xq Bq Bprimeq JxWq
                          assembled_matrix stiffness_matrix assembled_rhs rhs].
  rewrite Elg. cbn [fst snd]. repeat split; auto.
Qed.

(** With [M < 1] numpy refuses a shape, at a place that depends on [M]. *)
Lemma fem_assemble_small_M (M : Z) (exact_function rhs_function : T -> T) (d : Z) (a b : T) :
  1 <= d -> M < 1 ->
  fem_assemble M exact_function rhs_function d a b
  = Raise (ValueError (if M <? -1 then negative_sample_count
                       else if M =? -1 then negative_dimension
                            else max_of_empty_array)).
Proof.
  intros Hd HM. unfold fem_assemble, assert.
  destruct (Z.ltb_spec 0 d); [|lia]. cbn [bind].
  destruct (linspace_ok zero one (num := d + 1)) as [rv [Erv Lrv]]; [lia|].
  rewrite Erv. cbn [bind].
  destruct (Z.ltb_spec M (-1)) as [Hlt|Hge].
  - unfold linspace at 1. destruct (Z.ltb_spec (M + 1) 0); [|lia]. reflexivity.
  - destruct (linspace_ok a b (num := M + 1)) as [vs [Evs Lvs]]; [lia|].
    rewrite Evs. cbn [bind].
    destruct (leggauss (2 * d + 1)) as [q0 w0]. cbv zeta.
    basis_tables rv Lrv. basis_tables rv Lrv.
    unfold check_shape. cbn [existsb orb].
    destruct (Z.eqb_spec M (-1)) as [->|Hne].
    + reflexivity.
    + assert (M = 0) by lia. subst M.
      destruct (Z.ltb_spec (2 * d + 1) 0); [lia|].
      destruct (Z.ltb_spec (d + 1) 0); [lia|]. reflexivity.
Qed.

(** A call that reaches the solver had [M >= 1] and [degree >= 1]. *)
Lemma fem_assemble_inv (M : Z) (exact_function rhs_function : T -> T)
      (degree : Z) (a b : T) (s : assembly) :
  fem_assemble M exact_function rhs_function degree a b = Ok s ->
  1 <= M /\ 1 <= degree /\ assembled M exact_function rhs_function degree a b s.
Proof.
  intros Es.
  assert (Hd : 1 <= degree).
  { destruct (Z.lt_ge_cases degree 1) as [Hd|Hd]; [exfalso | exact Hd].
    unfold fem_assemble, assert in Es.
    destruct (Z.ltb_spec 0 degree); [lia | discriminate]. }
  assert (HM : 1 <= M).
  { destruct (Z.lt_ge_cases M 1) as [HM|HM]; [exfalso | exact HM].
    rewrite fem_assemble_small_M in Es by lia. discriminate. }
  destruct (fem_assemble_ok exact_function rhs_function a b HM Hd) as [s' [Es' Hs']].
  assert (s' = s) by congruence. subst s'. auto.
Qed.

End Assembly.

(** ** The boundary rows *)

Section Boundary.
Context {T : Type} `{Scalar T}.

Lemma get_unit_row (r : list T) (i j : Z) :
  0 <= i < len r -> 0 <= j < len r ->
  get zero (unit_row r i) j = if j =? i then one else zero.
Proof.
  intros Hi Hj. unfold unit_row. destruct (Z.eqb_spec j i) as [->|Hne].
  - apply get_set_eq. now rewrite len_map.
  - rewrite get_set_neq by lia.
    rewrite get_map with (dA := zero) by lia. reflexivity.
Qed.

Lemma boundary_rows_spec (A : matrix) (n : Z) :
  len A = n -> 2 <= n ->
  len (boundary_rows A) = n /\
  get [] (boundary_rows A) 0 = unit_row (get [] A 0) 0 /\
  get [] (boundary_rows A) (n - 1)
  = unit_row (get [] A (n - 1)) (len (get [] A (n - 1)) - 1) /\
  forall i, 0 < i < n - 1 -> get [] (boundary_rows A) i = get [] A i.
Proof.
  intros Hlen Hn. unfold boundary_rows, zero_row, set2, last_index, unit_row.
  rewrite !len_set, Hlen.
  repeat first [ rewrite get_set_neq by lia
               | rewrite get_set_eq by (rewrite ?len_set; lia)
               | rewrite len_set | rewrite len_map ].
  repeat split.
  intros i Hi. now rewrite !get_set_neq by lia.
Qed.

Lemma boundary_values_spec (f : list T) (ga gb : T) (n : Z) :
  len f = n -> 2 <= n ->
  get zero (boundary_values f ga gb) 0 = ga /\
  get zero (boundary_values f ga gb) (n - 1) = gb /\
  forall i, 0 < i < n - 1 -> get zero (boundary_values f ga gb) i = get zero f i.
Proof.
  intros Hlen Hn. unfold boundary_values, last_index. rewrite len_set, Hlen.
  repeat split.
  - rewrite get_set_neq by lia. apply get_set_eq. lia.
  - apply get_set_eq. rewrite len_set. lia.
  - intros i Hi. rewrite !get_set_neq by lia. reflexivity.
Qed.

Lemma len_einsum_qi_qj_q (n : Z) (B1 B2 : matrix) (J : list T) :
  0 <= n -> len (einsum_qi_qj_q n B1 B2 J) = n.
Proof. intros Hn. unfold einsum_qi_qj_q. rewrite len_map. now apply len_range. Qed.

Lemma len_row_einsum_qi_qj_q (n : Z) (B1 B2 : matrix) (J : list T) (i : Z) :
  0 <= i < n -> len (get [] (einsum_qi_qj_q n B1 B2 J) i) = n.
Proof.
  intros Hi. unfold einsum_qi_qj_q.
  rewrite get_map with (dA := 0) by (rewrite len_range; lia).
  rewrite len_map. apply len_range. lia.
Qed.

Lemma len_einsum_qi_q_q (n : Z) (B : matrix) (g J : list T) :
  0 <= n -> len (einsum_qi_q_q n B g J) = n.
Proof. intros Hn. unfold einsum_qi_q_q. rewrite len_map. now apply len_range. Qed.

Lemma combine_diag {A : Type} (l : list A) (x y : A) :
  In (x, y) (combine l l) -> x = y.
Proof.
  induction l as [|z l IH]; simpl; [contradiction|].
  intros [E|Hin]; [congruence | auto].
Qed.

(** The matrix of line 172 is symmetric as soon as the product of two
    scalars does not depend on their order. *)
Lemma einsum_symmetric (n : Z) (B : matrix) (J : list T) (i j : Z) :
  (forall x y : T, mul x y = mul y x) ->
  0 <= i < n -> 0 <= j < n ->
  get zero (get [] (einsum_qi_qj_q n B B J) i) j
  = get zero (get [] (einsum_qi_qj_q n B B J) j) i.
Proof.
  intros Hcomm Hi Hj. unfold einsum_qi_qj_q.
  rewrite !get_map with (dA := 0) (dB := []) by (rewrite len_range; lia).
  rewrite !get_map with (dA := 0) (dB := zero) by (rewrite len_range; lia).
  rewrite !get_range by lia.
  f_equal. apply map_ext_in. intros [[r1 r2] jq] Hin.
  apply in_combine_l in Hin. apply combine_diag in Hin. subst r2.
  f_equal. apply Hcomm.
Qed.

(** Away from the two boundary rows the final matrix is the assembled
    one, which is symmetric. *)
Lemma interior_symmetric (A : matrix) (n : Z) (B : matrix) (J : list T) (i j : Z) :
  (forall x y : T, mul x y = mul y x) ->
  2 <= n -> A = einsum_qi_qj_q n B B J ->
  0 < i < n - 1 -> 0 < j < n - 1 ->
  get zero (get [] (boundary_rows A) i) j = get zero (get [] (boundary_rows A) j) i.
Proof.
  intros Hcomm Hn HA Hi Hj.
  assert (LA : len A = n) by (rewrite HA; apply len_einsum_qi_qj_q; lia).
  destruct (boundary_rows_spec A LA Hn) as [_ [_ [_ Ri]]].
  rewrite !Ri by lia. rewrite HA. apply einsum_symmetric; auto; lia.
Qed.

End Boundary.

(** ** Exact arithmetic: the rationals *)

Ltac qc_ops :=
  unfold zero, one in *;
  cbn [of_int add sub mul div eqb sqrt Qc_scalar] in *;
  change (Q2Qc (inject_Z 0)) with 0%Qc in *;
  change (Q2Qc (inject_Z 1)) with 1%Qc in *.

Lemma of_int_Qc_inj (x y : Z) : of_int (T := Qc) x = of_int y -> x = y.
Proof.
  qc_ops. intros E. apply Q2Qc_eq_iff in E. apply (proj1 (inject_Z_injective x y) E).
Qed.

Lemma of_int_Qc_nonzero (x : Z) : x <> 0 -> of_int (T := Qc) x <> 0%Qc.
Proof. intros Hx E. apply Hx. apply of_int_Qc_inj. exact E. Qed.

Lemma sum_Qc_acc (l : list Qc) (acc : Qc) :
  fold_left Qcplus l acc = (acc + fold_left Qcplus l 0)%Qc.
Proof.
  revert acc. induction l as [|x l IH]; intros acc; simpl.
  - ring.
  - rewrite (IH (acc + x)%Qc), (IH (0 + x)%Qc). ring.
Qed.

Lemma sum_Qc_cons (x : Qc) (l : list Qc) : sum (x :: l) = (x + sum l)%Qc.
Proof.
  unfold sum. qc_ops. simpl. rewrite sum_Qc_acc.
  replace (0 + x)%Qc with x by ring. reflexivity.
Qed.

Lemma prod_Qc_acc (l : list Qc) (acc : Qc) :
  fold_left Qcmult l acc = (acc * fold_left Qcmult l 1)%Qc.
Proof.
  revert acc. induction l as [|x l IH]; intros acc; simpl.
  - ring.
  - rewrite (IH (acc * x)%Qc), (IH (1 * x)%Qc). ring.
Qed.

Lemma prod_Qc_cons (x : Qc) (l : list Qc) : prod (x :: l) = (x * prod l)%Qc.
Proof.
  unfold prod. qc_ops. simpl. rewrite prod_Qc_acc.
  replace (1 * x)%Qc with x by ring. reflexivity.
Qed.

Lemma prod_Qc_ones (l : list Qc) : (forall x, In x l -> x = 1%Qc) -> prod l = 1%Qc.
Proof.
  induction l as [|x l IH]; intros Hl.
  - reflexivity.
  - rewrite prod_Qc_cons, IH by (intros y Hy; apply Hl; now right).
    rewrite (Hl x) by now left. ring.
Qed.

Lemma prod_Qc_zero (l : list Qc) : In 0%Qc l -> prod l = 0%Qc.
Proof.
  induction l as [|x l IH]; intros Hin; [contradiction|].
  rewrite prod_Qc_cons. destruct Hin as [->|Hin]; [ring|].
  rewrite IH by assumption. ring.
Qed.

(** The samples of [linspace] in exact arithmetic. *)
Lemma linspace_Qc (a b : Qc) (num : Z) :
  2 <= num ->
  exists l, linspace a b num = Ok l /\ len l = num /\
            forall i, 0 <= i < num ->
                      get zero l i = (a + of_int i * ((b - a) / of_int (num - 1)))%Qc.
Proof.
  intros Hnum.
  destruct (linspace_ok a b (num := num)) as [l [El Ll]]; [lia|].
  exists l. split; [exact El|]. split; [exact Ll|].
  intros i Hi. unfold linspace in El.
  destruct (Z.ltb_spec num 0); [lia|].
  destruct (Z.ltb_spec 0 (num - 1)); [|lia].
  destruct (Z.ltb_spec 1 num); [|lia].
  injection El as <-.
  pose proof (of_int_Qc_nonzero (x := num - 1)) as Hnz.
  destruct (Z.eq_dec i (num - 1)) as [->|Hne].
  - transitivity b.
    + apply get_set_eq. destruct (Qc_eq_bool _ _); rewrite !len_map, len_range; lia.
    + qc_ops. field. apply Hnz. lia.
  - rewrite get_set_neq by lia.
    destruct (Qc_eq_bool _ _);
      rewrite get_map with (dA := zero) by (rewrite !len_map, len_range; lia);
      rewrite get_map with (dA := zero) by (rewrite !len_map, len_range; lia);
      rewrite get_map with (dA := 0%Z) by (rewrite len_range; lia);
      rewrite get_range by lia; qc_ops; field; apply Hnz; lia.
Qed.

(** Distinct samples of an interval with distinct ends are distinct. *)
Lemma linspace_Qc_distinct (a b : Qc) (num : Z) (l : list Qc) (i j : Z) :
  2 <= num -> a <> b -> linspace a b num = Ok l ->
  0 <= i < num -> 0 <= j < num -> i <> j ->
  (get zero l i - get zero l j)%Qc <> 0%Qc.
Proof.
  intros Hnum Hab El Hi Hj Hij.
  destruct (linspace_Qc a b Hnum) as [l' [El' [_ Hget]]].
  rewrite El in El'. injection El' as <-.
  rewrite !Hget by lia.
  pose proof (of_int_Qc_nonzero (x := num - 1)) as Hnz.
  intros E.
  assert (E' : ((of_int i - of_int j) * (b - a))%Qc = 0%Qc).
  { transitivity
      (((a + of_int i * ((b - a) / of_int (num - 1)))
        - (a + of_int j * ((b - a) / of_int (num - 1)))) * of_int (num - 1))%Qc.
    - field. apply Hnz. lia.
    - rewrite E. ring. }
  apply Qcmult_integral in E'. destruct E' as [E'|E'].
  - apply Hij. apply of_int_Qc_inj.
    transitivity ((of_int i - of_int j) + of_int j)%Qc; [ring|].
    rewrite E'. ring.
  - apply Hab. transitivity (a + (b - a))%Qc; [|ring]. rewrite E'. ring.
Qed.

Lemma In_others {T : Type} `{Scalar T} (v : list T) (i j : Z) :
  In j (others v i) <-> 0 <= j < len v /\ j <> i.
Proof.
  unfold others. rewrite filter_In, In_range, negb_true_iff, Z.eqb_neq.
  intuition congruence.
Qed.

(** The Lagrange property over any list of pairwise distinct points. *)
Lemma lagrange_basis_Qc (v : list Qc) (alpha : Z) :
  0 <= alpha < len v ->
  (forall j, 0 <= j < len v -> j <> alpha ->
             (get zero v alpha - get zero v j)%Qc <> 0%Qc) ->
  exists f, lagrange_basis v alpha = Ok f /\
            f (get zero v alpha) = 1%Qc /\
            forall beta, 0 <= beta < len v -> beta <> alpha ->
                         f (get zero v beta) = 0%Qc.
Proof.
  intros Ha Hd. eexists. split; [apply lagrange_basis_ok; lia|].
  cbv beta. split.
  - apply prod_Qc_ones. intros x Hx. apply in_map_iff in Hx.
    destruct Hx as [j [<- Hj]]. apply In_others in Hj.
    qc_ops. field. apply Hd; lia.
  - intros beta Hb Hne. apply prod_Qc_zero. apply in_map_iff.
    exists beta. split; [|apply In_others; lia].
    qc_ops. field. apply Hd; lia.
Qed.






(** ** Binary64 *)

(** The IEEE 754 product does not depend on the order of its operands. *)
Lemma float_mul_comm (x y : float) : PrimFloat.mul x y = PrimFloat.mul y x.
Proof.
  apply Prim2SF_inj. rewrite !mul_spec. unfold SF64mul, SFmul.
  destruct (Prim2SF x) as [sx|sx| |sx mx ex], (Prim2SF y) as [sy|sy| |sy my ey];
    try reflexivity; rewrite (xorb_comm sx sy); try reflexivity.
  now rewrite (Pos.mul_comm mx my), (Z.add_comm ex ey).
Qed.

(** ** Polynomials *)

Section Polynomials.
Local Open Scope R_scope.
Local Unset Implicit Arguments.

(** Polynomial functions and their derivatives. *)
Lemma eval_derivable (p : list R) (x : R) :
  derivable_pt_lim (eval p) x (eval_deriv p x).
Proof.
  induction p as [|c p IH].
  - simpl. apply (derivable_pt_lim_const 0).
  - cbn [eval eval_deriv].
    replace (eval p x + x * eval_deriv p x)
      with (0 + (1 * eval p x + id x * eval_deriv p x)) by (unfold id; ring).
    apply (derivable_pt_lim_plus (fct_cte c) (fun t => id t * eval p t)).
    + apply derivable_pt_lim_const.
    + apply (derivable_pt_lim_mult id (eval p)); [apply derivable_pt_lim_id | exact IH].
Qed.

Lemma primitive_from_deriv (p : list R) (k : Z) (x : R) :
  (0 <= k)%Z ->
  IZR (k + 1) * eval (primitive_from k p) x + x * eval_deriv (primitive_from k p) x
  = eval p x.
Proof.
  revert k. induction p as [|c p IH]; intros k Hk; cbn [eval eval_deriv primitive_from].
  - ring.
  - specialize (IH (k + 1)%Z ltac:(lia)).
    assert (Hnz : IZR (k + 1) <> 0) by (apply not_0_IZR; lia).
    rewrite <- IH. rewrite (plus_IZR (k + 1) 1). field. exact Hnz.
Qed.

(** The derivative of the primitive is the polynomial. *)
Lemma primitive_deriv (p : list R) (x : R) : eval_deriv (primitive p) x = eval p x.
Proof.
  unfold primitive. cbn [eval_deriv]. rewrite <- (primitive_from_deriv p 0 x) by lia.
  cbn [Z.add]. ring.
Qed.

Lemma eval_padd (a b : list R) (x : R) : eval (padd a b) x = eval a x + eval b x.
Proof.
  revert b. induction a as [|u a IH]; intros [|v b]; cbn [eval padd]; try ring.
  rewrite IH. ring.
Qed.

Lemma eval_pscale (k : R) (a : list R) (x : R) : eval (pscale k a) x = k * eval a x.
Proof.
  unfold pscale. induction a as [|u a IH]; cbn [eval map]; [ring|]. rewrite IH. ring.
Qed.

Lemma eval_shifted (p : list R) (t : R) : eval (shifted p) t = eval p ((t + 1) / 2).
Proof.
  induction p as [|c p IH]; [reflexivity|].
  cbn [shifted]. rewrite eval_padd. unfold times_half_shift. rewrite eval_padd.
  cbn [eval]. rewrite !eval_pscale, IH. field.
Qed.

Lemma length_padd (a b : list R) : length (padd a b) = Nat.max (length a) (length b).
Proof.
  revert b. induction a as [|u a IH]; intros [|v b]; simpl; auto.
Qed.

Lemma length_shifted (p : list R) : length (shifted p) = length p.
Proof.
  induction p as [|c p IH]; [reflexivity|].
  cbn [shifted]. rewrite length_padd. unfold times_half_shift. rewrite length_padd.
  cbn [length]. unfold pscale. rewrite length_map, IH. lia.
Qed.

Lemma half_shift_derivable (x : R) :
  derivable_pt_lim (fun t => (t + 1) / 2) x (1 / 2).
Proof.
  intros eps Heps. exists (mkposreal 1 Rlt_0_1). intros h Hh _.
  replace (((x + h + 1) / 2 - (x + 1) / 2) / h - 1 / 2) with 0 by (field; exact Hh).
  rewrite Rabs_R0. exact Heps.
Qed.

(** Change of variable [x = (t + 1)/2]: both sides are primitives of the
    same polynomial on [[-1,1]], so they differ by a constant. *)
Lemma integral_shifted (p : list R) :
  integral (shifted p) (-1) 1 = 2 * integral p 0 1.
Proof.
  set (g1 := eval (primitive (shifted p))).
  set (g2 := fun t => 2 * eval (primitive p) ((t + 1) / 2)).
  assert (A1 : antiderivative (eval (shifted p)) g1 (-1) 1).
  { split; [|lra]. intros x _.
    assert (D : derivable_pt_lim g1 x (eval (shifted p) x)).
    { rewrite <- primitive_deriv. apply eval_derivable. }
    exists (exist _ _ D). reflexivity. }
  assert (A2 : antiderivative (eval (shifted p)) g2 (-1) 1).
  { split; [|lra]. intros x _.
    assert (D : derivable_pt_lim g2 x (eval (shifted p) x)).
    { rewrite eval_shifted.
      replace (eval p ((x + 1) / 2))
        with (2 * (eval_deriv (primitive p) ((x + 1) / 2) * (1 / 2)))
        by (rewrite primitive_deriv; field).
      apply (derivable_pt_lim_scal
               (comp (eval (primitive p)) (fun t => (t + 1) / 2)) 2 x).
      apply derivable_pt_lim_comp; [apply half_shift_derivable | apply eval_derivable]. }
    exists (exist _ _ D). reflexivity. }
  destruct (antiderivative_Ucte _ _ _ _ _ A1 A2) as [c Hc].
  unfold integral. fold g1.
  rewrite (Hc 1) by lra. rewrite (Hc (-1)) by lra. unfold g2.
  replace ((1 + 1) / 2) with 1 by field.
  replace ((-1 + 1) / 2) with 0 by field. ring.
Qed.

Lemma sum_R_acc (l : list R) (acc : R) :
  fold_left Rplus l acc = acc + fold_left Rplus l 0.
Proof.
  revert acc. induction l as [|x l IH]; intros acc; cbn [fold_left].
  - ring.
  - rewrite (IH (acc + x)), (IH (0 + x)). ring.
Qed.

Lemma sum_R_cons (x : R) (l : list R) : sum (x :: l) = x + sum l.
Proof.
  unfold sum, zero. cbn [of_int add R_scalar fold_left]. rewrite sum_R_acc. ring.
Qed.

(** Lines 134-135 turn a rule on [[-1,1]] into a rule on [[0,1]]. *)
Lemma quadrature_rescaled (x w p : list R) :
  quadrature (map (fun t => div (add t one) (of_int 2)) x)
             (map (fun t => div t (of_int 2)) w) p
  = quadrature x w (shifted p) / 2.
Proof.
  unfold quadrature. revert w. induction x as [|a x IH]; intros [|b w];
    cbn [map combine]; try (unfold sum, zero; cbn [of_int R_scalar fold_left]; field).
  rewrite !sum_R_cons, IH, eval_shifted.
  unfold one. cbn [of_int add mul div R_scalar]. field.
Qed.

Lemma rescaled_rule_exact (m : Z) (x w : list R) :
  exact_rule (-1) 1 m x w ->
  exact_rule 0 1 m (map (fun t => div (add t one) (of_int 2)) x)
             (map (fun t => div t (of_int 2)) w).
Proof.
  intros Hex p Hp. rewrite quadrature_rescaled, Hex, integral_shifted.
  - field.
  - unfold len in *. rewrite length_shifted. exact Hp.
Qed.

(** The three-point rule integrates the polynomials of degree at most 5. *)
Lemma leggauss_3_exact : gauss_legendre 3 leggauss_3.
Proof.
  split; [reflexivity|]. split; [reflexivity|].
  intros p Hp. unfold len in Hp. cbn [fst snd leggauss_3].
  assert (Hs : R_sqrt.sqrt (3 / 5) * R_sqrt.sqrt (3 / 5) = 3 / 5)
    by (apply sqrt_sqrt; lra).
  remember (R_sqrt.sqrt (3 / 5)) as s eqn:Es. clear Es.
  assert (H2 : s ^ 2 = 3 / 5) by (rewrite <- Hs; ring).
  assert (H4 : s ^ 4 = 9 / 25)
    by (replace (s ^ 4) with ((s * s) * (s * s)) by ring; rewrite Hs; field).
  destruct p as [|c0 [|c1 [|c2 [|c3 [|c4 [|c5 [|c6 p]]]]]]];
    cbn [length] in Hp; try lia;
    unfold quadrature, integral, primitive, sum, zero;
    cbn [map combine fold_left eval primitive_from Z.add Pos.add Pos.succ
             of_int add mul R_scalar];
    field_simplify_eq; rewrite ?H4, ?H2; field.
Qed.

End Polynomials.

(** ** The arrays of [fem], entry by entry *)

Lemma mapM_map {A B : Type} (f : A -> result B) (g : A -> B) (xs : list A) :
  (forall x, In x xs -> f x = Ok (g x)) -> mapM f xs = Ok (map g xs).
Proof.
  induction xs as [|x xs IH]; intros Hf; cbn [mapM map]; [reflexivity|].
  rewrite (Hf x) by now left. cbn [bind].
  rewrite IH by (intros y Hy; apply Hf; now right). reflexivity.
Qed.

Lemma foldM_app {A S : Type} (f : S -> A -> result S) (xs ys : list A) (s : S) :
  foldM f (xs ++ ys) s = (s' <- foldM f xs s ;; foldM f ys s').
Proof.
  revert s. induction xs as [|x xs IH]; intros s; cbn [foldM app bind]; [reflexivity|].
  destruct (f s x) as [s1|e]; cbn [bind]; [apply IH | reflexivity].
Qed.

Lemma get_app_l {A : Type} (d : A) (l1 l2 : list A) (i : Z) :
  0 <= i < len l1 -> get d (l1 ++ l2) i = get d l1 i.
Proof. unfold get, len. intros Hi. apply app_nth1. lia. Qed.

Lemma get_app_r {A : Type} (d : A) (l1 l2 : list A) (i : Z) :
  len l1 <= i -> get d (l1 ++ l2) i = get d l2 (i - len l1).
Proof.
  unfold get, len. intros Hi. rewrite app_nth2 by lia. f_equal. lia.
Qed.

Lemma len_app {A : Type} (l1 l2 : list A) : len (l1 ++ l2) = len l1 + len l2.
Proof. unfold len. rewrite length_app. lia. Qed.

(** A concatenation of blocks of [n] rows: row [k*n + j] is row [j] of
    block [k]. *)
Lemma len_concat_uniform {A : Type} (blocks : list (list A)) (n : Z) :
  0 <= n -> (forall b, In b blocks -> len b = n) ->
  len (concat blocks) = len blocks * n.
Proof.
  intros Hn. induction blocks as [|b blocks IH]; intros Hb; cbn [concat].
  - reflexivity.
  - rewrite len_app, (Hb b) by now left.
    rewrite IH by (intros c Hc; apply Hb; now right).
    unfold len. cbn [length]. lia.
Qed.

Lemma get_concat_uniform {A : Type} (d : A) (blocks : list (list A)) (n k j : Z) :
  (forall b, In b blocks -> len b = n) ->
  0 <= k < len blocks -> 0 <= j < n ->
  get d (concat blocks) (k * n + j) = get d (get [] blocks k) j.
Proof.
  intros Hb. revert k. induction blocks as [|b blocks IH]; intros k Hk Hj.
  - unfold len in Hk. cbn [length] in Hk. lia.
  - cbn [concat]. assert (Lb : len b = n) by (apply Hb; now left).
    destruct (Z.eq_dec k 0) as [->|Hne].
    + rewrite get_app_l by lia. f_equal.
    + rewrite get_app_r by nia. rewrite Lb.
      replace (k * n + j - n) with ((k - 1) * n + j) by lia.
      rewrite IH.
      * unfold get. replace (Z.to_nat k) with (S (Z.to_nat (k - 1))) by lia. reflexivity.
      * intros c Hc. apply Hb. now right.
      * unfold len in *. cbn [length] in Hk. lia.
      * exact Hj.
Qed.

(** Stores at pairwise distinct positions of a row. *)
Lemma fold_set_len {A B : Type} (f : B -> A) (l : list (Z * B)) (r : list A) :
  len (fold_left (fun r '(i, v) => set r i (f v)) l r) = len r.
Proof.
  revert r. induction l as [|[i v] l IH]; intros r; cbn [fold_left]; [reflexivity|].
  rewrite IH. apply len_set.
Qed.

Lemma fold_set_other {A B : Type} (d : A) (f : B -> A) (l : list (Z * B)) (r : list A)
      (i0 : Z) :
  0 <= i0 -> ~ In i0 (map fst l) ->
  get d (fold_left (fun r '(i, v) => set r i (f v)) l r) i0 = get d r i0.
Proof.
  intros Hi0. revert r. induction l as [|[i v] l IH]; intros r Hnot; cbn [fold_left].
  - reflexivity.
  - cbn [map fst In] in Hnot. rewrite IH by tauto.
    apply get_set_neq; [exact Hi0 | tauto].
Qed.

Lemma fold_set_stored {A B : Type} (d : A) (f : B -> A) (l : list (Z * B)) (r : list A)
      (i0 : Z) (v0 : B) :
  NoDup (map fst l) -> In (i0, v0) l -> 0 <= i0 < len r ->
  get d (fold_left (fun r '(i, v) => set r i (f v)) l r) i0 = f v0.
Proof.
  revert r. induction l as [|[i v] l IH]; intros r Hnd Hin Hi0; [contradiction|].
  cbn [fold_left]. cbn [map fst] in Hnd. inversion Hnd as [|? ? Hnot Hnd']; subst.
  destruct Hin as [E|Hin].
  - injection E as -> ->. rewrite fold_set_other by (lia || assumption).
    now apply get_set_eq.
  - apply IH; [assumption | assumption | now rewrite len_set].
Qed.

Lemma NoDup_map_inj {A B : Type} (f : A -> B) (l : list A) :
  (forall x y, In x l -> In y l -> f x = f y -> x = y) -> NoDup l -> NoDup (map f l).
Proof.
  induction l as [|a l IH]; intros Hinj Hnd; cbn [map]; [constructor|].
  inversion Hnd as [|? ? Hnot Hnd']; subst. constructor.
  - intros Hin. apply in_map_iff in Hin. destruct Hin as [x [E Hx]].
    apply Hnot. rewrite <- (Hinj x a); auto; [now right | now left].
  - apply IH; [|assumption]. intros x y Hx Hy. apply Hinj; now right.
Qed.

Lemma NoDup_range2 (lo hi : Z) : NoDup (range2 lo hi).
Proof.
  unfold range2, range. rewrite map_map. apply NoDup_map_inj.
  - intros x y _ _ E. lia.
  - apply seq_NoDup.
Qed.

Lemma get_combine {A B : Type} (dA : A) (dB : B) (l1 : list A) (l2 : list B) (i : Z) :
  length l1 = length l2 ->
  get (dA, dB) (combine l1 l2) i = (get dA l1 i, get dB l2 i).
Proof. intros Hl. unfold get. now apply combine_nth. Qed.

Lemma In_combine_get {A B : Type} (dA : A) (dB : B) (l1 : list A) (l2 : list B) (i : Z) :
  length l1 = length l2 -> 0 <= i < len l1 ->
  In (get dA l1 i, get dB l2 i) (combine l1 l2).
Proof.
  intros Hl Hi. rewrite <- get_combine by assumption.
  unfold get. apply nth_In. rewrite length_combine. unfold len in Hi. lia.
Qed.

Lemma map_fst_combine {A B : Type} (l1 : list A) (l2 : list B) :
  length l1 = length l2 -> map fst (combine l1 l2) = l1.
Proof.
  revert l2. induction l1 as [|a l1 IH]; intros [|b l2] Hl; cbn in *;
    try discriminate; [reflexivity|]. f_equal. apply IH. lia.
Qed.

Section TableLemmas.
Context {T : Type} `{Scalar T} `{Numpy T}.

Lemma mapping_eq (v : list T) (k : Z) :
  0 <= k < len v - 1 ->
  mapping v k
  = Ok (fun x => add (get zero v k) (mul x (sub (get zero v (k + 1)) (get zero v k)))).
Proof.
  intros Hk. unfold mapping, assert.
  destruct (Z.ltb_spec k (len v - 1)); [|lia].
  destruct (Z.leb_spec 0 k); [|lia]. reflexivity.
Qed.

Lemma lagrange_basis_eq (v : list T) (i : Z) :
  0 <= i < len v -> lagrange_basis v i = Ok (basis_value v i).
Proof. apply lagrange_basis_ok. Qed.

Lemma lagrange_basis_derivative_eq (v : list T) (i : Z) :
  2 <= len v -> 0 <= i < len v ->
  lagrange_basis_derivative v i = Ok (basis_slope v i).
Proof.
  intros Hv Hi. unfold lagrange_basis_derivative, assert.
  destruct (Z.ltb_spec i (len v)); [|lia].
  destruct (Z.leb_spec 0 i); [|lia]. cbn [bind].
  unfold basis_slope.
  destruct (others_cons v i Hv) as [j [l ->]]. reflexivity.
Qed.

(** On one point the derivative is not built: the index passes the two
    assertions and the empty product has no [diff]. *)
Lemma lagrange_basis_derivative_single (v : list T) (i : Z) :
  len v = 1 -> 0 <= i < len v ->
  lagrange_basis_derivative v i = Raise AttributeError.
Proof.
  intros Hv Hi. unfold lagrange_basis_derivative, assert.
  destruct (Z.ltb_spec i (len v)); [|lia].
  destruct (Z.leb_spec 0 i); [|lia]. cbn [bind].
  rewrite others_single by assumption. reflexivity.
Qed.

Lemma len_zeros1 (n : Z) : 0 <= n -> len (zeros1 (T := T) n) = n.
Proof. intros Hn. unfold len, zeros1. rewrite repeat_length. lia. Qed.

Lemma get_zeros1 (n i : Z) : get zero (zeros1 (T := T) n) i = zero.
Proof.
  unfold get, zeros1. destruct (Nat.lt_ge_cases (Z.to_nat i) (Z.to_nat n)).
  - now apply nth_repeat_lt.
  - apply nth_overflow. now rewrite repeat_length.
Qed.

(** [B[k,:,Pk] = V] on a block of zeros, row by row. *)
Lemma len_scatter (Pk : list Z) (V Bk : matrix) : len (scatter Pk V Bk) = len Bk.
Proof.
  unfold scatter, len. rewrite length_map, length_combine, range_length.
  unfold len. lia.
Qed.

Lemma get_scatter_zeros (Pk : list Z) (V : matrix) (n N j : Z) :
  0 <= j < n ->
  get [] (scatter Pk V (zeros2 n N)) j
  = fold_left (fun r '(i, v) => set r i (get zero v j)) (combine Pk V) (zeros1 N).
Proof.
  intros Hj. unfold scatter.
  assert (Ln : len (zeros2 (T := T) n N) = n)
    by (unfold len, zeros2; rewrite repeat_length; lia).
  rewrite Ln.
  rewrite get_map with (dA := (0, [])).
  - rewrite get_combine by (rewrite range_length; unfold zeros2; rewrite repeat_length; lia).
    rewrite get_range by lia.
    unfold zeros2, get at 2. rewrite nth_repeat_lt by lia. reflexivity.
  - unfold len. rewrite length_combine, range_length.
    unfold zeros2. rewrite repeat_length. lia.
Qed.

(** The loop of lines 162-164 fills block [k] at step [k]. *)
Lemma foldM_blocks {X Y : Type} (dX : X) (dY : Y)
      (fq : Z -> X -> X) (jac : Z -> result T) (J : Z -> T) (fp : Z -> T -> Y -> Y)
      (z : X) (z' : Y) (M m : nat) :
  (m <= M)%nat ->
  (forall k, 0 <= k < Z.of_nat m -> jac k = Ok (J k)) ->
  foldM (fun '(B, B') k =>
           let B := set B k (fq k (get dX B k)) in
           J <- jac k ;;
           let B' := set B' k (fp k J (get dY B' k)) in
           Ok (B, B'))
        (range (Z.of_nat m)) (repeat z M, repeat z' M)
  = Ok (map (fun k => fq k z) (range (Z.of_nat m)) ++ repeat z (M - m),
        map (fun k => fp k (J k) z') (range (Z.of_nat m)) ++ repeat z' (M - m)).
Proof.
  intros Hm. induction m as [|m IH]; intros Hjac.
  - cbn [Z.of_nat range Z.to_nat seq map foldM app]. now rewrite Nat.sub_0_r.
  - replace (Z.of_nat (S m)) with (Z.of_nat m + 1) in * by lia.
    rewrite range_succ by lia. rewrite foldM_app, IH by (try lia; intros; apply Hjac; lia).
    cbn [bind foldM]. rewrite (Hjac (Z.of_nat m)) by lia. cbn [bind].
    rewrite !map_app. cbn [map]. rewrite <- !app_assoc. cbn [app].
    assert (Lq : forall (A : Type) (g : Z -> A),
               length (map g (range (Z.of_nat m))) = m)
      by (intros; rewrite length_map, range_length; lia).
    replace (M - m)%nat with (S (M - S m)) by lia. cbn [repeat].
    assert (Eget : forall (A : Type) (d : A) (l : list A) (x : A) (l' : list A),
               length l = m -> get d (l ++ x :: l') (Z.of_nat m) = x).
    { intros A d l x l' Hl. unfold get. rewrite Nat2Z.id, app_nth2 by lia.
      rewrite Hl, Nat.sub_diag. reflexivity. }
    assert (Eset : forall (A : Type) (l : list A) (x v : A) (l' : list A),
               length l = m -> set (l ++ x :: l') (Z.of_nat m) v = l ++ v :: l').
    { intros A l x v l' Hl. unfold set. destruct (Z.ltb_spec (Z.of_nat m) 0); [lia|].
      rewrite Nat2Z.id, <- Hl. apply set_nth_app. }
    rewrite !Eget, !Eset by apply Lq. reflexivity.
Qed.

End TableLemmas.

Section ClosedForm.
Context {T : Type} `{Scalar T} `{Numpy T}.

(** The arrays of [fem] as comprehensions over the elements. *)
Lemma fem_assemble_closed (M : Z) (exact_function rhs_function : T -> T)
      (degree : Z) (a b : T) :
  1 <= M -> 1 <= degree ->
  exists s,
    fem_assemble M exact_function rhs_function degree a b = Ok s /\
    assembled M exact_function rhs_function degree a b s /\
    Xq s = concat (map (fun k =>
                          map (fun x => add (get zero (vertices s) k)
                                            (mul x (sub (get zero (vertices s) (k + 1))
                                                        (get zero (vertices s) k))))
                              (q s))
                       (range M)) /\
    JxWq s = concat (map (fun k =>
                            map (fun wj => mul (sub (get zero (vertices s) (k + 1))
                                                    (get zero (vertices s) k)) wj)
                                (w s))
                         (range M)) /\
    Bq s = concat (map (fun k =>
                          scatter (get [] (P s) k)
                                  (transpose (degree + 1)
                                     (transpose (len (q s))
                                        (map (fun i => map (basis_value (ref_vertices s) i) (q s))
                                             (range (degree + 1)))))
                                  (zeros2 (2 * degree + 1) (N s)))
                       (range M)) /\
    Bprimeq s = concat (map (fun k =>
                          scatter (get [] (P s) k)
                                  (map (map (fun x => div x (sub (get zero (vertices s) (k + 1))
                                                                 (get zero (vertices s) k))))
                                     (transpose (degree + 1)
                                        (transpose (len (q s))
                                           (map (fun i => map (basis_slope (ref_vertices s) i) (q s))
                                                (range (degree + 1))))))
                                  (zeros2 (2 * degree + 1) (N s)))
                       (range M)).
Proof.
  intros HM Hd.
  unfold fem_assemble, assert.
  destruct (Z.ltb_spec 0 degree); [|lia]. cbn [bind].
  destruct (linspace_ok zero one (num := degree + 1)) as [rv [Erv Lrv]]; [lia|].
  destruct (linspace_ok a b (num := M + 1)) as [vs [Evs Lvs]]; [lia|].
  rewrite Erv, Evs. cbn [bind].
  destruct (leggauss (2 * degree + 1)) as [q0 w0] eqn:Elg. cbv zeta.
  rewrite (mapM_map _ (fun i => map (basis_value rv i)
                                    (map (fun x => div (add x one) (of_int 2)) q0)))
    by (intros i Hi; apply In_range in Hi; rewrite lagrange_basis_eq by lia; reflexivity).
  cbn [bind].
  rewrite (mapM_map _ (fun i => map (basis_slope rv i)
                                    (map (fun x => div (add x one) (of_int 2)) q0)))
    by (intros i Hi; apply In_range in Hi;
        rewrite lagrange_basis_derivative_eq by lia; reflexivity).
  cbn [bind].
  unfold check_shape. cbn [existsb orb].
  destruct (Z.ltb_spec M 0); [lia|].
  destruct (Z.ltb_spec (2 * degree + 1) 0); [lia|].
  destruct (Z.ltb_spec (M * degree + 1) 0); [nia|].
  destruct (Z.ltb_spec (degree + 1) 0); [lia|]. cbn [orb bind].
  rewrite array_max_numbering by lia. cbn [bind].
  replace (M * degree =? M * degree + 1 - 1) with true
    by (symmetry; apply Z.eqb_eq; lia).
  cbn [bind].
  rewrite (mapM_map _ (fun k => map (fun x => add (get zero vs k)
                                                  (mul x (sub (get zero vs (k + 1))
                                                              (get zero vs k))))
                                    (map (fun x => div (add x one) (of_int 2)) q0)))
    by (intros k Hk; apply In_range in Hk; rewrite mapping_eq by lia; reflexivity).
  cbn [bind].
  rewrite (mapM_map _ (fun k => map (fun wj => mul (sub (get zero vs (k + 1)) (get zero vs k)) wj)
                                    (map (fun x => div x (of_int 2)) w0)))
    by (intros k Hk; apply In_range in Hk; rewrite mapping_J_ok by lia; reflexivity).
  cbn [bind].
  pose proof (foldM_blocks (X := matrix) (Y := matrix) [] []
                (fun k B => scatter (get [] (numbering M degree) k)
                              (transpose (degree + 1)
                                 (transpose (len (map (fun x => div (add x one) (of_int 2)) q0))
                                    (map (fun i => map (basis_value rv i)
                                                       (map (fun x => div (add x one) (of_int 2)) q0))
                                         (range (degree + 1)))))
                              B)
                (fun k => mapping_J vs k)
                (fun k => sub (get zero vs (k + 1)) (get zero vs k))
                (fun k J B => scatter (get [] (numbering M degree) k)
                                (map (map (fun x => div x J))
                                   (transpose (degree + 1)
                                      (transpose (len (map (fun x => div (add x one) (of_int 2)) q0))
                                         (map (fun i => map (basis_slope rv i)
                                                            (map (fun x => div (add x one) (of_int 2)) q0))
                                              (range (degree + 1))))))
                                B)
                (zeros2 (2 * degree + 1) (M * degree + 1))
                (zeros2 (2 * degree + 1) (M * degree + 1))
                (M := Z.to_nat M) (m := Z.to_nat M) (Nat.le_refl _)) as Eloop.
  rewrite Z2Nat.id in Eloop by lia.
  specialize (Eloop ltac:(intros k Hk; apply mapping_J_ok; lia)).
  rewrite Nat.sub_diag in Eloop. cbn [repeat] in Eloop. rewrite !app_nil_r in Eloop.
  unfold zeros3.
  lazymatch type of Eloop with
  | _ = ?r =>
      match goal with
      | |- context [foldM ?f ?xs ?st] =>
          replace (foldM f xs st) with r by (symmetry; exact Eloop)
      end
  end.
  cbn [bind].
  eexists. split; [reflexivity|].
  unfold assembled.
  cbn [N ref_vertices vertices q w P Xq Bq Bprimeq JxWq
         assembled_matrix stiffness_matrix assembled_rhs rhs].
  rewrite Elg. cbn [fst snd]. repeat split; auto.
Qed.

End ClosedForm.

Section Entries.
Context {T : Type} `{Scalar T} `{Numpy T}.

Lemma len_transpose (c : Z) (a : matrix) : 0 <= c -> len (transpose c a) = c.
Proof. intros Hc. unfold transpose. rewrite len_map. now apply len_range. Qed.

Lemma get_transpose (c : Z) (a : matrix) (i j : Z) :
  0 <= i < c -> 0 <= j < len a ->
  get zero (get [] (transpose c a) i) j = get zero (get [] a j) i.
Proof.
  intros Hi Hj. unfold transpose.
  rewrite get_map with (dA := 0) by (rewrite len_range; lia).
  rewrite get_range by lia.
  now rewrite get_map with (dA := []).
Qed.

Lemma len_row_transpose (c : Z) (a : matrix) (i : Z) :
  0 <= i < c -> len (get [] (transpose c a) i) = len a.
Proof.
  intros Hi. unfold transpose.
  rewrite get_map with (dA := 0) by (rewrite len_range; lia).
  apply len_map.
Qed.

(** [(V.T).T[alpha][j] = V[alpha][j]] for a table of [c2] rows of [c1]
    entries. *)
Lemma get_transpose_twice (c1 c2 : Z) (a : matrix) (alpha j : Z) :
  len a = c2 -> 0 <= alpha < c2 -> 0 <= j < c1 ->
  get zero (get [] (transpose c2 (transpose c1 a)) alpha) j = get zero (get [] a alpha) j.
Proof.
  intros La Ha Hj.
  rewrite get_transpose by (try rewrite len_transpose; lia).
  apply get_transpose; lia.
Qed.

(** One row of a block after [B[k,:,Pk] = V], for [Pk = range(lo, lo+c)]. *)
Lemma scatter_row (lo c n N j : Z) (V : matrix) :
  0 <= lo -> 0 <= c -> lo + c <= N -> len V = c -> 0 <= j < n ->
  len (get [] (scatter (range2 lo (lo + c)) V (zeros2 n N)) j) = N /\
  (forall alpha, 0 <= alpha < c ->
     get zero (get [] (scatter (range2 lo (lo + c)) V (zeros2 n N)) j) (lo + alpha)
     = get zero (get [] V alpha) j) /\
  (forall i, 0 <= i < N -> i < lo \/ lo + c <= i ->
     get zero (get [] (scatter (range2 lo (lo + c)) V (zeros2 n N)) j) i = zero).
Proof.
  intros Hlo Hc HN LV Hj. rewrite get_scatter_zeros by lia.
  assert (Ll : length (range2 lo (lo + c)) = length V).
  { pose proof (len_range2 (lo := lo) (hi := lo + c) ltac:(lia)) as L. unfold len in *. lia. }
  split; [|split].
  - rewrite fold_set_len. apply len_zeros1. lia.
  - intros alpha Ha.
    rewrite fold_set_stored with (v0 := get [] V alpha); [reflexivity | | |].
    + rewrite map_fst_combine by exact Ll. apply NoDup_range2.
    + rewrite <- (@get_range2 0 lo (lo + c) alpha) by lia.
      apply In_combine_get; [exact Ll|]. rewrite len_range2; lia.
    + rewrite len_zeros1; lia.
  - intros i Hi Hout. rewrite fold_set_other.
    + apply get_zeros1.
    + lia.
    + rewrite map_fst_combine by exact Ll. rewrite In_range2. lia.
Qed.

(** The arrays of [fem] hold what the comment of lines 160-161 says,
    when [leggauss(n)] returns [n] nodes and [n] weights. *)
Lemma fem_assemble_tabulated (M : Z) (exact_function rhs_function : T -> T)
      (degree : Z) (a b : T) :
  1 <= M -> 1 <= degree ->
  len (fst (leggauss (2 * degree + 1))) = 2 * degree + 1 ->
  len (snd (leggauss (2 * degree + 1))) = 2 * degree + 1 ->
  exists s,
    fem_assemble M exact_function rhs_function degree a b = Ok s /\
    assembled M exact_function rhs_function degree a b s /\
    tabulated M degree s.
Proof.
  intros HM Hd Lq0 Lw0.
  destruct (fem_assemble_closed exact_function rhs_function a b HM Hd)
    as [s [Es [Hs [EX [EJ [EB EB']]]]]].
  exists s. split; [exact Es|]. split; [exact Hs|].
  destruct Hs as [HN [_ [_ [Hq [Hw [HP _]]]]]].
  assert (Lq : len (q s) = 2 * degree + 1) by (rewrite Hq, len_map; exact Lq0).
  assert (Lw : len (w s) = 2 * degree + 1) by (rewrite Hw, len_map; exact Lw0).
  assert (LM : forall (A : Type) (g : Z -> A), len (map g (range M)) = M)
    by (intros; rewrite len_map; apply len_range; lia).
  assert (Hrow : forall k, 0 <= k < M ->
                           get [] (P s) k = range2 (k * degree) (k * degree + (degree + 1))).
  { intros k Hk. rewrite HP, numbering_rows.
    rewrite get_map with (dA := 0) by (rewrite len_range; lia).
    rewrite get_range by lia. f_equal. lia. }
  assert (BX : forall blk, In blk (map (fun k =>
                 map (fun x => add (get zero (vertices s) k)
                                   (mul x (sub (get zero (vertices s) (k + 1))
                                               (get zero (vertices s) k)))) (q s))
                 (range M)) -> len blk = 2 * degree + 1).
  { intros blk Hin. apply in_map_iff in Hin. destruct Hin as [k [<- _]].
    now rewrite len_map. }
  assert (BJ : forall blk, In blk (map (fun k =>
                 map (fun wj => mul (sub (get zero (vertices s) (k + 1))
                                         (get zero (vertices s) k)) wj) (w s))
                 (range M)) -> len blk = 2 * degree + 1).
  { intros blk Hin. apply in_map_iff in Hin. destruct Hin as [k [<- _]].
    now rewrite len_map. }
  assert (Lz : len (zeros2 (T := T) (2 * degree + 1) (N s)) = 2 * degree + 1)
    by (unfold len, zeros2; rewrite repeat_length; lia).
  match type of EB with _ = concat ?blocks =>
    assert (BB : forall blk, In blk blocks -> len blk = 2 * degree + 1) end.
  { intros blk Hin. apply in_map_iff in Hin. destruct Hin as [k [<- _]].
    now rewrite len_scatter. }
  match type of EB' with _ = concat ?blocks =>
    assert (BB' : forall blk, In blk blocks -> len blk = 2 * degree + 1) end.
  { intros blk Hin. apply in_map_iff in Hin. destruct Hin as [k [<- _]].
    now rewrite len_scatter. }
  unfold tabulated. cbv zeta.
  split; [rewrite EX, len_concat_uniform with (n := 2 * degree + 1), LM; auto; lia|].
  split; [rewrite EJ, len_concat_uniform with (n := 2 * degree + 1), LM; auto; lia|].
  split; [rewrite EB, len_concat_uniform with (n := 2 * degree + 1), LM; auto; lia|].
  split; [rewrite EB', len_concat_uniform with (n := 2 * degree + 1), LM; auto; lia|].
  intros k j Hk Hj.
  rewrite EX, EJ, EB, EB'.
  rewrite !get_concat_uniform by (auto; rewrite LM; lia).
  rewrite !(@get_map Z (list T) _ 0 []) by (rewrite len_range; lia).
  unfold matrix.
  rewrite !(@get_map Z (list (list T)) _ 0 []) by (rewrite len_range; lia).
  rewrite !get_range by lia.
  rewrite get_map with (dA := zero) by lia.
  rewrite get_map with (dA := zero) by lia.
  rewrite Hrow by lia.
  set (VqT := map (fun i => map (basis_value (ref_vertices s) i) (q s)) (range (degree + 1))).
  set (VpT := map (fun i => map (basis_slope (ref_vertices s) i) (q s)) (range (degree + 1))).
  assert (LVq : len VqT = degree + 1) by (unfold VqT; rewrite len_map; apply len_range; lia).
  assert (LVp : len VpT = degree + 1) by (unfold VpT; rewrite len_map; apply len_range; lia).
  assert (EVq : forall alpha, 0 <= alpha <= degree ->
                  get zero (get [] VqT alpha) j
                  = basis_value (ref_vertices s) alpha (get zero (q s) j)).
  { intros alpha Ha. unfold VqT.
    rewrite get_map with (dA := 0) by (rewrite len_range; lia).
    rewrite get_range by lia. now rewrite get_map with (dA := zero) by lia. }
  assert (EVp : forall alpha, 0 <= alpha <= degree ->
                  get zero (get [] VpT alpha) j
                  = basis_slope (ref_vertices s) alpha (get zero (q s) j)).
  { intros alpha Ha. unfold VpT.
    rewrite get_map with (dA := 0) by (rewrite len_range; lia).
    rewrite get_range by lia. now rewrite get_map with (dA := zero) by lia. }
  rewrite Lq.
  destruct (scatter_row (lo := k * degree) (c := degree + 1) (n := 2 * degree + 1)
              (N := N s) (j := j)
              (transpose (degree + 1) (transpose (2 * degree + 1) VqT)))
    as [L1 [S1 Z1]]; try (rewrite ?len_transpose; nia).
  match goal with |- context [map (map ?f) ?V] =>
    destruct (scatter_row (lo := k * degree) (c := degree + 1) (n := 2 * degree + 1)
                (N := N s) (j := j) (map (map f) V))
      as [L2 [S2 Z2]]; try (rewrite ?len_map, ?len_transpose; nia) end.
  split; [reflexivity|]. split; [reflexivity|].
  split; [exact L1|]. split; [exact L2|]. split.
  - intros alpha Ha. split.
    + rewrite S1 by lia. rewrite get_transpose_twice by lia. now apply EVq.
    + rewrite S2 by lia.
      rewrite get_map with (dA := []) by (rewrite len_transpose; lia).
      rewrite get_map with (dA := zero)
        by (rewrite len_row_transpose, len_transpose; lia).
      rewrite get_transpose_twice by lia. now rewrite EVp.
  - intros i Hi Hout. split; [apply Z1 | apply Z2]; lia.
Qed.

(** The two meshes have the lengths [fem] asks [linspace] for. *)
Lemma assembled_lengths (M : Z) (exact_function rhs_function : T -> T)
      (degree : Z) (a b : T) (s : assembly) :
  1 <= M -> 1 <= degree ->
  assembled M exact_function rhs_function degree a b s ->
  len (ref_vertices s) = degree + 1 /\ len (vertices s) = M + 1.
Proof.
  intros HM Hd [_ [Hrv [Hvs _]]].
  destruct (linspace_ok (T := T) zero one (num := degree + 1)) as [l1 [E1 L1]]; [lia|].
  destruct (linspace_ok a b (num := M + 1)) as [l2 [E2 L2]]; [lia|].
  rewrite Hrv in E1. rewrite Hvs in E2.
  injection E1 as <-. injection E2 as <-. split; assumption.
Qed.

End Entries.

(** ** The reference element over the reals *)

Section Derivatives.
Local Open Scope R_scope.
Local Unset Implicit Arguments.

Lemma derivable_pt_lim_eq (f g : R -> R) (x l : R) :
  (forall t, f t = g t) -> derivable_pt_lim f x l -> derivable_pt_lim g x l.
Proof.
  intros Hfg D eps Heps. destruct (D eps Heps) as [delta Hdelta].
  exists delta. intros h Hh Hd. rewrite <- !Hfg. now apply Hdelta.
Qed.

(** An affine map has its slope for derivative. *)
Lemma affine_derivable (c h x : R) :
  derivable_pt_lim (fun t => c + t * h) x h.
Proof.
  intros eps Heps. exists (mkposreal 1 Rlt_0_1). intros k Hk _.
  replace ((c + (x + k) * h - (c + x * h)) / k - h) with 0 by (field; exact Hk).
  rewrite Rabs_R0. exact Heps.
Qed.

Lemma factor_derivable (c k x : R) :
  derivable_pt_lim (fun t => (t - c) / k) x (1 / k).
Proof.
  intros eps Heps. exists (mkposreal 1 Rlt_0_1). intros h Hh _.
  replace (((x + h - c) / k - (x - c) / k) / h - 1 / k) with 0.
  - rewrite Rabs_R0. exact Heps.
  - unfold Rdiv. generalize (/ k). intros ik. field. exact Hh.
Qed.

Lemma prod_R_acc (l : list R) (acc : R) :
  fold_left Rmult l acc = acc * fold_left Rmult l 1.
Proof.
  revert acc. induction l as [|x l IH]; intros acc; cbn [fold_left].
  - ring.
  - rewrite (IH (acc * x)), (IH (1 * x)). ring.
Qed.

Lemma prod_R_cons (x : R) (l : list R) : prod (x :: l) = x * prod l.
Proof.
  unfold prod, one. cbn [of_int mul R_scalar fold_left]. rewrite prod_R_acc. ring.
Qed.

Lemma sum_R_scal (A : Type) (c : R) (g : A -> R) (l : list A) :
  sum (map (fun m => c * g m) l) = c * sum (map g l).
Proof.
  induction l as [|m l IH]; cbn [map].
  - unfold sum, zero. cbn [of_int R_scalar fold_left]. ring.
  - rewrite !sum_R_cons, IH. ring.
Qed.

Lemma filter_all {A : Type} (f : A -> bool) (l : list A) :
  (forall x, In x l -> f x = true) -> filter f l = l.
Proof.
  induction l as [|x l IH]; intros Hl; cbn [filter]; [reflexivity|].
  rewrite (Hl x) by now left. rewrite IH; [reflexivity|].
  intros y Hy. apply Hl. now right.
Qed.

(** The derivative of a product of linear factors over a list of indices
    without repetition: the sum, over the factors, of the factor's slope
    times the product of the other factors. *)
Lemma prod_factors_derivable (c k : Z -> R) (l : list Z) (x : R) :
  NoDup l ->
  derivable_pt_lim
    (fun t => prod (map (fun j => (t - c j) / k j) l)) x
    (sum (map (fun m =>
                 (1 / k m) *
                 prod (map (fun j => (x - c j) / k j)
                           (filter (fun j => negb (m =? j)%Z) l)))
              l)).
Proof.
  induction l as [|j0 l IH]; intros Hnd.
  - cbn [map]. unfold prod, sum, one, zero. cbn [of_int R_scalar fold_left].
    apply (derivable_pt_lim_const 1).
  - inversion Hnd as [|? ? Hnot Hnd']. subst.
    specialize (IH Hnd'). cbn [map]. rewrite sum_R_cons.
    cbn [filter]. rewrite Z.eqb_refl. cbn [negb].
    rewrite filter_all.
    2:{ intros y Hy. apply negb_true_iff, Z.eqb_neq. intros ->. contradiction. }
    rewrite (map_ext_in
               (fun m => (1 / k m) *
                         prod (map (fun j => (x - c j) / k j)
                                   (if negb (m =? j0)%Z
                                    then j0 :: filter (fun j => negb (m =? j)%Z) l
                                    else filter (fun j => negb (m =? j)%Z) l)))
               (fun m => ((x - c j0) / k j0) *
                         ((1 / k m) *
                          prod (map (fun j => (x - c j) / k j)
                                    (filter (fun j => negb (m =? j)%Z) l))))).
    2:{ intros m Hm.
        assert (Hne : (m =? j0)%Z = false)
          by (apply Z.eqb_neq; intros ->; contradiction).
        rewrite Hne. cbn [negb map]. rewrite prod_R_cons. ring. }
    rewrite sum_R_scal.
    apply derivable_pt_lim_eq
      with (f := mult_fct (fun t => (t - c j0) / k j0)
                          (fun t => prod (map (fun j => (t - c j) / k j) l))).
    + intros t. unfold mult_fct. now rewrite prod_R_cons.
    + exact (derivable_pt_lim_mult
               (fun t => (t - c j0) / k j0)
               (fun t => prod (map (fun j => (t - c j) / k j) l))
               x _ _ (factor_derivable (c j0) (k j0) x) IH).
Qed.

Lemma NoDup_range (n : Z) : NoDup (range n).
Proof.
  unfold range. apply NoDup_map_inj; [|apply seq_NoDup].
  intros x y _ _ E. lia.
Qed.

Lemma NoDup_others {T : Type} `{Scalar T} (v : list T) (i : Z) : NoDup (others v i).
Proof. unfold others. apply NoDup_filter, NoDup_range. Qed.

End Derivatives.

(** ** The meshes in exact arithmetic *)

Lemma of_int_Qc_succ (x : Z) : of_int (T := Qc) (x + 1) = (of_int x + 1)%Qc.
Proof.
  qc_ops. apply Qc_is_canon. cbn [this Q2Qc Qcplus].
  rewrite !Qred_correct, inject_Z_plus. reflexivity.
Qed.

Lemma of_int_Qc_nonneg (x : Z) : 0 <= x -> (0 <= of_int (T := Qc) x)%Qc.
Proof.
  intros Hx. qc_ops. unfold Qcle. cbn [this Q2Qc]. rewrite !Qred_correct.
  unfold Qle, inject_Z. cbn [Qnum Qden]. lia.
Qed.

(** The width of an element of a mesh on [a < b] is positive. *)
Lemma width_Qc_positive (a b : Qc) (M : Z) :
  1 <= M -> (a < b)%Qc -> (0 < (b - a) / of_int M)%Qc.
Proof.
  intros HM Hab.
  pose proof (of_int_Qc_nonzero (x := M)) as Hnz.
  pose proof (of_int_Qc_nonneg (x := M)) as Hpos.
  apply Qcnot_le_lt. intros Hle.
  apply (Qcmult_le_compat_r _ _ (of_int M)) in Hle; [|apply Hpos; lia].
  replace ((b - a) / of_int M * of_int M)%Qc with (b + - a)%Qc in Hle
    by (field; apply Hnz; lia).
  replace (0 * of_int M)%Qc with 0%Qc in Hle by ring.
  apply Qclt_minus_iff in Hab. now apply Qclt_not_le in Hab.
Qed.

(** ** Quadrature on the mesh, over the reals *)

Section MeshQuadrature.
Local Open Scope R_scope.
Local Unset Implicit Arguments.

Lemma eval_affine (c h : R) (p : list R) (t : R) :
  eval (affine c h p) t = eval p (c + t * h).
Proof.
  induction p as [|a0 p IH]; [reflexivity|].
  cbn [affine]. unfold times_affine.
  rewrite !eval_padd. cbn [eval]. rewrite !eval_pscale, IH. ring.
Qed.

Lemma length_affine (c h : R) (p : list R) : length (affine c h p) = length p.
Proof.
  induction p as [|a0 p IH]; [reflexivity|].
  cbn [affine]. unfold times_affine, pscale.
  rewrite !length_padd. cbn [length]. rewrite !length_map, IH. lia.
Qed.

(** Change of variable [x = c + h*t]: both sides are primitives of the
    same polynomial on [[0,1]], so they differ by a constant. *)
Lemma integral_affine (c h : R) (p : list R) :
  h * integral (affine c h p) 0 1 = integral p c (c + h).
Proof.
  set (g1 := fun t => h * eval (primitive (affine c h p)) t).
  set (g2 := fun t => eval (primitive p) (c + t * h)).
  set (f := fun t => h * eval (affine c h p) t).
  assert (A1 : antiderivative f g1 0 1).
  { split; [|lra]. intros x _.
    assert (D : derivable_pt_lim g1 x (f x)).
    { unfold f, g1. rewrite <- (primitive_deriv (affine c h p) x).
      apply (derivable_pt_lim_scal (eval (primitive (affine c h p))) h x).
      apply eval_derivable. }
    exists (exist _ _ D). reflexivity. }
  assert (A2 : antiderivative f g2 0 1).
  { split; [|lra]. intros x _.
    assert (D : derivable_pt_lim g2 x (f x)).
    { unfold f, g2. rewrite eval_affine.
      replace (h * eval p (c + x * h))
        with (eval_deriv (primitive p) (c + x * h) * h)
        by (rewrite primitive_deriv; ring).
      apply (derivable_pt_lim_comp (fun t => c + t * h) (eval (primitive p))).
      - apply affine_derivable.
      - apply eval_derivable. }
    exists (exist _ _ D). reflexivity. }
  destruct (antiderivative_Ucte _ _ _ _ _ A1 A2) as [k Hk].
  unfold integral.
  replace (eval (primitive p) (c + h)) with (g2 1) by (unfold g2; f_equal; ring).
  replace (eval (primitive p) c) with (g2 0) by (unfold g2; f_equal; ring).
  assert (E1 := Hk 1). assert (E0 := Hk 0). unfold g1 in E1, E0.
  rewrite <- (Rplus_0_r (g2 1)), <- (Rplus_0_r (g2 0)).
  replace (h * (eval (primitive (affine c h p)) 1 - eval (primitive (affine c h p)) 0))
    with (h * eval (primitive (affine c h p)) 1 - h * eval (primitive (affine c h p)) 0)
    by ring.
  rewrite E1 by lra. rewrite E0 by lra. ring.
Qed.

Lemma sum_R_nil : sum (T := R) [] = 0.
Proof. reflexivity. Qed.

Lemma sum_R_app (l1 l2 : list R) : sum (l1 ++ l2) = sum l1 + sum l2.
Proof.
  induction l1 as [|x l1 IH]; cbn [app].
  - rewrite sum_R_nil. ring.
  - rewrite !sum_R_cons, IH. ring.
Qed.

Lemma combine_app_eq {A B : Type} (l1 l2 : list A) (m1 m2 : list B) :
  length l1 = length m1 ->
  combine (l1 ++ l2) (m1 ++ m2) = combine l1 m1 ++ combine l2 m2.
Proof.
  revert m1. induction l1 as [|x l1 IH]; intros [|y m1] Hlen;
    cbn [length] in Hlen; try discriminate; cbn [app combine]; [reflexivity|].
  rewrite IH by lia. reflexivity.
Qed.

Lemma quadrature_app (x1 x2 w1 w2 p : list R) :
  length x1 = length w1 ->
  quadrature (x1 ++ x2) (w1 ++ w2) p = quadrature x1 w1 p + quadrature x2 w2 p.
Proof.
  intros Hlen. unfold quadrature.
  rewrite combine_app_eq by exact Hlen. rewrite map_app. apply sum_R_app.
Qed.

(** A rule made of blocks, one an element, sums the rules of the blocks. *)
Lemma quadrature_concat (fX fW : Z -> list R) (ks : list Z) (p : list R) :
  (forall k, length (fX k) = length (fW k)) ->
  quadrature (concat (map fX ks)) (concat (map fW ks)) p
  = sum (map (fun k => quadrature (fX k) (fW k) p) ks).
Proof.
  intros Hlen. induction ks as [|k ks IH]; cbn [map concat].
  - reflexivity.
  - rewrite quadrature_app by apply Hlen. rewrite sum_R_cons, IH. reflexivity.
Qed.

(** The rule of the element [[c, c + h]]: lines 157-158. *)
Lemma quadrature_affine (c h : R) (x w p : list R) :
  quadrature (map (fun t => add c (mul t h)) x) (map (fun wj => mul h wj) w) p
  = h * quadrature x w (affine c h p).
Proof.
  unfold quadrature. revert w. induction x as [|t x IH]; intros [|wj w];
    cbn [map combine]; rewrite ?sum_R_nil; try ring.
  rewrite !sum_R_cons, IH, eval_affine. cbn [add mul R_scalar]. ring.
Qed.

Lemma telescope (g : Z -> R) (m : nat) :
  sum (map (fun k => g (k + 1)%Z - g k) (range (Z.of_nat m))) = g (Z.of_nat m) - g 0%Z.
Proof.
  induction m as [|m IH].
  - change (range (Z.of_nat 0)) with (@nil Z). cbn [map Z.of_nat].
    rewrite sum_R_nil. ring.
  - replace (Z.of_nat (S m)) with (Z.of_nat m + 1)%Z by lia.
    rewrite range_succ by lia. rewrite map_app, sum_R_app, IH. cbn [map].
    rewrite sum_R_cons, sum_R_nil. ring.
Qed.

(** The samples of [linspace] over the reals. *)
Lemma linspace_R (a b : R) (num : Z) :
  (2 <= num)%Z ->
  exists l, linspace a b num = Ok l /\ len l = num /\
            forall i, (0 <= i < num)%Z ->
                      get zero l i = a + IZR i * ((b - a) / IZR (num - 1)).
Proof.
  intros Hnum.
  destruct (linspace_ok a b (num := num)) as [l [El Ll]]; [lia|].
  exists l. split; [exact El|]. split; [exact Ll|].
  intros i Hi. unfold linspace in El.
  destruct (Z.ltb_spec num 0); [lia|].
  destruct (Z.ltb_spec 0 (num - 1)); [|lia].
  destruct (Z.ltb_spec 1 num); [|lia].
  injection El as <-.
  assert (Hnz : IZR (num - 1) <> 0) by (apply not_0_IZR; lia).
  destruct (Z.eq_dec i (num - 1)) as [->|Hne].
  - transitivity b.
    + apply get_set_eq. destruct (Req_dec_T _ _); rewrite !len_map, len_range; lia.
    + field. exact Hnz.
  - rewrite get_set_neq by lia.
    destruct (Req_dec_T _ _);
      rewrite get_map with (dA := zero) by (rewrite !len_map, len_range; lia);
      rewrite get_map with (dA := zero) by (rewrite !len_map, len_range; lia);
      rewrite get_map with (dA := 0%Z) by (rewrite len_range; lia);
      rewrite get_range by lia; cbn [of_int add sub mul div R_scalar];
      field; exact Hnz.
Qed.

End MeshQuadrature.

(** ** The sparsity of the stiffness matrix *)

Section Sparsity.
Context {T : Type} `{Scalar T} `{Numpy T}.

(** [null x]: [x] is a zero; [regular y]: the product of a zero and [y]
    is a zero.  In exact arithmetic every number is regular; in binary64
    the infinities and NaN are not. *)
Variables null regular : T -> Prop.
Hypothesis null_zero : null zero.
Hypothesis null_mul_l : forall x y, null x -> regular y -> null (mul x y).
Hypothesis null_mul_r : forall x y, regular x -> null y -> null (mul x y).
Hypothesis null_add : forall x y, null x -> null y -> null (add x y).

Lemma sum_nulls (l : list T) : (forall x, In x l -> null x) -> null (sum l).
Proof.
  unfold sum. generalize (zero (T := T)) null_zero.
  induction l as [|x l IH]; intros acc Hacc Hl; cbn [fold_left]; [exact Hacc|].
  apply IH.
  - apply null_add; [exact Hacc | apply Hl; now left].
  - intros y Hy. apply Hl. now right.
Qed.

(** An entry of the matrix of line 172 is a zero when no element holds
    both its row index and its column index. *)
Lemma assembled_entry_null (M degree : Z) (s : assembly) (i j : Z) :
  1 <= M -> 1 <= degree -> tabulated M degree s -> N s = M * degree + 1 ->
  (forall r x, In r (Bprimeq s) -> In x r -> regular x) ->
  (forall jq, In jq (JxWq s) -> regular jq) ->
  0 <= i < N s -> 0 <= j < N s ->
  (forall k, 0 <= k < M ->
             ~ (k * degree <= i <= k * degree + degree /\
                k * degree <= j <= k * degree + degree)) ->
  null (get zero (get [] (einsum_qi_qj_q (N s) (Bprimeq s) (Bprimeq s) (JxWq s)) i) j).
Proof.
  intros HM Hd [_ [_ [_ [LB Htab]]]] HN HregB HregJ Hi Hj Hno. unfold einsum_qi_qj_q.
  rewrite get_map with (dA := 0) (dB := []) by (rewrite len_range; lia).
  rewrite get_map with (dA := 0) (dB := zero) by (rewrite len_range; lia).
  rewrite !get_range by lia.
  apply sum_nulls. intros x Hx. apply in_map_iff in Hx.
  destruct Hx as [[[r1 r2] jq] [<- Hin]].
  pose proof (in_combine_r _ _ _ _ Hin) as HinJ.
  apply in_combine_l in Hin. pose proof (combine_diag _ _ _ Hin) as <-.
  apply in_combine_l in Hin.
  destruct (In_nth _ _ [] Hin) as [n0 [Hn0 En0]].
  set (n := 2 * degree + 1) in *.
  set (row := Z.of_nat n0).
  assert (Hrow : 0 <= row < M * n) by (unfold row, len in *; lia).
  assert (Hn : 0 < n) by (unfold n; lia).
  pose proof (Z.div_mod row n ltac:(lia)) as Hdm.
  pose proof (Z.mod_pos_bound row n Hn) as Hmod.
  assert (Hk : 0 <= row / n < M).
  { split; [apply Z.div_pos; lia|]. apply Z.div_lt_upper_bound; lia. }
  destruct (Htab (row / n) (row mod n) Hk Hmod) as [_ [_ [_ [Lr [_ Hout]]]]].
  replace (row / n * n + row mod n) with row in Hout, Lr by lia.
  assert (Er : get [] (Bprimeq s) row = r1).
  { unfold get, row. rewrite Nat2Z.id. exact En0. }
  rewrite Er in Hout, Lr.
  assert (Hreg : forall c, 0 <= c < N s -> regular (get zero r1 c)).
  { intros c Hc. apply (HregB r1); [exact Hin|].
    unfold get. apply nth_In. unfold len in Lr. lia. }
  assert (Hc : (i < row / n * degree \/ row / n * degree + degree < i) \/
               (j < row / n * degree \/ row / n * degree + degree < j))
    by (specialize (Hno (row / n) Hk); lia).
  apply null_mul_l; [|now apply HregJ].
  destruct Hc as [Hc|Hc].
  - rewrite (proj2 (Hout i Hi Hc)). apply null_mul_l; [exact null_zero | now apply Hreg].
  - rewrite (proj2 (Hout j Hj Hc)). apply null_mul_r; [now apply Hreg | exact null_zero].
Qed.

End Sparsity.

(** In binary64: a zero is [0.0] or [-0.0], and the finite numbers are
    regular. *)
Lemma finite64_spec (x : float) :
  finite64 x = true ->
  (exists sg, Prim2SF x = S754_zero sg) \/ (exists sg m e, Prim2SF x = S754_finite sg m e).
Proof.
  unfold finite64. rewrite classify_spec. unfold SF64classify, SFclassify.
  destruct (Prim2SF x) as [sg|sg| |sg m e]; intros E.
  - left. now exists sg.
  - destruct sg; discriminate.
  - discriminate.
  - right. now exists sg, m, e.
Qed.

Lemma binary64_null_mul_l (x y : float) :
  (exists sg, Prim2SF x = S754_zero sg) -> finite64 y = true ->
  exists sg, Prim2SF (PrimFloat.mul x y) = S754_zero sg.
Proof.
  intros [sx Ex] Hy. rewrite mul_spec, Ex. unfold SF64mul, SFmul.
  destruct (finite64_spec y Hy) as [[sy Ey]|[sy [m [e Ey]]]]; rewrite Ey; eauto.
Qed.

Lemma binary64_null_mul_r (x y : float) :
  finite64 x = true -> (exists sg, Prim2SF y = S754_zero sg) ->
  exists sg, Prim2SF (PrimFloat.mul x y) = S754_zero sg.
Proof.
  intros Hx Hy. rewrite float_mul_comm. now apply binary64_null_mul_l.
Qed.

Lemma binary64_null_add (x y : float) :
  (exists sg, Prim2SF x = S754_zero sg) -> (exists sg, Prim2SF y = S754_zero sg) ->
  exists sg, Prim2SF (PrimFloat.add x y) = S754_zero sg.
Proof.
  intros [sx Ex] [sy Ey]. rewrite add_spec, Ex, Ey. unfold SF64add, SFadd.
  destruct sx, sy; eauto.
Qed.

Lemma binary64_null_eqb (x : float) :
  (exists sg, Prim2SF x = S754_zero sg) -> PrimFloat.eqb x (zero (T := float)) = true.
Proof.
  intros [sx Ex]. rewrite eqb_spec, Ex. destruct sx; reflexivity.
Qed.


(** ** Binary64: order, and differences that vanish *)

(** The lemmas below read the kernel's specification of binary64
    ([SpecFloat]): a finite number is a mantissa of at most 53 binary
    digits and an exponent of at least -1074, and the result of a
    subtraction is the exact difference, rounded. *)

Lemma digits2_pos_bounds (m : positive) :
  2 ^ (Zpos (digits2_pos m) - 1) <= Zpos m < 2 ^ Zpos (digits2_pos m).
Proof.
  induction m as [m IH|m IH|]; cbn [digits2_pos].
  - rewrite Pos2Z.inj_succ.
    replace (Z.succ (Zpos (digits2_pos m)) - 1) with (Z.succ (Zpos (digits2_pos m) - 1)) by lia.
    rewrite !Z.pow_succ_r by lia. lia.
  - rewrite Pos2Z.inj_succ.
    replace (Z.succ (Zpos (digits2_pos m)) - 1) with (Z.succ (Zpos (digits2_pos m) - 1)) by lia.
    rewrite !Z.pow_succ_r by lia. lia.
  - cbn. lia.
Qed.

Lemma iter_xO_value (p a : positive) : Zpos (Pos.iter xO a p) = Zpos a * 2 ^ Zpos p.
Proof.
  induction p as [|p IH] using Pos.peano_ind.
  - cbn. lia.
  - rewrite Pos.iter_succ, Pos2Z.inj_succ, Z.pow_succ_r by lia.
    rewrite Pos2Z.inj_xO, IH. lia.
Qed.

Lemma shl_align_value (m : positive) (e e' : Z) :
  e' <= e -> Zpos (fst (shl_align m e e')) = Zpos m * 2 ^ (e - e').
Proof.
  intros He. unfold shl_align.
  destruct (e' - e) as [|d|d] eqn:Ed; cbn [fst].
  - replace (e - e') with 0 by lia. cbn. lia.
  - lia.
  - rewrite iter_xO_value. f_equal. f_equal. lia.
Qed.

Lemma shr_1_value (mrs : shr_record) :
  0 <= shr_m mrs -> shr_m (shr_1 mrs) = shr_m mrs / 2.
Proof.
  destruct mrs as [m r s]. cbn [shr_m]. intros Hm.
  destruct m as [|p|p]; [reflexivity| |lia].
  destruct p as [p|p|]; cbn [shr_1 shr_m].
  - rewrite Pos2Z.inj_xI. apply Z.div_unique with (r := 1); lia.
  - rewrite Pos2Z.inj_xO. apply Z.div_unique with (r := 0); lia.
  - reflexivity.
Qed.

Lemma iter_shr_1_value (p : positive) (mrs : shr_record) :
  0 <= shr_m mrs -> shr_m (SpecFloat.iter_pos shr_1 p mrs) = shr_m mrs / 2 ^ Zpos p.
Proof.
  revert mrs. induction p as [p IH|p IH|]; intros mrs Hm; cbn [SpecFloat.iter_pos].
  - assert (H1 : 0 <= shr_m (shr_1 mrs)) by (rewrite shr_1_value by lia; apply Z.div_pos; lia).
    assert (H2 : 0 <= shr_m (SpecFloat.iter_pos shr_1 p (shr_1 mrs)))
      by (rewrite IH by lia; apply Z.div_pos; [lia | apply Z.pow_pos_nonneg; lia]).
    rewrite IH, IH, shr_1_value by lia.
    rewrite !Z.div_div by (try lia; apply Z.pow_pos_nonneg; lia).
    f_equal. change 2 with (2 ^ 1) at 1. rewrite <- !Z.pow_add_r by lia. f_equal. lia.
  - assert (H2 : 0 <= shr_m (SpecFloat.iter_pos shr_1 p mrs))
      by (rewrite IH by lia; apply Z.div_pos; [lia | apply Z.pow_pos_nonneg; lia]).
    rewrite IH, IH by lia.
    rewrite !Z.div_div by (try lia; apply Z.pow_pos_nonneg; lia).
    f_equal. rewrite <- Z.pow_add_r by lia. f_equal. lia.
  - rewrite shr_1_value by lia. reflexivity.
Qed.

Lemma fexp_binary64 (e : Z) : fexp prec emax e = Z.max (e - 53) (-1074).
Proof. reflexivity. Qed.

Lemma shr_fexp_positive (m e : Z) (l : location) :
  0 < m -> -1074 <= e ->
  0 < shr_m (fst (shr_fexp prec emax m e l)) /\ -1074 <= snd (shr_fexp prec emax m e l).
Proof.
  intros Hm He. unfold shr_fexp, shr.
  destruct m as [|p|p]; try lia. cbn [Zdigits2].
  pose proof (digits2_pos_bounds p) as [Hlo Hhi].
  set (d := Zpos (digits2_pos p)) in *.
  assert (Hd : 1 <= d) by (unfold d; lia).
  assert (Hl : shr_m (shr_record_of_loc (Zpos p) l) = Zpos p)
    by (destruct l as [|[]]; reflexivity).
  rewrite fexp_binary64.
  destruct (Z.max (d + e - 53) (-1074) - e) as [|n|n] eqn:En; cbn [fst snd].
  - rewrite Hl. lia.
  - split; [|lia].
    rewrite iter_shr_1_value by (rewrite Hl; lia). rewrite Hl.
    assert (Hn : Zpos n <= d - 1) by lia.
    assert (2 ^ Zpos n <= Zpos p).
    { apply Z.le_trans with (2 ^ (d - 1)); [apply Z.pow_le_mono_r; lia | exact Hlo]. }
    apply Z.div_str_pos. split; [apply Z.pow_pos_nonneg; lia | assumption].
  - rewrite Hl. lia.
Qed.

Lemma binary_round_aux_regular (sx : bool) (m e : Z) (l : location) (sg : bool) :
  0 < m -> -1074 <= e -> binary_round_aux prec emax sx m e l <> S754_zero sg.
Proof.
  intros Hm He. unfold binary_round_aux.
  pose proof (@shr_fexp_positive _ _ l Hm He) as [P1 P2].
  destruct (shr_fexp prec emax m e l) as [mrs' e']. cbn [fst snd] in P1, P2.
  set (m1 := round_nearest_even (shr_m mrs') (loc_of_shr_record mrs')).
  assert (Hm1 : 0 < m1).
  { unfold m1, round_nearest_even.
    destruct (loc_of_shr_record mrs') as [|[]]; try lia. destruct (Z.even _); lia. }
  pose proof (@shr_fexp_positive _ _ loc_Exact Hm1 P2) as [P3 _].
  destruct (shr_fexp prec emax m1 e' loc_Exact) as [mrs'' e'']. cbn [fst] in P3.
  destruct (shr_m mrs''); try lia. destruct (Z.leb _ _); discriminate.
Qed.

Lemma binary_normalize_regular (m e : Z) (sz sg : bool) :
  m <> 0 -> -1074 <= e -> binary_normalize prec emax m e sz <> S754_zero sg.
Proof.
  intros Hm He. unfold binary_normalize, binary_round.
  destruct m as [|p|p]; [lia| |];
    (destruct (shl_align p e (fexp prec emax (Zpos (digits2_pos p) + e))) as [mz ez] eqn:Es;
     apply binary_round_aux_regular; [lia|];
     unfold shl_align in Es; rewrite fexp_binary64 in Es;
     destruct (Z.max (Zpos (digits2_pos p) + e - 53) (-1074) - e) eqn:Ed;
     injection Es as <- <-; lia).
Qed.

(** A finite binary64 number has at most 53 digits, exactly 53 above
    the smallest exponent. *)
Lemma valid_finite (s : bool) (m : positive) (e : Z) :
  valid_binary (S754_finite s m e) = true ->
  -1074 <= e /\ Zpos m < 2 ^ 53 /\ (-1074 < e -> 2 ^ 52 <= Zpos m).
Proof.
  unfold SpecFloat.valid_binary, SpecFloat.bounded, SpecFloat.canonical_mantissa.
  rewrite fexp_binary64.
  intros Hv. apply andb_prop in Hv. destruct Hv as [Hv _]. apply Z.eqb_eq in Hv.
  pose proof (digits2_pos_bounds m) as [Hlo Hhi].
  split; [lia|]. split.
  - apply Z.lt_le_trans with (2 ^ Zpos (digits2_pos m)); [exact Hhi|].
    apply Z.pow_le_mono_r; lia.
  - intros He. replace (Zpos (digits2_pos m)) with 53 in Hlo by lia. exact Hlo.
Qed.

Lemma units_exponent_lt (m1 m2 : positive) (e1 e2 : Z) (s1 s2 : bool) :
  valid_binary (S754_finite s1 m1 e1) = true ->
  valid_binary (S754_finite s2 m2 e2) = true ->
  e1 < e2 -> Zpos m1 * 2 ^ (e1 + 1074) < Zpos m2 * 2 ^ (e2 + 1074).
Proof.
  intros V1 V2 He.
  apply valid_finite in V1. apply valid_finite in V2.
  destruct V1 as [A1 [B1 _]]. destruct V2 as [A2 [_ L2]]. specialize (L2 ltac:(lia)).
  replace (e2 + 1074) with ((e2 - e1) + (e1 + 1074)) by lia.
  rewrite (Z.pow_add_r 2 (e2 - e1) (e1 + 1074)) by lia.
  assert (HP : 0 < 2 ^ (e1 + 1074)) by (apply Z.pow_pos_nonneg; lia).
  assert (HQ : 2 ^ 1 <= 2 ^ (e2 - e1)) by (apply Z.pow_le_mono_r; lia).
  change (2 ^ 1) with 2 in HQ. change (2 ^ 53) with 9007199254740992 in B1.
  change (2 ^ 52) with 4503599627370496 in L2.
  set (P := 2 ^ (e1 + 1074)) in *. set (Q := 2 ^ (e2 - e1)) in *.
  assert (9007199254740992 <= Zpos m2 * Q) by nia.
  nia.
Qed.

Lemma SFcompare_units (x y : spec_float) :
  valid_binary x = true -> valid_binary y = true ->
  binary64_finite x -> binary64_finite y ->
  SFcompare x y = Some (units x ?= units y).
Proof.
  intros Vx Vy Fx Fy.
  destruct x as [sx|sx| |sx mx ex]; try contradiction;
    destruct y as [sy|sy| |sy my ey]; try contradiction; cbn [SFcompare units].
  - reflexivity.
  - pose proof (@valid_finite _ _ _ Vy) as [Ay _].
    assert (0 < Zpos my * 2 ^ (ey + 1074))
      by (apply Z.mul_pos_pos; [lia | apply Z.pow_pos_nonneg; lia]).
    f_equal. symmetry. destruct sy; cbn [cond_Zopp]; [apply Z.compare_gt_iff | apply Z.compare_lt_iff]; lia.
  - pose proof (@valid_finite _ _ _ Vx) as [Ax _].
    assert (0 < Zpos mx * 2 ^ (ex + 1074))
      by (apply Z.mul_pos_pos; [lia | apply Z.pow_pos_nonneg; lia]).
    f_equal. symmetry. destruct sx; cbn [cond_Zopp]; [apply Z.compare_lt_iff | apply Z.compare_gt_iff]; lia.
  - pose proof (@valid_finite _ _ _ Vx) as [Ax _].
    pose proof (@valid_finite _ _ _ Vy) as [Ay _].
    assert (Px : 0 < Zpos mx * 2 ^ (ex + 1074))
      by (apply Z.mul_pos_pos; [lia | apply Z.pow_pos_nonneg; lia]).
    assert (Py : 0 < Zpos my * 2 ^ (ey + 1074))
      by (apply Z.mul_pos_pos; [lia | apply Z.pow_pos_nonneg; lia]).
    f_equal. symmetry.
    destruct sx, sy; cbn [cond_Zopp].
    + destruct (Z.compare_spec ex ey) as [E|E|E].
      * subst ey. change (Pos.compare_cont Eq mx my) with (Zpos mx ?= Zpos my).
        rewrite Z.compare_opp.
        rewrite <- (Zmult_compare_compat_r (Zpos my) (Zpos mx))
          by (apply Z.lt_gt, Z.pow_pos_nonneg; lia).
        apply Z.compare_antisym.
      * pose proof (@units_exponent_lt _ _ _ _ _ _ Vx Vy E). apply Z.compare_gt_iff. lia.
      * pose proof (@units_exponent_lt _ _ _ _ _ _ Vy Vx E). apply Z.compare_lt_iff. lia.
    + apply Z.compare_lt_iff. lia.
    + apply Z.compare_gt_iff. lia.
    + destruct (Z.compare_spec ex ey) as [E|E|E].
      * subst ey. change (Pos.compare_cont Eq mx my) with (Zpos mx ?= Zpos my).
        symmetry. apply Zmult_compare_compat_r. apply Z.lt_gt, Z.pow_pos_nonneg; lia.
      * pose proof (@units_exponent_lt _ _ _ _ _ _ Vx Vy E). apply Z.compare_lt_iff. lia.
      * pose proof (@units_exponent_lt _ _ _ _ _ _ Vy Vx E). apply Z.compare_gt_iff. lia.
Qed.

Lemma SFeqb_units (x y : spec_float) :
  valid_binary x = true -> valid_binary y = true ->
  binary64_finite x -> binary64_finite y ->
  SFeqb x y = (units x =? units y).
Proof.
  intros Vx Vy Fx Fy. unfold SFeqb. rewrite SFcompare_units by assumption.
  rewrite Z.eqb_compare. destruct (units x ?= units y); reflexivity.
Qed.

Lemma SFltb_units (x y : spec_float) :
  valid_binary x = true -> valid_binary y = true ->
  binary64_finite x -> binary64_finite y ->
  SFltb x y = (units x <? units y).
Proof.
  intros Vx Vy Fx Fy. unfold SFltb. rewrite SFcompare_units by assumption.
  unfold Z.ltb. destruct (units x ?= units y); reflexivity.
Qed.

Lemma SFeqb_null (z : spec_float) :
  SFeqb z (S754_zero false) = match z with S754_zero _ => true | _ => false end.
Proof. destruct z as [s|s| |s m e]; try reflexivity; destruct s; reflexivity. Qed.

(** The difference of two finite numbers is a zero exactly when they
    are equal: binary64 has the subnormal numbers. *)
Lemma SFsub_null (x y : spec_float) :
  valid_binary x = true -> valid_binary y = true ->
  binary64_finite x -> binary64_finite y ->
  SFeqb (SF64sub x y) (S754_zero false) = SFeqb x y.
Proof.
  intros Vx Vy Fx Fy. rewrite SFeqb_null, (@SFeqb_units _ _ Vx Vy Fx Fy).
  destruct x as [sx|sx| |sx mx ex]; try contradiction;
    destruct y as [sy|sy| |sy my ey]; try contradiction;
    unfold SF64sub; cbn [SFsub units].
  - destruct sx, sy; reflexivity.
  - pose proof (@valid_finite _ _ _ Vy) as [Ay _].
    assert (0 < Zpos my * 2 ^ (ey + 1074))
      by (apply Z.mul_pos_pos; [lia | apply Z.pow_pos_nonneg; lia]).
    symmetry. apply Z.eqb_neq. destruct sy; cbn [cond_Zopp]; lia.
  - pose proof (@valid_finite _ _ _ Vx) as [Ax _].
    assert (0 < Zpos mx * 2 ^ (ex + 1074))
      by (apply Z.mul_pos_pos; [lia | apply Z.pow_pos_nonneg; lia]).
    symmetry. apply Z.eqb_neq. destruct sx; cbn [cond_Zopp]; lia.
  - pose proof (@valid_finite _ _ _ Vx) as [Ax _].
    pose proof (@valid_finite _ _ _ Vy) as [Ay _].
    cbv zeta.
    set (ez := Z.min ex ey).
    set (zd := cond_Zopp sx (Zpos (fst (shl_align mx ex ez)))
               - cond_Zopp sy (Zpos (fst (shl_align my ey ez)))).
    assert (Hez : -1074 <= ez) by (unfold ez; lia).
    assert (HP : 0 < 2 ^ (ez + 1074)) by (apply Z.pow_pos_nonneg; lia).
    assert (Hzd : zd * 2 ^ (ez + 1074)
                  = cond_Zopp sx (Zpos mx * 2 ^ (ex + 1074))
                    - cond_Zopp sy (Zpos my * 2 ^ (ey + 1074))).
    { unfold zd. rewrite !shl_align_value by (unfold ez; lia).
      replace (ex + 1074) with ((ex - ez) + (ez + 1074)) by lia.
      replace (ey + 1074) with ((ey - ez) + (ez + 1074)) by lia.
      rewrite (Z.pow_add_r 2 (ex - ez) (ez + 1074)) by (unfold ez; lia).
      rewrite (Z.pow_add_r 2 (ey - ez) (ez + 1074)) by (unfold ez; lia).
      destruct sx, sy; cbn [cond_Zopp]; ring. }
    destruct (Z.eq_dec zd 0) as [E0|N0].
    + rewrite E0. cbn [binary_normalize]. symmetry. apply Z.eqb_eq.
      rewrite E0 in Hzd. lia.
    + assert (Hne : cond_Zopp sx (Zpos mx * 2 ^ (ex + 1074))
                    <> cond_Zopp sy (Zpos my * 2 ^ (ey + 1074))) by nia.
      apply Z.eqb_neq in Hne. rewrite Hne.
      destruct (binary_normalize prec emax zd ez false) as [sg| | |] eqn:En; try reflexivity.
      exfalso. exact (@binary_normalize_regular zd ez false sg N0 Hez En).
Qed.

Lemma finite64_binary64_finite (x : float) :
  finite64 x = true -> binary64_finite (Prim2SF x).
Proof.
  intros Hx. destruct (finite64_spec x Hx) as [[sg E]|[sg [m [e E]]]]; rewrite E; exact I.
Qed.

(** In binary64, [x - y == 0] exactly when [x == y], for finite [x] and
    [y]. *)
Lemma binary64_sub_null (x y : float) :
  finite64 x = true -> finite64 y = true ->
  PrimFloat.eqb (PrimFloat.sub x y) (zero (T := float)) = PrimFloat.eqb x y.
Proof.
  intros Hx Hy. rewrite !eqb_spec, sub_spec.
  change (Prim2SF (zero (T := float))) with (S754_zero false).
  apply SFsub_null; auto using Prim2SF_valid, finite64_binary64_finite.
Qed.

Lemma binary64_eqb_units (x y : float) :
  finite64 x = true -> finite64 y = true ->
  PrimFloat.eqb x y = (units (Prim2SF x) =? units (Prim2SF y)).
Proof.
  intros Hx Hy. rewrite eqb_spec.
  apply SFeqb_units; auto using Prim2SF_valid, finite64_binary64_finite.
Qed.

Lemma binary64_ltb_units (x y : float) :
  finite64 x = true -> finite64 y = true ->
  PrimFloat.ltb x y = (units (Prim2SF x) <? units (Prim2SF y)).
Proof.
  intros Hx Hy. rewrite ltb_spec.
  apply SFltb_units; auto using Prim2SF_valid, finite64_binary64_finite.
Qed.

(** [x == x] fails for NaN only. *)
Lemma binary64_eqb_refl (x : float) : PrimFloat.eqb x x = negb (nan64 x).
Proof.
  unfold nan64. rewrite eqb_spec, classify_spec.
  unfold SF64classify, SFclassify, SFeqb, SFcompare.
  destruct (Prim2SF x) as [s|s| |s m e];
    [destruct s; reflexivity | destruct s; reflexivity | reflexivity |].
  destruct s; rewrite Z.compare_refl;
    change (Pos.compare_cont Eq m m) with (Pos.compare m m); rewrite Pos.compare_refl;
    destruct (Z.eqb _ _); reflexivity.
Qed.

(** A strictly increasing list of finite numbers: the differences of
    its entries are not zero. *)
Lemma increasing_units (l : list float) (i j : nat) :
  forallb finite64 l = true -> increasing l = true ->
  (i < j < length l)%nat ->
  units (Prim2SF (nth i l (zero (T := float)))) < units (Prim2SF (nth j l (zero (T := float)))).
Proof.
  revert i j. induction l as [|x l IH]; intros i j Hf Hinc Hij; [cbn in Hij; lia|].
  cbn [forallb] in Hf. apply andb_prop in Hf. destruct Hf as [Hx Hf].
  assert (Hstep : forall k, (k < length l)%nat ->
                            units (Prim2SF x) < units (Prim2SF (nth k l (zero (T := float))))).
  { destruct l as [|y l']; [intros k Hk; cbn in Hk; lia|].
    cbn [increasing] in Hinc. apply andb_prop in Hinc. destruct Hinc as [Hxy Hinc].
    pose proof Hf as Hf'. cbn [forallb] in Hf'. apply andb_prop in Hf'. destruct Hf' as [Hy _].
    rewrite (@binary64_ltb_units x y Hx Hy) in Hxy. apply Z.ltb_lt in Hxy.
    intros [|k] Hk; [exact Hxy|].
    apply Z.lt_trans with (units (Prim2SF y)); [exact Hxy|].
    apply (IH 0%nat (S k) Hf Hinc). cbn [length] in *. lia. }
  assert (Hinc' : increasing l = true).
  { destruct l as [|y l']; [reflexivity|].
    cbn [increasing] in Hinc. apply andb_prop in Hinc. tauto. }
  destruct i as [|i]; destruct j as [|j]; try lia; cbn [nth].
  - apply Hstep. cbn [length] in Hij. lia.
  - apply IH; auto. cbn [length] in Hij. lia.
Qed.

Lemma increasing_denominators (l : list float) (i j : Z) :
  forallb finite64 l = true -> increasing l = true ->
  0 <= i < len l -> 0 <= j < len l -> i <> j ->
  PrimFloat.eqb (PrimFloat.sub (get zero l i) (get zero l j)) (zero (T := float)) = false.
Proof.
  intros Hf Hinc Hi Hj Hne. unfold len in *.
  assert (Hfin : forall k, 0 <= k < Z.of_nat (length l) -> finite64 (get zero l k) = true).
  { intros k Hk. rewrite forallb_forall in Hf. apply Hf. unfold get. apply nth_In. lia. }
  rewrite binary64_sub_null by (apply Hfin; lia).
  rewrite binary64_eqb_units by (apply Hfin; lia).
  apply Z.eqb_neq. unfold get.
  destruct (Z.lt_ge_cases i j) as [Hlt|Hge].
  - pose proof (@increasing_units l (Z.to_nat i) (Z.to_nat j) Hf Hinc ltac:(lia)). lia.
  - pose proof (@increasing_units l (Z.to_nat j) (Z.to_nat i) Hf Hinc ltac:(lia)). lia.
Qed.


(** ** The sign of the weights, in exact arithmetic *)

Lemma Qc_mul_nonneg (x y : Qc) : (0 <= x)%Qc -> (0 <= y)%Qc -> (0 <= x * y)%Qc.
Proof.
  intros Hx Hy. replace 0%Qc with (0 * y)%Qc by ring.
  now apply Qcmult_le_compat_r.
Qed.

Lemma Qc_square_nonneg (x : Qc) : (0 <= x * x)%Qc.
Proof.
  destruct (Qclt_le_dec x 0) as [Hneg|Hpos].
  - replace (x * x)%Qc with ((- x) * (- x))%Qc by ring.
    assert (Hx : (0 <= - x)%Qc).
    { apply Qclt_le_weak in Hneg. apply Qcopp_le_compat in Hneg.
      now replace (- 0)%Qc with 0%Qc in Hneg by ring. }
    now apply Qc_mul_nonneg.
  - now apply Qc_mul_nonneg.
Qed.

Lemma of_int_Qc_positive (x : Z) : 1 <= x -> (0 < of_int (T := Qc) x)%Qc.
Proof.
  intros Hx.
  destruct (Qcle_lt_or_eq 0%Qc (of_int x)) as [Hlt|Heq].
  - apply of_int_Qc_nonneg. lia.
  - exact Hlt.
  - exfalso. apply (of_int_Qc_nonzero (x := x)); [lia | now symmetry].
Qed.

(** The width of an element of a mesh on [a <= b] is not negative. *)
Lemma width_Qc_nonneg (a b : Qc) (M : Z) :
  1 <= M -> (a <= b)%Qc -> (0 <= (b - a) / of_int M)%Qc.
Proof.
  intros HM Hab.
  pose proof (of_int_Qc_nonzero (x := M)) as Hnz.
  apply Qcnot_lt_le. intros Hlt.
  apply (Qcmult_lt_compat_r _ _ (of_int M)) in Hlt; [|apply of_int_Qc_positive; lia].
  replace ((b - a) / of_int M * of_int M)%Qc with (b + - a)%Qc in Hlt
    by (field; apply Hnz; lia).
  replace (0 * of_int M)%Qc with 0%Qc in Hlt by ring.
  apply Qcle_minus_iff in Hab. now apply Qcle_not_lt in Hab.
Qed.

(** The width of every element of the mesh of [fem]. *)
Lemma mesh_step_Qc (a b : Qc) (M : Z) (vs : list Qc) (k : Z) :
  1 <= M -> linspace a b (M + 1) = Ok vs -> 0 <= k < M ->
  (get zero vs (k + 1) - get zero vs k)%Qc = ((b - a) / of_int M)%Qc.
Proof.
  intros HM Evs Hk.
  destruct (@linspace_Qc a b (M + 1)) as [vs' [Evs' [_ Gvs]]]; [lia|].
  rewrite Evs in Evs'. injection Evs' as <-.
  replace (M + 1 - 1) with M in Gvs by lia.
  rewrite !Gvs by lia. rewrite of_int_Qc_succ. field.
  apply of_int_Qc_nonzero. lia.
Qed.

(** A sum of squares with weights that are not negative is not negative:
    the quantity under the square root of line 184. *)
Lemma einsum_q_q_squares_nonneg (v J : list Qc) :
  (forall jq, In jq J -> (0 <= jq)%Qc) ->
  (0 <= einsum_q_q (map (fun x => mul x x) v) J)%Qc.
Proof.
  unfold einsum_q_q. revert J. induction v as [|x v IH]; intros [|jq J] HJ;
    cbn [map combine]; try apply Qcle_refl.
  rewrite sum_Qc_cons. replace 0%Qc with (0 + 0)%Qc by ring.
  apply Qcplus_le_compat.
  - cbn [mul Qc_scalar]. apply Qc_mul_nonneg; [apply Qc_square_nonneg|].
    apply HJ. now left.
  - apply IH. intros y Hy. apply HJ. now right.
Qed.

(** ** The integrals of the basis functions, over the reals *)

Section ElementIntegrals.
Local Open Scope R_scope.
Local Unset Implicit Arguments.

Lemma eval_times_affine (c h : R) (r : list R) (t : R) :
  eval (times_affine c h r) t = (c + h * t) * eval r t.
Proof.
  unfold times_affine. rewrite eval_padd. cbn [eval]. rewrite !eval_pscale. ring.
Qed.

Lemma length_times_affine (c h : R) (r : list R) :
  length (times_affine c h r) = S (length r).
Proof.
  unfold times_affine, pscale. rewrite length_padd. cbn [length].
  rewrite !length_map. lia.
Qed.

Lemma eval_pmul (a b : list R) (t : R) : eval (pmul a b) t = eval a t * eval b t.
Proof.
  induction a as [|x a IH]; cbn [pmul eval]; [ring|].
  rewrite eval_padd. cbn [eval]. rewrite eval_pscale, IH. ring.
Qed.

Lemma length_pmul (a b : list R) : (length (pmul a b) <= length a + length b)%nat.
Proof.
  induction a as [|x a IH]; cbn [pmul length]; [lia|].
  rewrite length_padd. unfold pscale. rewrite length_map. cbn [length]. lia.
Qed.

Lemma eval_pderiv_from (k : R) (p : list R) (x : R) :
  eval (pderiv_from k p) x = k * eval p x + x * eval_deriv p x.
Proof.
  revert k. induction p as [|c p IH]; intros k; cbn [pderiv_from eval eval_deriv]; [ring|].
  rewrite IH. ring.
Qed.

Lemma eval_pderiv (p : list R) (x : R) : eval (pderiv p) x = eval_deriv p x.
Proof.
  destruct p as [|c p]; [reflexivity|].
  cbn [pderiv eval_deriv]. rewrite eval_pderiv_from. ring.
Qed.

Lemma length_pderiv_from (k : R) (p : list R) : length (pderiv_from k p) = length p.
Proof.
  revert k. induction p as [|c p IH]; intros k; cbn [pderiv_from length]; [reflexivity|].
  now rewrite IH.
Qed.

Lemma length_pderiv (p : list R) : (length (pderiv p) <= length p)%nat.
Proof.
  destruct p as [|c p]; [reflexivity|].
  cbn [pderiv length]. rewrite length_pderiv_from. lia.
Qed.

(** [basis_poly] holds the coefficients of the function of
    [lagrange_basis]. *)
Lemma eval_basis_poly (q : list R) (i : Z) (x : R) :
  eval (basis_poly q i) x = basis_value q i x.
Proof.
  unfold basis_poly, basis_value. induction (others q i) as [|j l IH].
  - cbn [fold_right map eval]. unfold prod, one. cbn [of_int R_scalar fold_left]. ring.
  - cbn [fold_right map]. rewrite eval_times_affine, IH, prod_R_cons.
    cbn [of_int sub div R_scalar zero]. unfold zero. cbn [of_int R_scalar].
    unfold Rdiv. ring.
Qed.

Lemma length_pmul_sharp (a b : list R) :
  (length (pmul a b) <= Nat.max (length a) (length a + length b - 1))%nat.
Proof.
  induction a as [|x a IH]; cbn [pmul length]; [lia|].
  rewrite length_padd. unfold pscale. rewrite length_map. cbn [length]. lia.
Qed.

(** All the indices but one. *)
Lemma length_others_upto {T : Type} `{Scalar T} (i : Z) (m : nat) :
  length (filter (fun j => negb (i =? j)%Z) (range (Z.of_nat m)))
  = if (0 <=? i)%Z && (i <? Z.of_nat m)%Z then (m - 1)%nat else m.
Proof.
  induction m as [|m IH].
  - change (range (Z.of_nat 0)) with (@nil Z). cbn [filter length].
    destruct ((0 <=? i)%Z && (i <? Z.of_nat 0)%Z); reflexivity.
  - replace (Z.of_nat (S m)) with (Z.of_nat m + 1)%Z by lia.
    rewrite range_succ by lia. rewrite filter_app, length_app, IH.
    cbn [filter].
    destruct (Z.leb_spec 0 i); destruct (Z.ltb_spec i (Z.of_nat m));
      destruct (Z.ltb_spec i (Z.of_nat m + 1)); destruct (Z.eqb_spec i (Z.of_nat m));
      cbn [andb negb length]; lia.
Qed.

Lemma length_others {T : Type} `{Scalar T} (q : list T) (i : Z) :
  (0 <= i < len q)%Z -> S (length (others q i)) = length q.
Proof.
  intros Hi. unfold others, len in *.
  rewrite length_others_upto.
  destruct (Z.leb_spec 0 i); destruct (Z.ltb_spec i (Z.of_nat (length q)));
    cbn [andb]; lia.
Qed.

Lemma length_basis_poly (q : list R) (i : Z) :
  (0 <= i < len q)%Z -> length (basis_poly q i) = length q.
Proof.
  intros Hi.
  assert (E : length (basis_poly q i) = S (length (others q i))).
  { unfold basis_poly. induction (others q i) as [|j l IH]; cbn [fold_right length];
      [reflexivity|].
    now rewrite length_times_affine, IH. }
  rewrite E. now apply length_others.
Qed.

(** The derivative of [basis_poly] is the function of
    [lagrange_basis_derivative]. *)
Lemma eval_pderiv_basis_poly (q : list R) (i : Z) (x : R) :
  eval (pderiv (basis_poly q i)) x = basis_slope q i x.
Proof.
  rewrite eval_pderiv.
  apply (uniqueness_limite (eval (basis_poly q i)) x).
  - apply eval_derivable.
  - apply derivable_pt_lim_eq with (f := basis_value q i).
    + intros t. symmetry. apply eval_basis_poly.
    + unfold basis_value, basis_slope, one. cbn [of_int sub mul div R_scalar].
      apply (prod_factors_derivable (fun j => get zero q j)
                                    (fun j => get zero q i - get zero q j)
                                    (others q i) x).
      apply NoDup_others.
Qed.

(** A list is the list of its entries. *)
Lemma list_as_range {A : Type} (d : A) (l : list A) :
  l = map (get d l) (range (len l)).
Proof.
  apply nth_ext with (d := d) (d' := d).
  - rewrite length_map, range_length. unfold len. lia.
  - intros n Hn.
    transitivity (get d l (Z.of_nat n)); [unfold get; now rewrite Nat2Z.id|].
    transitivity (get d (map (get d l) (range (len l))) (Z.of_nat n));
      [|unfold get at 1; now rewrite Nat2Z.id].
    rewrite get_map with (dA := 0%Z) by (rewrite len_range; unfold len; lia).
    rewrite get_range by (unfold len; lia). reflexivity.
Qed.

Lemma combine_map_same {A B C : Type} (f : A -> B) (g : A -> C) (l : list A) :
  combine (map f l) (map g l) = map (fun x => (f x, g x)) l.
Proof. induction l as [|x l IH]; cbn [map combine]; [reflexivity | now rewrite IH]. Qed.

(** A rule as a sum over the indices of its nodes. *)
Lemma quadrature_index (n : Z) (x w p : list R) :
  len x = n -> len w = n ->
  quadrature x w p
  = sum (map (fun j => get 0 w j * eval p (get 0 x j)) (range n)).
Proof.
  intros Lx Lw. unfold quadrature.
  rewrite (list_as_range 0 x) at 1. rewrite (list_as_range 0 w) at 1.
  rewrite Lx, Lw, combine_map_same, map_map. reflexivity.
Qed.

Lemma range_app (a : Z) (b : nat) :
  (0 <= a)%Z ->
  range (a + Z.of_nat b) = range a ++ map (fun j => (a + j)%Z) (range (Z.of_nat b)).
Proof.
  intros Ha. induction b as [|b IH].
  - change (range (Z.of_nat 0)) with (@nil Z). cbn [map Z.of_nat].
    rewrite app_nil_r. f_equal. lia.
  - replace (Z.of_nat (S b)) with (Z.of_nat b + 1)%Z by lia.
    rewrite Z.add_assoc. rewrite !range_succ by lia.
    rewrite IH, map_app, app_assoc. reflexivity.
Qed.

(** A sum over [M] blocks of [n] rows, block by block. *)
Lemma sum_range_blocks (phi : Z -> R) (n : Z) (m : nat) :
  (0 <= n)%Z ->
  sum (map phi (range (Z.of_nat m * n)))
  = sum (map (fun k => sum (map (fun j => phi (k * n + j)%Z) (range n)))
             (range (Z.of_nat m))).
Proof.
  intros Hn. induction m as [|m IH].
  - reflexivity.
  - replace (Z.of_nat (S m)) with (Z.of_nat m + 1)%Z by lia.
    rewrite (@range_succ (Z.of_nat m)) by lia.
    replace ((Z.of_nat m + 1) * n)%Z with (Z.of_nat m * n + Z.of_nat (Z.to_nat n))%Z by lia.
    rewrite range_app by nia. rewrite !map_app, !sum_R_app, IH.
    replace (Z.of_nat (Z.to_nat n)) with n by lia.
    cbn [map]. rewrite sum_R_cons, sum_R_nil, map_map. ring.
Qed.

Lemma combine3_index {A B C : Type} (dA : A) (dB : B) (dC : C)
      (l1 : list A) (l2 : list B) (l3 : list C) (L : Z) :
  len l1 = L -> len l2 = L -> len l3 = L ->
  combine (combine l1 l2) l3
  = map (fun r => (get dA l1 r, get dB l2 r, get dC l3 r)) (range L).
Proof.
  intros L1 L2 L3.
  transitivity (combine (combine (map (get dA l1) (range L)) (map (get dB l2) (range L)))
                        (map (get dC l3) (range L))).
  - f_equal; [f_equal|].
    + rewrite <- L1. apply list_as_range.
    + rewrite <- L2. apply list_as_range.
    + rewrite <- L3. apply list_as_range.
  - rewrite combine_map_same.
    rewrite (combine_map_same (fun r => (get dA l1 r, get dB l2 r)) (get dC l3)).
    reflexivity.
Qed.

(** The entries of the arrays of lines 172 and 177 as sums over the
    elements and over the quadrature points of an element. *)
Lemma einsum_qi_qj_q_blocks (N0 M n : Z) (B : list (list R)) (J : list R) (i j : Z) :
  (0 <= M)%Z -> (0 <= n)%Z -> len B = (M * n)%Z -> len J = (M * n)%Z ->
  (0 <= i < N0)%Z -> (0 <= j < N0)%Z ->
  get 0 (get [] (einsum_qi_qj_q N0 B B J) i) j
  = sum (map (fun k =>
                sum (map (fun jq =>
                            get 0 (get [] B (k * n + jq)) i
                            * get 0 (get [] B (k * n + jq)) j
                            * get 0 J (k * n + jq))
                         (range n)))
             (range M)).
Proof.
  intros HM Hn LB LJ Hi Hj. unfold einsum_qi_qj_q.
  rewrite get_map with (dA := 0%Z) (dB := []) by (rewrite len_range; lia).
  rewrite get_map with (dA := 0%Z) (dB := 0) by (rewrite len_range; lia).
  rewrite !get_range by lia.
  rewrite (combine3_index [] [] 0 B B J (M * n)) by assumption.
  rewrite map_map.
  replace M with (Z.of_nat (Z.to_nat M)) by lia.
  rewrite (sum_range_blocks
             (fun r => get 0 (get [] B r) i * get 0 (get [] B r) j * get 0 J r) n)
    by exact Hn.
  reflexivity.
Qed.

Lemma einsum_qi_q_q_blocks (N0 M n : Z) (B : list (list R)) (g J : list R) (i : Z) :
  (0 <= M)%Z -> (0 <= n)%Z ->
  len B = (M * n)%Z -> len g = (M * n)%Z -> len J = (M * n)%Z ->
  (0 <= i < N0)%Z ->
  get 0 (einsum_qi_q_q N0 B g J) i
  = sum (map (fun k =>
                sum (map (fun jq =>
                            get 0 (get [] B (k * n + jq)) i
                            * get 0 g (k * n + jq)
                            * get 0 J (k * n + jq))
                         (range n)))
             (range M)).
Proof.
  intros HM Hn LB Lg LJ Hi. unfold einsum_qi_q_q.
  rewrite get_map with (dA := 0%Z) (dB := 0) by (rewrite len_range; lia).
  rewrite !get_range by lia.
  rewrite (combine3_index [] 0 0 B g J (M * n)) by assumption.
  rewrite map_map.
  replace M with (Z.of_nat (Z.to_nat M)) by lia.
  rewrite (sum_range_blocks
             (fun r => get 0 (get [] B r) i * get 0 g r * get 0 J r) n)
    by exact Hn.
  reflexivity.
Qed.

Lemma sum_R_zeros {A : Type} (f : A -> R) (l : list A) :
  (forall x, In x l -> f x = 0) -> sum (map f l) = 0.
Proof.
  induction l as [|x l IH]; intros Hl; cbn [map]; [apply sum_R_nil|].
  rewrite sum_R_cons, (Hl x) by now left. rewrite IH; [ring|].
  intros y Hy. apply Hl. now right.
Qed.

Lemma on_element_spec (d k i : Z) :
  on_element d k i = true <-> (k * d <= i <= k * d + d)%Z.
Proof. unfold on_element. rewrite andb_true_iff, !Z.leb_le. tauto. Qed.

Section OnAnAssembly.
Variables (M d : Z) (s : assembly (T := R)).
Hypothesis HM : (1 <= M)%Z.
Hypothesis Hd : (1 <= d)%Z.
Hypothesis Htab : tabulated M d s.
Hypothesis HN : N s = (M * d + 1)%Z.
Hypothesis Lrv : len (ref_vertices s) = (d + 1)%Z.
Hypothesis Lq : len (q s) = (2 * d + 1)%Z.
Hypothesis Lw : len (w s) = (2 * d + 1)%Z.
Hypothesis Hrule : exact_rule 0 1 (4 * d + 1) (q s) (w s).

(** The contribution of the element [k] to the entry [(i, j)] of the
    matrix of line 172. *)
Lemma element_stiffness_sum (k i j : Z) :
  (0 <= k < M)%Z -> (0 <= i < N s)%Z -> (0 <= j < N s)%Z ->
  get 0 (vertices s) (k + 1) - get 0 (vertices s) k <> 0 ->
  sum (map (fun jq =>
              get 0 (get [] (Bprimeq s) (k * (2 * d + 1) + jq)) i
              * get 0 (get [] (Bprimeq s) (k * (2 * d + 1) + jq)) j
              * get 0 (JxWq s) (k * (2 * d + 1) + jq))
           (range (2 * d + 1)))
  = if on_element d k i && on_element d k j
    then integral (pmul (pderiv (basis_poly (ref_vertices s) (i - k * d)))
                        (pderiv (basis_poly (ref_vertices s) (j - k * d)))) 0 1
         / (get 0 (vertices s) (k + 1) - get 0 (vertices s) k)
    else 0.
Proof.
  intros Hk Hi Hj HJ.
  destruct Htab as [_ [_ [_ [_ Hent]]]].
  destruct (on_element d k i && on_element d k j) eqn:Eon.
  - apply andb_true_iff in Eon. destruct Eon as [Ei Ej].
    apply on_element_spec in Ei. apply on_element_spec in Ej.
    set (rv := ref_vertices s).
    set (J := get 0 (vertices s) (k + 1) - get 0 (vertices s) k) in *.
    rewrite (map_ext_in _ (fun jq =>
               / J * (get 0 (w s) jq
                      * eval (pmul (pderiv (basis_poly rv (i - k * d)))
                                   (pderiv (basis_poly rv (j - k * d))))
                             (get 0 (q s) jq)))).
    + rewrite sum_R_scal.
      rewrite <- (quadrature_index (2 * d + 1) (q s) (w s)) by assumption.
      rewrite Hrule; [field; exact HJ|]. unfold len.
      pose proof (length_pmul_sharp (pderiv (basis_poly rv (i - k * d)))
                                    (pderiv (basis_poly rv (j - k * d)))).
      pose proof (length_pderiv (basis_poly rv (i - k * d))).
      pose proof (length_pderiv (basis_poly rv (j - k * d))).
      rewrite !length_basis_poly in * by (unfold rv; lia).
      unfold rv, len in *. lia.
    + intros jq Hjq. apply In_range in Hjq.
      destruct (Hent k jq Hk Hjq) as [_ [EJ [_ [_ [Hin _]]]]].
      pose proof (proj2 (Hin (i - k * d)%Z ltac:(lia))) as Ea.
      pose proof (proj2 (Hin (j - k * d)%Z ltac:(lia))) as Eb.
      replace (k * d + (i - k * d))%Z with i in Ea by lia.
      replace (k * d + (j - k * d))%Z with j in Eb by lia.
      unfold zero in *. cbn [of_int mul sub div R_scalar] in *.
      rewrite Ea, Eb, EJ. rewrite eval_pmul, !eval_pderiv_basis_poly.
      unfold rv, J in *. field. exact HJ.
  - apply sum_R_zeros. intros jq Hjq. apply In_range in Hjq.
    destruct (Hent k jq Hk Hjq) as [_ [_ [_ [_ [_ Hout]]]]].
    unfold zero in *. cbn [of_int R_scalar] in *.
    apply andb_false_iff in Eon. destruct Eon as [Eon|Eon].
    + assert (Hc : (i < k * d \/ k * d + d < i)%Z).
      { unfold on_element in Eon. apply andb_false_iff in Eon.
        rewrite !Z.leb_gt in Eon. lia. }
      rewrite (proj2 (Hout i Hi Hc)). ring.
    + assert (Hc : (j < k * d \/ k * d + d < j)%Z).
      { unfold on_element in Eon. apply andb_false_iff in Eon.
        rewrite !Z.leb_gt in Eon. lia. }
      rewrite (proj2 (Hout j Hj Hc)). ring.
Qed.

(** The contribution of the element [k] to the entry [i] of the vector
    of line 177, for a polynomial right-hand side. *)
Lemma element_rhs_sum (g : list R) (k i : Z) :
  (len g <= 3 * d + 2)%Z ->
  (0 <= k < M)%Z -> (0 <= i < N s)%Z ->
  sum (map (fun jq =>
              get 0 (get [] (Bq s) (k * (2 * d + 1) + jq)) i
              * get 0 (map (eval g) (Xq s)) (k * (2 * d + 1) + jq)
              * get 0 (JxWq s) (k * (2 * d + 1) + jq))
           (range (2 * d + 1)))
  = if on_element d k i
    then (get 0 (vertices s) (k + 1) - get 0 (vertices s) k)
         * integral (pmul (basis_poly (ref_vertices s) (i - k * d))
                          (affine (get 0 (vertices s) k)
                                  (get 0 (vertices s) (k + 1) - get 0 (vertices s) k)
                                  g)) 0 1
    else 0.
Proof.
  intros Hg Hk Hi.
  destruct Htab as [LX [_ [_ [_ Hent]]]].
  assert (Emap : forall jq, (0 <= jq < 2 * d + 1)%Z ->
                   get 0 (map (eval g) (Xq s)) (k * (2 * d + 1) + jq)
                   = eval g (get 0 (Xq s) (k * (2 * d + 1) + jq))).
  { intros jq Hjq. apply get_map. rewrite LX. nia. }
  destruct (on_element d k i) eqn:Eon.
  - apply on_element_spec in Eon.
    set (rv := ref_vertices s).
    set (c := get 0 (vertices s) k).
    set (J := get 0 (vertices s) (k + 1) - get 0 (vertices s) k).
    rewrite (map_ext_in _ (fun jq =>
               J * (get 0 (w s) jq
                    * eval (pmul (basis_poly rv (i - k * d)) (affine c J g))
                           (get 0 (q s) jq)))).
    + rewrite sum_R_scal. f_equal.
      rewrite <- (quadrature_index (2 * d + 1) (q s) (w s)) by assumption.
      apply Hrule. unfold len.
      pose proof (length_pmul_sharp (basis_poly rv (i - k * d)) (affine c J g)).
      rewrite length_affine in *.
      rewrite !length_basis_poly in * by (unfold rv; lia).
      unfold rv, c, J, len in *. lia.
    + intros jq Hjq. apply In_range in Hjq. rewrite Emap by exact Hjq.
      destruct (Hent k jq Hk Hjq) as [EX [EJ [_ [_ [Hin _]]]]].
      pose proof (proj1 (Hin (i - k * d)%Z ltac:(lia))) as Ea.
      replace (k * d + (i - k * d))%Z with i in Ea by lia.
      unfold zero in *. cbn [of_int add mul sub div R_scalar] in *.
      rewrite Ea, EX, EJ. rewrite eval_pmul, eval_basis_poly, eval_affine.
      unfold rv, c, J. ring.
  - apply sum_R_zeros. intros jq Hjq. apply In_range in Hjq.
    destruct (Hent k jq Hk Hjq) as [_ [_ [_ [_ [_ Hout]]]]].
    unfold zero in *. cbn [of_int R_scalar] in *.
    assert (Hc : (i < k * d \/ k * d + d < i)%Z).
    { unfold on_element in Eon. apply andb_false_iff in Eon.
      rewrite !Z.leb_gt in Eon. lia. }
    rewrite (proj1 (Hout i Hi Hc)). ring.
Qed.

End OnAnAssembly.

(** The width of every element of the mesh of [fem], over the reals. *)
Lemma mesh_step_R (a b : R) (M : Z) (vs : list R) (k : Z) :
  (1 <= M)%Z -> linspace a b (M + 1) = Ok vs -> (0 <= k < M)%Z ->
  get 0 vs k = a + IZR k * ((b - a) / IZR M) /\
  get 0 vs (k + 1) - get 0 vs k = (b - a) / IZR M.
Proof.
  intros HM Evs Hk.
  destruct (linspace_R a b (M + 1)) as [vs' [Evs' [_ Gvs]]]; [lia|].
  rewrite Evs in Evs'. injection Evs' as <-.
  replace (M + 1 - 1)%Z with M in Gvs by lia.
  unfold zero in Gvs. cbn [of_int R_scalar] in Gvs.
  rewrite !Gvs by lia. split; [reflexivity|]. rewrite plus_IZR. field.
  apply not_0_IZR. lia.
Qed.

Lemma width_R_nonzero (a b : R) (M : Z) :
  (1 <= M)%Z -> a <> b -> (b - a) / IZR M <> 0.
Proof.
  intros HM Hab E.
  assert (HMz : IZR M <> 0) by (apply not_0_IZR; lia).
  apply (Rmult_eq_compat_r (IZR M)) in E.
  replace ((b - a) / IZR M * IZR M) with (b - a) in E by (field; exact HMz).
  lra.
Qed.

End ElementIntegrals.

(** ** The quadratic form of the stiffness matrix, over the reals *)

Section Energy.
Local Open Scope R_scope.
Local Unset Implicit Arguments.

Lemma sum_R_scal_r (A : Type) (c : R) (g : A -> R) (l : list A) :
  sum (map (fun m => g m * c) l) = sum (map g l) * c.
Proof.
  induction l as [|m l IH]; cbn [map].
  - rewrite sum_R_nil. ring.
  - rewrite !sum_R_cons, IH. ring.
Qed.

Lemma sum_R_map_add (A : Type) (f g : A -> R) (l : list A) :
  sum (map (fun m => f m + g m) l) = sum (map f l) + sum (map g l).
Proof.
  induction l as [|m l IH]; cbn [map].
  - rewrite sum_R_nil. ring.
  - rewrite !sum_R_cons, IH. ring.
Qed.

Lemma sum_R_swap (A B : Type) (f : A -> B -> R) (l1 : list A) (l2 : list B) :
  sum (map (fun x => sum (map (fun y => f x y) l2)) l1)
  = sum (map (fun y => sum (map (fun x => f x y) l1)) l2).
Proof.
  induction l1 as [|x l1 IH]; cbn [map].
  - rewrite sum_R_nil. symmetry. apply sum_R_zeros. intros y _. apply sum_R_nil.
  - rewrite sum_R_cons, IH.
    rewrite <- sum_R_map_add. f_equal. apply map_ext. intros y.
    now rewrite sum_R_cons.
Qed.

Lemma sum_R_nonneg (A : Type) (f : A -> R) (l : list A) :
  (forall x, In x l -> 0 <= f x) -> 0 <= sum (map f l).
Proof.
  induction l as [|x l IH]; intros Hl; cbn [map].
  - rewrite sum_R_nil. lra.
  - rewrite sum_R_cons.
    assert (0 <= f x) by (apply Hl; now left).
    assert (0 <= sum (map f l)) by (apply IH; intros y Hy; apply Hl; now right).
    lra.
Qed.

Lemma combine2_index {A B : Type} (dA : A) (dB : B) (l1 : list A) (l2 : list B) (L : Z) :
  len l1 = L -> len l2 = L ->
  combine l1 l2 = map (fun r => (get dA l1 r, get dB l2 r)) (range L).
Proof.
  intros L1 L2.
  transitivity (combine (map (get dA l1) (range L)) (map (get dB l2) (range L))).
  - f_equal.
    + rewrite <- L1. apply list_as_range.
    + rewrite <- L2. apply list_as_range.
  - apply combine_map_same.
Qed.

(** The arrays of lines 172 and 184, entry by entry. *)
Lemma einsum_q_q_index (L : Z) (v J : list R) :
  len v = L -> len J = L ->
  einsum_q_q v J = sum (map (fun r => get 0 v r * get 0 J r) (range L)).
Proof.
  intros Lv LJ. unfold einsum_q_q.
  rewrite (combine2_index 0 0 v J L) by assumption.
  rewrite map_map. reflexivity.
Qed.

Lemma dot_index (n : Z) (B : list (list R)) (u : list R) (r : Z) :
  len u = n -> (0 <= r < len B)%Z -> len (get [] B r) = n ->
  get 0 (dot B u) r
  = sum (map (fun j => get 0 (get [] B r) j * get 0 u j) (range n)).
Proof.
  intros Lu Hr Lr. unfold dot.
  rewrite get_map with (dA := []) by exact Hr.
  rewrite (combine2_index 0 0 (get [] B r) u n) by assumption.
  rewrite map_map. reflexivity.
Qed.

Lemma einsum_qi_qj_q_index (N0 L : Z) (B : list (list R)) (J : list R) (i j : Z) :
  len B = L -> len J = L -> (0 <= i < N0)%Z -> (0 <= j < N0)%Z ->
  get 0 (get [] (einsum_qi_qj_q N0 B B J) i) j
  = sum (map (fun r => get 0 (get [] B r) i * get 0 (get [] B r) j * get 0 J r)
             (range L)).
Proof.
  intros LB LJ Hi Hj. unfold einsum_qi_qj_q.
  rewrite get_map with (dA := 0%Z) (dB := []) by (rewrite len_range; lia).
  rewrite get_map with (dA := 0%Z) (dB := 0) by (rewrite len_range; lia).
  rewrite !get_range by lia.
  rewrite (combine3_index [] [] 0 B B J L) by assumption.
  rewrite map_map. reflexivity.
Qed.

(** [u . (A u)] for the matrix [A] of line 172 is the weighted sum of the
    squares of [B u]. *)
Lemma einsum_energy (N0 L : Z) (B : list (list R)) (J u : list R) :
  (0 <= N0)%Z -> len B = L -> len J = L -> len u = N0 ->
  (forall r, (0 <= r < L)%Z -> len (get [] B r) = N0) ->
  energy (einsum_qi_qj_q N0 B B J) u
  = einsum_q_q (map (fun x => mul x x) (dot B u)) J.
Proof.
  intros HN LB LJ Lu Lrows.
  set (A := einsum_qi_qj_q N0 B B J).
  assert (LA : len A = N0) by (apply len_einsum_qi_qj_q; exact HN).
  assert (LAr : forall i, (0 <= i < N0)%Z -> len (get [] A i) = N0)
    by (intros i Hi; now apply len_row_einsum_qi_qj_q).
  set (t := fun i j r =>
              get 0 u i * (get 0 (get [] B r) i * get 0 (get [] B r) j * get 0 J r)
              * get 0 u j).
  transitivity (sum (map (fun i => sum (map (fun j => sum (map (fun r => t i j r)
                                                               (range L)))
                                            (range N0)))
                         (range N0))).
  - unfold energy.
    rewrite (einsum_q_q_index N0 u (dot A u))
      by (auto; unfold dot; rewrite len_map; exact LA).
    f_equal. apply map_ext_in. intros i Hi. apply In_range in Hi.
    rewrite (dot_index N0 A u i) by (auto; lia).
    rewrite <- sum_R_scal. f_equal. apply map_ext_in. intros j Hj. apply In_range in Hj.
    unfold A. rewrite (einsum_qi_qj_q_index N0 L B J i j) by assumption.
    rewrite <- sum_R_scal_r, <- sum_R_scal. f_equal. apply map_ext. intros r.
    unfold t. ring.
  - rewrite (einsum_q_q_index L (map (fun x => mul x x) (dot B u)) J)
      by (auto; unfold dot; rewrite !len_map; exact LB).
    rewrite (sum_R_swap _ _ (fun i j => sum (map (fun r => t i j r) (range L)))).
    rewrite (map_ext _ (fun j => sum (map (fun r => sum (map (fun i => t i j r)
                                                               (range N0)))
                                           (range L))))
      by (intros j; apply (sum_R_swap _ _ (fun i r => t i j r))).
    rewrite (sum_R_swap _ _ (fun j r => sum (map (fun i => t i j r) (range N0)))).
    f_equal. apply map_ext_in. intros r Hr. apply In_range in Hr.
    rewrite get_map with (dA := 0) by (unfold dot; rewrite len_map; lia).
    rewrite (dot_index N0 B u r) by (auto; lia).
    cbn [mul R_scalar].
    set (S := sum (map (fun j => get 0 (get [] B r) j * get 0 u j) (range N0))).
    transitivity (sum (map (fun j => get 0 (get [] B r) j * get 0 u j
                                     * (S * get 0 J r))
                           (range N0))); [|rewrite sum_R_scal_r; fold S; ring].
    f_equal. apply map_ext. intros j.
    transitivity (sum (map (fun i => get 0 (get [] B r) i * get 0 u i
                                     * (get 0 (get [] B r) j * get 0 u j * get 0 J r))
                           (range N0))); [|rewrite sum_R_scal_r; fold S; ring].
    f_equal. apply map_ext. intros i. unfold t. ring.
Qed.

Lemma einsum_q_q_squares_nonneg_R (v J : list R) :
  (forall jq, In jq J -> 0 <= jq) ->
  0 <= einsum_q_q (map (fun x => mul x x) v) J.
Proof.
  intros HJ. unfold einsum_q_q.
  rewrite <- (map_id (combine (map (fun x => mul x x) v) J)) at 1.
  rewrite map_map.
  apply sum_R_nonneg. intros [x jq] Hin. cbn [id].
  pose proof (in_combine_l _ _ _ _ Hin) as Hx.
  pose proof (in_combine_r _ _ _ _ Hin) as Hjq.
  apply in_map_iff in Hx. destruct Hx as [y [<- _]]. cbn [mul R_scalar].
  specialize (HJ jq Hjq). nra.
Qed.

End Energy.

(** ** The test problem and the convergence study *)

Lemma foldM_pairs {A B S : Type} (body : S -> A * B -> result S) (a : A)
      (bs : list B) (s : S) :
  foldM body (map (pair a) bs) s = foldM (fun s b => body s (a, b)) bs s.
Proof.
  revert s. induction bs as [|b bs IH]; intros s; cbn [map foldM]; [reflexivity|].
  destruct (body s (a, b)) as [s1|e]; cbn [bind]; [apply IH | reflexivity].
Qed.

(** Two nested loops are one loop over the pairs of indices, in the
    order of the rows. *)
Lemma foldM_nested {A B S : Type} (body : S -> A * B -> result S)
      (xs : list A) (bs : list B) (s : S) :
  foldM (fun s a => foldM (fun s b => body s (a, b)) bs s) xs s
  = foldM body (list_prod xs bs) s.
Proof.
  revert s. induction xs as [|a xs IH]; intros s; cbn [foldM list_prod]; [reflexivity|].
  rewrite foldM_app, foldM_pairs.
  destruct (foldM (fun s b => body s (a, b)) bs s) as [s1|e]; cbn [bind];
    [apply IH | reflexivity].
Qed.

(** A loop that stores the result of a call at each step: it fails with
    the first call that fails, and otherwise stores every result. *)
Lemma foldM_fill_raise {A S X : Type} (f : A -> result X) (upd : S -> A -> X -> S)
      (l : list A) (s : S) (e : exn) :
  foldM (fun s a => x <- f a ;; Ok (upd s a x)) l s = Raise e ->
  exists a, In a l /\ f a = Raise e.
Proof.
  revert s. induction l as [|a l IH]; intros s E; cbn [foldM] in E; [discriminate|].
  destruct (f a) as [x|e'] eqn:Ea; cbn [bind] in E.
  - destruct (IH _ E) as [a' [Hin Ea']]. exists a'. split; [now right | exact Ea'].
  - exists a. split; [now left|]. congruence.
Qed.

Lemma foldM_fill_ok {A S X : Type} (f : A -> result X) (g : A -> X)
      (upd : S -> A -> X -> S) (l : list A) (s : S) :
  (forall a, In a l -> f a = Ok (g a)) ->
  foldM (fun s a => x <- f a ;; Ok (upd s a x)) l s
  = Ok (fold_left (fun s a => upd s a (g a)) l s).
Proof.
  revert s. induction l as [|a l IH]; intros s Hl; cbn [foldM fold_left]; [reflexivity|].
  rewrite (Hl a) by now left. cbn [bind]. apply IH.
  intros a' Ha'. apply Hl. now right.
Qed.

Lemma Ms_values : Ms = [8; 16; 32; 64; 128; 256].
Proof. reflexivity. Qed.

Lemma Ms_positive (i : Z) : 0 <= i < 6 -> 8 <= get 0 Ms i.
Proof.
  intros Hi. rewrite Ms_values.
  assert (Hc : i = 0 \/ i = 1 \/ i = 2 \/ i = 3 \/ i = 4 \/ i = 5) by lia.
  destruct Hc as [-> | [-> | [-> | [-> | [-> | ->]]]]]; vm_compute; discriminate.
Qed.

Lemma degrees_positive (j : Z) : 0 <= j < 4 -> 1 <= get 0 degrees j <= 4.
Proof.
  intros Hj. unfold degrees.
  assert (Hc : j = 0 \/ j = 1 \/ j = 2 \/ j = 3) by lia.
  destruct Hc as [-> | [-> | [-> | ->]]]; vm_compute; split; discriminate.
Qed.

Section StudyLemmas.
Context {T : Type} `{Scalar T} `{Numpy T}.

(** With a valid mesh and degree, [fem] can only fail in the solver. *)
Lemma fem_raise_solver (M : Z) (exact_function rhs_function : T -> T)
      (d : Z) (a b : T) (e : exn) :
  1 <= M -> 1 <= d ->
  fem M exact_function rhs_function d a b = Raise e ->
  exists s, fem_assemble M exact_function rhs_function d a b = Ok s /\
            linalg_solve (stiffness_matrix s) (rhs s) = Raise e.
Proof.
  intros HM Hd E.
  destruct (fem_assemble_ok exact_function rhs_function a b HM Hd) as [s [Es _]].
  exists s. split; [exact Es|]. unfold fem in E. rewrite Es in E. cbn [bind] in E.
  destruct (linalg_solve (stiffness_matrix s) (rhs s)) as [u|e']; cbn [bind] in E;
    [discriminate | congruence].
Qed.

Lemma len_h : len (h (T := T)) = 6.
Proof. unfold h, len. rewrite length_map. reflexivity. Qed.

Lemma convergence_study_flat (exact_function rhs_function : T -> T) :
  convergence_study exact_function rhs_function
  = foldM (fun errors p =>
             e <- fem (get 0 Ms (fst p)) exact_function rhs_function
                      (get 0 degrees (snd p)) zero one ;;
             Ok (set2 errors (fst p) (snd p) e))
          (list_prod (range 6) (range 4))
          (zeros2 6 4).
Proof.
  unfold convergence_study. rewrite len_h.
  change (len degrees) with 4. change (len Ms) with 6.
  change (check_shape [6; 4]) with (Ok tt). cbn [bind].
  apply (foldM_nested
           (fun errors p =>
              e <- fem (get 0 Ms (fst p)) exact_function rhs_function
                       (get 0 degrees (snd p)) zero one ;;
              Ok (set2 errors (fst p) (snd p) e))).
Qed.

End StudyLemmas.

Section TestProblemLemmas.
Local Open Scope R_scope.
Local Unset Implicit Arguments.

Lemma scaled_derivable (c x : R) : derivable_pt_lim (fun t => c * t) x c.
Proof.
  apply derivable_pt_lim_eq with (f := fun t => 0 + t * c).
  - intros t. ring.
  - apply affine_derivable.
Qed.

Lemma sin_scaled_derivable (c x : R) :
  derivable_pt_lim (fun t => sin (c * t)) x (c * cos (c * x)).
Proof.
  replace (c * cos (c * x)) with (cos (c * x) * c) by ring.
  apply (derivable_pt_lim_comp (fun t => c * t) sin).
  - apply scaled_derivable.
  - apply derivable_pt_lim_sin.
Qed.

Lemma cos_scaled_derivable (c x : R) :
  derivable_pt_lim (fun t => cos (c * t)) x (- (c * sin (c * x))).
Proof.
  replace (- (c * sin (c * x))) with (- sin (c * x) * c) by ring.
  apply (derivable_pt_lim_comp (fun t => c * t) cos).
  - apply scaled_derivable.
  - apply derivable_pt_lim_cos.
Qed.

End TestProblemLemmas.

(** ** Rules with rational nodes *)

(** The nodes of the Gauss-Legendre rules are irrational, and a binary64
    number is rational: no rule made of binary64 numbers is exact to
    the degree of a Gauss-Legendre rule.  For three nodes: *)

(** No rational number has the square 3/5. *)
Lemma no_square_3_5_nat (k : nat) (n d : Z) :
  (Z.abs_nat d <= k)%nat -> d <> 0 -> 5 * (n * n) <> 3 * (d * d).
Proof.
  revert n d. induction k as [|k IH]; intros n d Hk Hd E; [lia|].
  pose proof (Z.div_mod d 5 ltac:(lia)) as Dd.
  pose proof (Z.mod_pos_bound d 5 ltac:(lia)) as Bd.
  pose proof (Z.div_mod n 5 ltac:(lia)) as Dn.
  pose proof (Z.mod_pos_bound n 5 ltac:(lia)) as Bn.
  set (d' := d / 5) in *. set (rd := d mod 5) in *.
  set (n' := n / 5) in *. set (rn := n mod 5) in *.
  assert (Hrd : rd = 0).
  { assert (Hc : rd = 0 \/ rd = 1 \/ rd = 2 \/ rd = 3 \/ rd = 4) by lia.
    destruct Hc as [H0|[H0|[H0|[H0|H0]]]]; [exact H0| | | |];
      exfalso; rewrite H0 in Dd; rewrite Dd in E;
      assert (E' : 5 * (n * n) = 75 * (d' * d') + 30 * d' * (rd) + 3 * (rd * rd))
        by (rewrite H0; lia); rewrite H0 in E'; lia. }
  rewrite Hrd in Dd.
  assert (E1 : n * n = 15 * (d' * d')) by (rewrite Dd in E; lia).
  assert (Hrn : rn = 0).
  { assert (Hc : rn = 0 \/ rn = 1 \/ rn = 2 \/ rn = 3 \/ rn = 4) by lia.
    destruct Hc as [H0|[H0|[H0|[H0|H0]]]]; [exact H0| | | |];
      exfalso; rewrite H0 in Dn; rewrite Dn in E1;
      assert (E' : 25 * (n' * n') + 10 * n' * rn + rn * rn = 15 * (d' * d'))
        by (rewrite H0; lia); rewrite H0 in E'; lia. }
  rewrite Hrn in Dn.
  apply (IH n' d').
  - lia.
  - lia.
  - rewrite Dn, Dd in E. lia.
Qed.

Lemma no_square_3_5 (r : Q) : ~ (5 * (r * r) == 3)%Q.
Proof.
  intros E. unfold Qeq in E. cbn [Qnum Qden Qmult] in E.
  rewrite Pos2Z.inj_mul in E.
  apply (@no_square_3_5_nat (Z.abs_nat (Zpos (Qden r))) (Qnum r) (Zpos (Qden r))); lia.
Qed.

Lemma no_real_square_3_5 (r : Q) : (5 * (Q2R r * Q2R r) <> 3)%R.
Proof.
  intros E. apply (@no_square_3_5 r). apply Qreals.eqR_Qeq.
  rewrite !Qreals.Q2R_mult. replace (Q2R 5) with 5%R by (unfold Q2R; cbn; lra).
  replace (Q2R 3) with 3%R by (unfold Q2R; cbn; lra). exact E.
Qed.

(** A rule with three nodes that is exact up to degree 5 on [[0,1]] has
    the nodes [1/2] and [1/2 +- sqrt(3/5)/2], in some order: they are
    not all rational. *)
Lemma no_rational_rule (q1 q2 q3 w1 w2 w3 : Q) :
  ~ exact_rule 0 1 5 (map Q2R [q1; q2; q3]) (map Q2R [w1; w2; w3]).
Proof.
  intros Hex. cbn [map] in Hex.
  set (x1 := Q2R q1) in *. set (x2 := Q2R q2) in *. set (x3 := Q2R q3) in *.
  set (e1 := (x1 + x2 + x3)%R). set (e2 := (x1 * x2 + x1 * x3 + x2 * x3)%R).
  set (e3 := (x1 * x2 * x3)%R).
  assert (Hroot : forall x, x = x1 \/ x = x2 \/ x = x3 ->
                            (x * x * x - e1 * (x * x) + e2 * x - e3 = 0)%R).
  { intros x [-> | [-> | ->]]; unfold e1, e2, e3; ring. }
  pose proof (Hex [- e3; e2; - e1; 1]%R ltac:(unfold len; cbn [length]; lia)) as H0.
  pose proof (Hex [0; - e3; e2; - e1; 1]%R ltac:(unfold len; cbn [length]; lia)) as H1.
  pose proof (Hex [0; 0; - e3; e2; - e1; 1]%R ltac:(unfold len; cbn [length]; lia)) as H2.
  unfold quadrature, integral, primitive, sum in H0, H1, H2.
  cbn [combine map fold_left eval primitive_from Z.add Pos.add Pos.succ] in H0, H1, H2.
  unfold zero in H0, H1, H2. cbn [of_int add mul R_scalar] in H0, H1, H2.
  pose proof (Hroot x1 ltac:(auto)) as R1.
  pose proof (Hroot x2 ltac:(auto)) as R2.
  pose proof (Hroot x3 ltac:(auto)) as R3.
  assert (Z1 : forall x, (- e3 + x * (e2 + x * (- e1 + x * (1 + x * 0)))
                          = x * x * x - e1 * (x * x) + e2 * x - e3)%R)
    by (intros x; ring).
  rewrite !Z1, R1, R2, R3 in H0, H1, H2.
  assert (He2 : e2 = (x1 * x2 + x1 * x3 + x2 * x3)%R) by reflexivity.
  clearbody e1 e2 e3.
  assert (E1 : e1 = (3 / 2)%R) by lra.
  assert (E2 : e2 = (3 / 5)%R) by lra.
  assert (E3 : e3 = (1 / 20)%R) by lra.
  subst e1 e3. clear H0 H1 H2 Z1 Hroot.
  assert (Hhalf : forall q, let x := Q2R q in
                            (x * x * x - 3 / 2 * (x * x) + e2 * x - 1 / 20 = 0)%R ->
                            x = (1 / 2)%R).
  { intros q x Hx. rewrite E2 in Hx.
    assert (Hprod : ((2 * x - 1) * (5 * ((2 * x - 1) * (2 * x - 1)) - 3) = 0)%R) by nra.
    apply Rmult_integral in Hprod. destruct Hprod as [Hp|Hp]; [lra|].
    exfalso. apply (@no_real_square_3_5 (2 * q - 1)%Q).
    replace (Q2R (2 * q - 1)) with (2 * x - 1)%R; [lra|].
    unfold Qminus. rewrite Qreals.Q2R_plus, Qreals.Q2R_opp, Qreals.Q2R_mult. unfold x.
    replace (Q2R 2) with 2%R by (unfold Q2R; cbn; lra).
    replace (Q2R 1) with 1%R by (unfold Q2R; cbn; lra). ring. }
  pose proof (Hhalf q1 R1) as X1. pose proof (Hhalf q2 R2) as X2.
  pose proof (Hhalf q3 R3) as X3. cbv zeta in X1, X2, X3.
  fold x1 in X1. fold x2 in X2. fold x3 in X3.
  rewrite X1, X2, X3 in He2. lra.
Qed.

(** The same for three binary64 nodes and weights, read as the real
    numbers they stand for. *)
Lemma no_binary64_rule (q1 q2 q3 w1 w2 w3 : float) :
  ~ exact_rule 0 1 5 (map binary64_real [q1; q2; q3]) (map binary64_real [w1; w2; w3]).
Proof.
  unfold binary64_real. cbn [map].
  apply (@no_rational_rule (binary64_value q1) (binary64_value q2) (binary64_value q3)
                           (binary64_value w1) (binary64_value w2) (binary64_value w3)).
Qed.

(** * The properties of the specification *)

(** C1 (degree-of-freedom table).  For every element count [M >= 1] and
    degree [d >= 1], [fem] builds the table [P] with [M] rows, where row
    [k] is [[k*d, k*d+1, ..., k*d+d]]: its entry [alpha] is [k*d + alpha].
    Hence the last entry of a row is the first entry of the next row,
    and [P.max()] is [M*d = N - 1] with [N = M*d + 1]. *)
Theorem dof_numbering {T : Type} `{Scalar T} `{Numpy T}
        (M : Z) (exact_function rhs_function : T -> T) (d : Z) (a b : T) :
  1 <= M -> 1 <= d ->
  exists s,
    fem_assemble M exact_function rhs_function d a b = Ok s /\
    N s = M * d + 1 /\
    len (P s) = M /\
    (forall k, 0 <= k < M ->
               get [] (P s) k = range2 (k * d) (k * d + d + 1) /\
               len (get [] (P s) k) = d + 1 /\
               forall alpha, 0 <= alpha <= d -> get 0 (get [] (P s) k) alpha = k * d + alpha) /\
    (forall k, 0 <= k < M - 1 -> get 0 (get [] (P s) k) d = get 0 (get [] (P s) (k + 1)) 0) /\
    array_max (P s) = Ok (M * d) /\
    M * d = N s - 1.
Proof.
  intros HM Hd.
  destruct (fem_assemble_ok exact_function rhs_function a b HM Hd)
    as [s [Es [HN [_ [_ [_ [_ [HP _]]]]]]]].
  assert (Hrow : forall k, 0 <= k < M ->
                           get [] (P s) k = range2 (k * d) (k * d + d + 1)).
  { intros k Hk. rewrite HP, numbering_rows.
    rewrite get_map with (dA := 0) by (rewrite len_range; lia).
    now rewrite get_range. }
  exists s. repeat split; auto.
  - rewrite HP, numbering_rows, len_map. apply len_range. lia.
  - rewrite Hrow by lia. rewrite len_range2; lia.
  - intros alpha Ha. rewrite Hrow by lia. apply get_range2. lia.
  - intros k Hk. rewrite !Hrow by lia. rewrite !get_range2 by lia. lia.
  - rewrite HP. apply array_max_numbering; lia.
  - lia.
Qed.

(** C1 at [M = 3], [d = 2]: the middle row is [[2, 3, 4]] and the
    maximum is 6. *)
Lemma dof_numbering_witness :
  1 <= 3 /\ 1 <= 2 /\
  exists s, fem_assemble 3 (fun x : Qc => x) (fun _ => 0%Qc) 2 0%Qc 1%Qc = Ok s /\
            get [] (P s) 1 = range2 2 5 /\
            array_max (P s) = Ok 6.
Proof.
  split; [lia|]. split; [lia|].
  destruct (@dof_numbering Qc Qc_scalar Qc_numpy 3 (fun x => x) (fun _ => 0%Qc) 2 0%Qc 1%Qc)
    as [s [Es [_ [_ [Hrows [_ [Hmax _]]]]]]]; [lia | lia |].
  exists s. split; [exact Es|]. split; [|exact Hmax].
  apply (Hrows 1). lia.
Defined.

(** The rule of [fem] over the reals, given what [leggauss] returns. *)
Lemma quadrature_exactness_real (np : Numpy R)
      (M : Z) (exact_function rhs_function : R -> R) (d : Z) (a b : R) :
  1 <= M -> 1 <= d ->
  gauss_legendre (2 * d + 1) (leggauss (2 * d + 1)) ->
  exists s,
    fem_assemble M exact_function rhs_function d a b = Ok s /\
    q s = map (fun t => ((t + 1) / 2)%R) (fst (leggauss (2 * d + 1))) /\
    w s = map (fun t => (t / 2)%R) (snd (leggauss (2 * d + 1))) /\
    len (q s) = 2 * d + 1 /\
    len (w s) = 2 * d + 1 /\
    exact_rule 0 1 (4 * d + 1) (q s) (w s).
Proof.
  intros HM Hd [Lx [Lw Hex]].
  destruct (fem_assemble_ok exact_function rhs_function a b HM Hd)
    as [s [Es [_ [_ [_ [Hq [Hw _]]]]]]].
  exists s. split; [exact Es|]. split; [exact Hq|]. split; [exact Hw|].
  split; [rewrite Hq, len_map; exact Lx|]. split; [rewrite Hw, len_map; exact Lw|].
  rewrite Hq, Hw. apply rescaled_rule_exact.
  replace (4 * d + 1) with (2 * (2 * d + 1) - 1) by lia. exact Hex.
Qed.

(** C2 (quadrature rule).  In every arithmetic, binary64 included,
    [fem] calls [leggauss] with [n = 2*degree + 1] and maps its nodes by
    [q <- (q+1)/2] and its weights by [w <- w/2].  Over the reals, given
    what [leggauss(n)] returns ([n] nodes and [n] weights of a rule on
    [[-1,1]] exact up to degree [2n - 1]), the rule [fem] uses has
    [2d + 1] nodes and integrates every polynomial of degree at most
    [4d + 1] over [[0,1]].  In binary64 it cannot: for [d = 1], whatever
    three binary64 nodes and weights the rule is made of, read as the
    real numbers they stand for ([binary64_real]), some polynomial of
    degree at most 5 is not integrated exactly (the nodes would have to
    be [1/2] and [1/2 +- sqrt(3/5)/2]). *)
Theorem quadrature_exactness :
  (forall (T : Type) (sc : Scalar T) (np : Numpy T)
          (M : Z) (exact_function rhs_function : T -> T) (d : Z) (a b : T),
      1 <= M -> 1 <= d ->
      exists s,
        fem_assemble M exact_function rhs_function d a b = Ok s /\
        q s = map (fun t => div (add t one) (of_int 2)) (fst (leggauss (2 * d + 1))) /\
        w s = map (fun t => div t (of_int 2)) (snd (leggauss (2 * d + 1)))) /\
  (forall (np : Numpy R) (M : Z) (exact_function rhs_function : R -> R) (d : Z) (a b : R),
      1 <= M -> 1 <= d ->
      gauss_legendre (2 * d + 1) (leggauss (2 * d + 1)) ->
      exists s,
        fem_assemble M exact_function rhs_function d a b = Ok s /\
        q s = map (fun t => ((t + 1) / 2)%R) (fst (leggauss (2 * d + 1))) /\
        w s = map (fun t => (t / 2)%R) (snd (leggauss (2 * d + 1))) /\
        len (q s) = 2 * d + 1 /\
        len (w s) = 2 * d + 1 /\
        exact_rule 0 1 (4 * d + 1) (q s) (w s)) /\
  (forall q1 q2 q3 w1 w2 w3 : float,
      ~ exact_rule 0 1 (4 * 1 + 1) (map binary64_real [q1; q2; q3])
                   (map binary64_real [w1; w2; w3])).
Proof.
  split; [|split].
  - intros T sc np M exact_function rhs_function d a b HM Hd.
    destruct (fem_assemble_ok exact_function rhs_function a b HM Hd)
      as [s [Es [_ [_ [_ [Hq [Hw _]]]]]]].
    exists s. split; [exact Es|]. split; [exact Hq | exact Hw].
  - exact quadrature_exactness_real.
  - exact no_binary64_rule.
Qed.

(** C2 at [d = 1], over the reals, with the three-point rule on the
    nodes [-sqrt(3/5), 0, sqrt(3/5)]. *)
Lemma quadrature_exactness_witness :
  1 <= 2 /\ 1 <= 1 /\ gauss_legendre (2 * 1 + 1) (leggauss (2 * 1 + 1)) /\
  exists s,
    fem_assemble 2 (fun x : R => x) (fun _ => 0%R) 1 0%R 1%R = Ok s /\
    len (q s) = 3 /\
    exact_rule 0 1 5 (q s) (w s).
Proof.
  split; [lia|]. split; [lia|]. split; [exact leggauss_3_exact|].
  destruct quadrature_exactness as [_ [Hreal _]].
  destruct (Hreal R_numpy 2 (fun x : R => x) (fun _ => 0%R) 1 0%R 1%R)
    as [s [Es [_ [_ [Lq [_ Hex]]]]]]; [lia | lia | exact leggauss_3_exact |].
  exists s. split; [exact Es|]. split; [exact Lq | exact Hex].
Defined.

(** C2, counterexample in binary64.  At [d = 1], with the three-point
    rule rounded to binary64, [fem] holds the nodes and weights below,
    all finite.  Read as real numbers they are not an exact rule of
    degree 5 on [[0,1]]; and computed in binary64 as
    [einsum('q,q', p(q), w)], the weighted sum of [p(x) = 6 x^5], whose
    integral over [[0,1]] is 1, is [1.0000000000000002]. *)
Lemma quadrature_inexact_binary64 :
  exists s,
    fem_assemble 2 (fun x : float => x) (fun _ => 0%float) 1 0%float 1%float = Ok s /\
    q s = [0x1.cda042f0236e0p-4%float; 0x1p-1%float; 0x1.c64bf7a1fb924p-1%float] /\
    w s = [0x1.1c71c71c71c72p-2%float; 0x1.c71c71c71c71cp-2%float;
           0x1.1c71c71c71c72p-2%float] /\
    forallb finite64 (q s ++ w s) = true /\
    ~ exact_rule 0 1 (4 * 1 + 1) (map binary64_real (q s)) (map binary64_real (w s)) /\
    einsum_q_q (map (fun x => 6 * x * x * x * x * x)%float (q s)) (w s)
    = 0x1.0000000000001p+0%float /\
    PrimFloat.eqb (einsum_q_q (map (fun x => 6 * x * x * x * x * x)%float (q s)) (w s)) 1
    = false.
Proof.
  eexists. split; [vm_compute; reflexivity|].
  split; [reflexivity|]. split; [reflexivity|]. split; [reflexivity|].
  split; [apply no_binary64_rule|]. split; vm_compute; reflexivity.
Qed.

(** The Lagrange property in exact arithmetic, for every degree. *)
Lemma lagrange_property_exact (d alpha beta : Z) :
  1 <= d -> 0 <= alpha <= d -> 0 <= beta <= d ->
  exists rv v,
    linspace (T := Qc) zero one (d + 1) = Ok rv /\
    len rv = d + 1 /\
    lagrange_basis rv alpha = Ok v /\
    v (get zero rv alpha) = one /\
    (beta <> alpha -> v (get zero rv beta) = zero) /\
    (forall (np : Numpy Qc) M exact_function rhs_function a b s,
        fem_assemble M exact_function rhs_function d a b = Ok s ->
        ref_vertices s = rv).
Proof.
  intros Hd Ha Hb.
  destruct (linspace_ok (T := Qc) zero one (num := d + 1)) as [rv [Erv Lrv]]; [lia|].
  destruct (lagrange_basis_Qc rv (alpha := alpha)) as [v [Ev [V1 V0]]].
  - lia.
  - intros j Hj Hne.
    apply (linspace_Qc_distinct (a := zero) (b := one) (num := d + 1)); try lia; auto.
    qc_ops. discriminate.
  - exists rv, v. repeat split; auto.
    + intros Hne. apply V0; lia.
    + intros np M exact_function rhs_function a b s Es.
      apply fem_assemble_inv in Es. destruct Es as [_ [_ [_ [Hrv _]]]].
      congruence.
Qed.

(** The Lagrange property in binary64, for the degrees 1 to 32, by
    evaluation of [linspace] and [lagrange_basis]. *)
Lemma lagrange_property_binary64_upto_32 (d alpha beta : Z) :
  1 <= d <= 32 -> 0 <= alpha <= d -> 0 <= beta <= d ->
  exists rv v,
    linspace (T := float) zero one (d + 1) = Ok rv /\
    lagrange_basis rv alpha = Ok v /\
    PrimFloat.eqb (v (get zero rv beta)) (if beta =? alpha then one else zero) = true.
Proof.
  intros Hd Ha Hb.
  assert (Hall : forallb lagrange_property_binary64 (range2 1 33) = true)
    by (vm_compute; reflexivity).
  rewrite forallb_forall in Hall.
  specialize (Hall d ltac:(apply In_range2; lia)).
  unfold lagrange_property_binary64 in Hall.
  destruct (linspace (T := float) zero one (d + 1)) as [rv|e]; [|discriminate].
  exists rv.
  rewrite forallb_forall in Hall.
  specialize (Hall alpha ltac:(apply In_range; lia)).
  destruct (lagrange_basis rv alpha) as [v|e]; [|discriminate].
  exists v.
  rewrite forallb_forall in Hall.
  specialize (Hall beta ltac:(apply In_range; lia)).
  split; [reflexivity|]. split; [reflexivity | exact Hall].
Qed.

(** C3 (Lagrange property).  For every degree [d >= 1] and local
    indices [alpha], [beta] in [[0,d]], the reference basis function
    [lagrange_basis(ref_vertices, alpha)], on the [d+1] equally spaced
    points [ref_vertices = linspace(0,1,d+1)] that [fem] computes on
    line 129, is 1 at [ref_vertices[alpha]] and 0 at [ref_vertices[beta]]
    for [beta <> alpha]: in exact arithmetic for every [d]; and in
    binary64, the arithmetic of the notebook, for every [d] from 1 to
    32, where the value at [ref_vertices[alpha]] is [1.0] and the value
    at the other points is [0.0] or [-0.0].  (In binary64 it does not
    hold for every [d]: see the counterexample.) *)
Theorem lagrange_property :
  (forall d alpha beta : Z,
      1 <= d -> 0 <= alpha <= d -> 0 <= beta <= d ->
      exists rv v,
        linspace (T := Qc) zero one (d + 1) = Ok rv /\
        len rv = d + 1 /\
        lagrange_basis rv alpha = Ok v /\
        v (get zero rv alpha) = one /\
        (beta <> alpha -> v (get zero rv beta) = zero) /\
        (forall (np : Numpy Qc) M exact_function rhs_function a b s,
            fem_assemble M exact_function rhs_function d a b = Ok s ->
            ref_vertices s = rv)) /\
  (forall d alpha beta : Z,
      1 <= d <= 32 -> 0 <= alpha <= d -> 0 <= beta <= d ->
      exists rv v,
        linspace (T := float) zero one (d + 1) = Ok rv /\
        lagrange_basis rv alpha = Ok v /\
        PrimFloat.eqb (v (get zero rv beta)) (if beta =? alpha then one else zero) = true).
Proof.
  split.
  - exact lagrange_property_exact.
  - exact lagrange_property_binary64_upto_32.
Qed.

(** C3 at [d = 3], [alpha = 1], [beta = 2], in exact arithmetic and in
    binary64. *)
Lemma lagrange_property_witness :
  (exists rv v,
      linspace (T := Qc) zero one (3 + 1) = Ok rv /\
      lagrange_basis rv 1 = Ok v /\
      v (get zero rv 1) = 1%Qc /\
      v (get zero rv 2) = 0%Qc) /\
  (exists rv v,
      linspace (T := float) zero one (3 + 1) = Ok rv /\
      lagrange_basis rv 1 = Ok v /\
      PrimFloat.eqb (v (get zero rv 2)) 0 = true).
Proof.
  destruct lagrange_property as [Hexact Hfloat]. split.
  - destruct (Hexact 3 1 2) as [rv [v [Erv [_ [Ev [V1 [V0 _]]]]]]]; try lia.
    exists rv, v. split; [exact Erv|]. split; [exact Ev|]. split; [exact V1|].
    apply V0. lia.
  - destruct (Hfloat 3 1 2) as [rv [v [Erv [Ev V]]]]; try lia.
    exists rv, v. split; [exact Erv|]. split; [exact Ev|]. exact V.
Defined.

(** C3, counterexample in binary64.  At [d = 700] the 701 reference
    points are finite and strictly increasing, but the basis function
    [alpha = 240] is NaN at the last point, [beta = 700], where the
    property asks for 0.  The product of line 91 is accumulated factor
    after factor: after the 363 factors [j = 0, ..., 363], [j <> 240],
    it has left the range of binary64 and is [-inf]; the factor
    [j = 700] is a zero, and the product of an infinity and a zero is
    NaN. *)
Lemma lagrange_property_overflow_binary64 :
  exists rv v,
    linspace (T := float) zero one (700 + 1) = Ok rv /\
    len rv = 701 /\
    forallb finite64 rv = true /\
    increasing rv = true /\
    lagrange_basis rv 240 = Ok v /\
    nan64 (v (get zero rv 700)) = true /\
    PrimFloat.eqb (v (get zero rv 700)) zero = false /\
    prod (map (fun j => div (sub (get zero rv 700) (get zero rv j))
                            (sub (get zero rv 240) (get zero rv j)))
              (firstn 363 (others rv 240))) = neg_infinity /\
    PrimFloat.eqb (div (sub (get zero rv 700) (get zero rv 700))
                       (sub (get zero rv 240) (get zero rv 700))) zero = true.
Proof.
  assert (E : exists rv, linspace (T := float) zero one (700 + 1) = Ok rv /\
                         len rv = 701 /\
                         forallb finite64 rv = true /\
                         increasing rv = true /\
                         (v <- lagrange_basis rv 240 ;; Ok (v (get zero rv 700))) = Ok nan /\
                         prod (map (fun j => div (sub (get zero rv 700) (get zero rv j))
                                                 (sub (get zero rv 240) (get zero rv j)))
                                   (firstn 363 (others rv 240))) = neg_infinity /\
                         PrimFloat.eqb (div (sub (get zero rv 700) (get zero rv 700))
                                            (sub (get zero rv 240) (get zero rv 700))) zero
                         = true).
  { eexists. split; [vm_compute; reflexivity|]. vm_compute. repeat split. }
  destruct E as [rv [Erv [Lrv [Hf [Hi [Ev [Hinf Hz]]]]]]].
  destruct (lagrange_basis rv 240) as [v|e] eqn:Ev'; [|discriminate].
  cbn [bind] in Ev.
  assert (Ev2 : v (get zero rv 700) = nan) by congruence.
  exists rv, v. repeat split; auto; rewrite Ev2; reflexivity.
Qed.

(** X1 (C3 in binary64, by evaluation): for the degrees 1 to 4, every
    reference basis function is exactly 1.0 at its own support point and
    0.0 (or -0.0) at the others. *)
Example lagrange_property_binary64_1_to_4 :
  forallb lagrange_property_binary64 [1; 2; 3; 4] = true.
Proof. vm_compute. reflexivity. Qed.

(** C4 (boundary rows).  After the assembly, row 0 of the stiffness
    matrix is the first row of the identity and row [N-1] is its last
    row, the right-hand side holds [exact(a)] at 0 and [exact(b)] at
    [N-1], and every other row of the matrix and entry of the right-hand
    side is the one assembled by [einsum]. *)
Theorem dirichlet_rows {T : Type} `{Scalar T} `{Numpy T}
        (M : Z) (exact_function rhs_function : T -> T) (d : Z) (a b : T) :
  1 <= M -> 1 <= d ->
  exists s,
    fem_assemble M exact_function rhs_function d a b = Ok s /\
    N s = M * d + 1 /\
    len (stiffness_matrix s) = N s /\
    (forall j, 0 <= j < N s ->
               get zero (get [] (stiffness_matrix s) 0) j
               = if j =? 0 then one else zero) /\
    (forall j, 0 <= j < N s ->
               get zero (get [] (stiffness_matrix s) (N s - 1)) j
               = if j =? N s - 1 then one else zero) /\
    get zero (rhs s) 0 = exact_function a /\
    get zero (rhs s) (N s - 1) = exact_function b /\
    (forall i, 0 < i < N s - 1 ->
               get [] (stiffness_matrix s) i = get [] (assembled_matrix s) i /\
               get zero (rhs s) i = get zero (assembled_rhs s) i) /\
    assembled_matrix s = einsum_qi_qj_q (N s) (Bprimeq s) (Bprimeq s) (JxWq s) /\
    assembled_rhs s = einsum_qi_q_q (N s) (Bq s) (map rhs_function (Xq s)) (JxWq s).
Proof.
  intros HM Hd.
  destruct (fem_assemble_ok exact_function rhs_function a b HM Hd)
    as [s [Es [HN [_ [_ [_ [_ [_ [HA [HS [HF HR]]]]]]]]]]].
  assert (Hn : 2 <= N s) by nia.
  assert (LA : len (assembled_matrix s) = N s)
    by (rewrite HA; apply len_einsum_qi_qj_q; lia).
  assert (LF : len (assembled_rhs s) = N s)
    by (rewrite HF; apply len_einsum_qi_q_q; lia).
  assert (LR : forall i, 0 <= i < N s -> len (get [] (assembled_matrix s) i) = N s)
    by (intros i Hi; rewrite HA; now apply len_row_einsum_qi_qj_q).
  destruct (boundary_rows_spec (assembled_matrix s) LA Hn) as [L [R0 [Rn Ri]]].
  destruct (boundary_values_spec (assembled_rhs s) (exact_function a) (exact_function b) LF Hn)
    as [F0 [Fn Fi]].
  exists s. rewrite HS, HR.
  split; [exact Es|]. split; [exact HN|]. split; [exact L|].
  split; [intros j Hj; rewrite R0; apply get_unit_row; rewrite LR; lia|].
  split; [intros j Hj; rewrite Rn, LR by lia; apply get_unit_row; rewrite LR; lia|].
  split; [exact F0|]. split; [exact Fn|].
  split; [intros i Hi; split; [now apply Ri | now apply Fi]|].
  split; [exact HA | exact HF].
Qed.

(** C4 at [M = 2], [d = 1] ([N = 3]). *)
Lemma dirichlet_rows_witness :
  1 <= 2 /\ 1 <= 1 /\
  exists s, fem_assemble 2 (fun x : Qc => x) (fun _ => 0%Qc) 1 0%Qc 1%Qc = Ok s /\
            get zero (get [] (stiffness_matrix s) 0) 0 = 1%Qc /\
            get zero (get [] (stiffness_matrix s) 0) 1 = 0%Qc /\
            get zero (rhs s) 2 = 1%Qc /\
            get [] (stiffness_matrix s) 1 = get [] (assembled_matrix s) 1.
Proof.
  split; [lia|]. split; [lia|].
  destruct (@dirichlet_rows Qc Qc_scalar Qc_numpy 2 (fun x => x) (fun _ => 0%Qc) 1 0%Qc 1%Qc)
    as [s [Es [HN [_ [R0 [_ [_ [Fn [Hin _]]]]]]]]]; [lia | lia |].
  exists s. split; [exact Es|]. rewrite HN in *.
  split; [apply (R0 0); lia|]. split; [apply (R0 1); lia|].
  split; [exact Fn|]. apply (Hin 1). lia.
Defined.

(** C5, as the code has it (mesh arguments).  [fem] has no check of the
    mesh.  With [M < 1] (and a degree of at least 1) it fails all the
    same, on the [ValueError] numpy raises for the malformed shapes:
    [linspace] with a negative number of samples ([M < -1]), [zeros] with
    a negative dimension ([M = -1]), [max] of the empty table ([M = 0]).
    The endpoints are not compared: with [M >= 1] the system is
    assembled and handed to the solver for every [a] and [b]. *)
Theorem mesh_not_validated {T : Type} `{Scalar T} `{Numpy T}
        (M : Z) (exact_function rhs_function : T -> T) (d : Z) (a b : T) :
  1 <= d ->
  (M < 1 ->
   exists v, fem_assemble M exact_function rhs_function d a b = Raise (ValueError v) /\
             fem M exact_function rhs_function d a b = Raise (ValueError v) /\
             v = if M <? -1 then negative_sample_count
                 else if M =? -1 then negative_dimension
                      else max_of_empty_array) /\
  (1 <= M ->
   exists s, fem_assemble M exact_function rhs_function d a b = Ok s /\
             fem M exact_function rhs_function d a b
             = (u <- linalg_solve (stiffness_matrix s) (rhs s) ;;
                Ok (sqrt (einsum_q_q
                            (map (fun x => mul x x)
                                 (map (fun '(x, y) => sub x y)
                                      (combine (dot (Bq s) u)
                                               (map exact_function (Xq s)))))
                            (JxWq s))))).
Proof.
  intros Hd. split.
  - intros HM. eexists. split; [apply fem_assemble_small_M; lia|].
    split; [|reflexivity].
    unfold fem. rewrite fem_assemble_small_M by lia. reflexivity.
  - intros HM.
    destruct (fem_assemble_ok exact_function rhs_function a b HM Hd) as [s [Es _]].
    exists s. split; [exact Es|]. unfold fem. rewrite Es. reflexivity.
Qed.

(** C5 as the code has it, at [M = 0] and on the reversed interval
    [a = 1], [b = 0]. *)
Lemma mesh_not_validated_witness :
  1 <= 1 /\
  (exists v, fem 0 (fun x : Qc => x) (fun _ => 0%Qc) 1 0%Qc 1%Qc = Raise (ValueError v)) /\
  (exists s, fem_assemble 1 (fun x : Qc => x) (fun _ => 0%Qc) 1 1%Qc 0%Qc = Ok s).
Proof.
  split; [lia|]. split.
  - destruct (@mesh_not_validated Qc Qc_scalar Qc_numpy 0 (fun x => x) (fun _ => 0%Qc)
                                  1 0%Qc 1%Qc) as [Hlow _]; [lia|].
    destruct Hlow as [v [_ [Ev _]]]; [lia|]. exists v. exact Ev.
  - destruct (@mesh_not_validated Qc Qc_scalar Qc_numpy 1 (fun x => x) (fun _ => 0%Qc)
                                  1 1%Qc 0%Qc) as [_ Hhigh]; [lia|].
    destruct Hhigh as [s [Es _]]; [lia|]. exists s. exact Es.
Defined.

(** C5, counterexample.  With [a = 1 >= b = 0] (one linear element)
    nothing is raised: the system is assembled and solved, and [fem]
    returns a value.  For [exact(x) = x] without load it is the error 0;
    in binary64, for [exact(x) = x*x] with the load [-2], it is the
    square root of a negative sum, a NaN. *)
Lemma reversed_interval_accepted :
  (0 <= 1)%Qc /\
  is_ok (fem_assemble 1 (fun x : Qc => x) (fun _ => 0%Qc) 1 1%Qc 0%Qc) = true /\
  fem 1 (fun x : Qc => x) (fun _ => 0%Qc) 1 1%Qc 0%Qc = Ok 0%Qc /\
  PrimFloat.leb 0 1 = true /\
  fem 1 (fun x : float => x * x)%float (fun _ => (-2)%float) 1 1%float 0%float = Ok nan.
Proof.
  split; [discriminate|]. split; [vm_compute; reflexivity|].
  split; [vm_compute; reflexivity|]. split; vm_compute; reflexivity.
Qed.




(** C7 (symmetry away from the boundary rows).  Where the product of two
    scalars does not depend on their order (the rationals, the reals,
    and binary64: [float_mul_comm]), the final stiffness matrix satisfies
    [A[i,j] = A[j,i]] for all [i], [j] outside [{0, N-1}]. *)
Theorem stiffness_symmetric {T : Type} `{Scalar T} `{Numpy T}
        (M : Z) (exact_function rhs_function : T -> T) (d : Z) (a b : T) :
  (forall x y : T, mul x y = mul y x) ->
  1 <= M -> 1 <= d ->
  exists s,
    fem_assemble M exact_function rhs_function d a b = Ok s /\
    N s = M * d + 1 /\
    forall i j, 0 < i < N s - 1 -> 0 < j < N s - 1 ->
                get zero (get [] (stiffness_matrix s) i) j
                = get zero (get [] (stiffness_matrix s) j) i.
Proof.
  intros Hcomm HM Hd.
  destruct (fem_assemble_ok exact_function rhs_function a b HM Hd)
    as [s [Es [HN [_ [_ [_ [_ [_ [HA [HS _]]]]]]]]]].
  exists s. split; [exact Es|]. split; [exact HN|].
  intros i j Hi Hj. rewrite HS.
  apply interior_symmetric with (n := N s) (B := Bprimeq s) (J := JxWq s); auto. nia.
Qed.

(** C7 at [M = 2], [d = 2] ([N = 5]), on the rationals. *)
Lemma stiffness_symmetric_witness :
  (forall x y : Qc, mul x y = mul y x) /\ 1 <= 2 /\ 1 <= 2 /\
  exists s, fem_assemble 2 (fun x : Qc => x) (fun _ => 0%Qc) 2 0%Qc 1%Qc = Ok s /\
            get zero (get [] (stiffness_matrix s) 1) 3
            = get zero (get [] (stiffness_matrix s) 3) 1.
Proof.
  split; [exact Qcmult_comm|]. split; [lia|]. split; [lia|].
  destruct (@stiffness_symmetric Qc Qc_scalar Qc_numpy 2 (fun x => x) (fun _ => 0%Qc) 2 0%Qc 1%Qc)
    as [s [Es [HN Hsym]]]; [exact Qcmult_comm | lia | lia |].
  exists s. split; [exact Es|]. apply Hsym; rewrite HN; lia.
Defined.

(** X2 (C7 in binary64): the hypothesis on the product holds there.
    For [M >= 1] and [d >= 1], whatever [a] and [b], the entries [A[i,j]]
    and [A[j,i]] of the final stiffness matrix are the same binary64
    number for all [i], [j] outside [{0, N-1}], a NaN when the other is
    one.  The comparison [A[i,j] == A[j,i]] is therefore true exactly
    when the entry is not a NaN, since [==] is false between NaNs. *)
Corollary stiffness_symmetric_binary64 (np : Numpy float)
          (M : Z) (exact_function rhs_function : float -> float) (d : Z) (a b : float) :
  1 <= M -> 1 <= d ->
  exists s,
    fem_assemble M exact_function rhs_function d a b = Ok s /\
    forall i j, 0 < i < M * d -> 0 < j < M * d ->
                get zero (get [] (stiffness_matrix s) i) j
                = get zero (get [] (stiffness_matrix s) j) i /\
                PrimFloat.eqb (get zero (get [] (stiffness_matrix s) i) j)
                              (get zero (get [] (stiffness_matrix s) j) i)
                = negb (nan64 (get zero (get [] (stiffness_matrix s) i) j)).
Proof.
  intros HM Hd.
  destruct (fem_assemble_ok exact_function rhs_function a b HM Hd)
    as [s [Es [HN [_ [_ [_ [_ [_ [HA [HS _]]]]]]]]]].
  exists s. split; [exact Es|].
  intros i j Hi Hj.
  assert (E : get zero (get [] (stiffness_matrix s) i) j
              = get zero (get [] (stiffness_matrix s) j) i).
  { rewrite HS.
    apply interior_symmetric with (n := N s) (B := Bprimeq s) (J := JxWq s); auto;
      try nia.
    exact float_mul_comm. }
  split; [exact E|]. rewrite <- E. apply binary64_eqb_refl.
Qed.

(** X2 at [M = 4], [d = 2] on [[0, 1]], where the entries are numbers:
    [==] holds. *)
Lemma stiffness_symmetric_binary64_witness :
  1 <= 4 /\ 1 <= 2 /\
  exists s,
    fem_assemble 4 (fun x : float => x * x)%float (fun _ => (-2)%float) 2 0%float 1%float
    = Ok s /\
    get zero (get [] (stiffness_matrix s) 2) 3
    = get zero (get [] (stiffness_matrix s) 3) 2 /\
    PrimFloat.eqb (get zero (get [] (stiffness_matrix s) 2) 3)
                  (get zero (get [] (stiffness_matrix s) 3) 2) = true.
Proof.
  split; [lia|]. split; [lia|].
  destruct (@stiffness_symmetric_binary64 float_numpy 4 (fun x : float => x * x)%float
                                          (fun _ => (-2)%float) 2 0%float 1%float)
    as [s [Es Hsym]]; [lia | lia |].
  exists s. split; [exact Es|].
  destruct (Hsym 2 3) as [E Eq]; [lia | lia |].
  split; [exact E|]. rewrite Eq.
  assert (Es' : fem_assemble 4 (fun x : float => x * x)%float (fun _ => (-2)%float)
                             2 0%float 1%float = Ok s) by exact Es.
  vm_compute in Es'. injection Es' as <-. vm_compute. reflexivity.
Defined.

(** The symmetric entries can be NaN on a valid mesh, and then [==] is
    false: with [a = 1.0], [b] the next number above and [M = 3], the
    first two vertices coincide, and the entries [(1,2)] and [(2,1)] of
    the matrix are NaN. *)
Example stiffness_nan_binary64 :
  PrimFloat.ltb 1 (next_up 1) = true /\
  exists s,
    fem_assemble 3 (fun x : float => x) (fun _ => 0%float) 1 1%float (next_up 1) = Ok s /\
    nan64 (get zero (get [] (stiffness_matrix s) 1) 2) = true /\
    nan64 (get zero (get [] (stiffness_matrix s) 2) 1) = true /\
    PrimFloat.eqb (get zero (get [] (stiffness_matrix s) 1) 2)
                  (get zero (get [] (stiffness_matrix s) 2) 1) = false.
Proof. split; [reflexivity|]. eexists. vm_compute. repeat split. Qed.

(** C8 (degree check).  The first statement of [fem] is
    [assert degree > 0]: with a degree below 1 (0 in particular) every
    call fails on it, whatever the other arguments, before anything else
    is computed; with a degree of at least 1 the assertion passes, and
    the assembly never fails on it. *)
Theorem degree_check {T : Type} `{Scalar T} `{Numpy T}
        (M : Z) (exact_function rhs_function : T -> T) (d : Z) (a b : T) :
  (fem_assemble M exact_function rhs_function d a b
   = Raise (AssertionError degree_positive) <-> d < 1) /\
  (assert degree_positive (0 <? d) = Ok tt <-> 1 <= d) /\
  (d < 1 -> fem M exact_function rhs_function d a b
            = Raise (AssertionError degree_positive)).
Proof.
  assert (Hlow : d < 1 ->
                 fem_assemble M exact_function rhs_function d a b
                 = Raise (AssertionError degree_positive)).
  { intros Hd. unfold fem_assemble, assert.
    destruct (Z.ltb_spec 0 d); [lia | reflexivity]. }
  split; [|split].
  - split; [|exact Hlow]. intros E.
    destruct (Z.lt_ge_cases d 1) as [Hd|Hd]; [exact Hd | exfalso].
    destruct (Z.lt_ge_cases M 1) as [HM|HM].
    + rewrite fem_assemble_small_M in E by lia. discriminate.
    + destruct (fem_assemble_ok exact_function rhs_function a b HM Hd) as [s [Es _]].
      rewrite Es in E. discriminate.
  - unfold assert. destruct (Z.ltb_spec 0 d); split; intros; try lia; try discriminate.
    reflexivity.
  - intros Hd. unfold fem. now rewrite Hlow.
Qed.

(** C8 at degree 0 and at degree 1, on the mesh of the notebook. *)
Example degree_check_examples :
  fem 6 (fun x : Qc => x) (fun _ => 0%Qc) 0 0%Qc 1%Qc
  = Raise (AssertionError degree_positive) /\
  is_ok (fem 6 (fun x : Qc => x) (fun _ => 0%Qc) 1 0%Qc 1%Qc) = true.
Proof. split; vm_compute; reflexivity. Qed.

(** In exact arithmetic no divisor of the reference basis or of the
    element derivatives is zero. *)
Lemma divisors_nonzero_exact (d alpha j M k : Z) (a b : Qc) :
  1 <= d -> 0 <= alpha <= d -> 0 <= j <= d -> j <> alpha ->
  1 <= M -> 0 <= k < M -> (a < b)%Qc ->
  exists rv vs J,
    linspace zero one (d + 1) = Ok rv /\
    sub (get zero rv alpha) (get zero rv j) <> zero /\
    linspace a b (M + 1) = Ok vs /\
    mapping_J vs k = Ok J /\
    J <> zero /\
    (forall (np : Numpy Qc) exact_function rhs_function s,
        fem_assemble M exact_function rhs_function d a b = Ok s ->
        ref_vertices s = rv /\ vertices s = vs).
Proof.
  intros Hd Ha Hj Hne HM Hk Hab.
  destruct (linspace_ok (T := Qc) zero one (num := d + 1)) as [rv [Erv Lrv]]; [lia|].
  destruct (linspace_ok a b (num := M + 1)) as [vs [Evs Lvs]]; [lia|].
  exists rv, vs. eexists.
  split; [exact Erv|]. split; [|split; [exact Evs|split; [|split]]].
  - apply (linspace_Qc_distinct (a := zero) (b := one) (num := d + 1)); try lia; auto.
    qc_ops. discriminate.
  - apply mapping_J_ok. lia.
  - apply (linspace_Qc_distinct (a := a) (b := b) (num := M + 1)); try lia; auto.
    intros ->. now apply Qlt_irrefl in Hab.
  - intros np exact_function rhs_function s Es.
    apply fem_assemble_inv in Es. destruct Es as [_ [_ [_ [Hrv [Hvs _]]]]].
    split; congruence.
Qed.

(** In binary64, [linspace(0, 1, n + 1)] returns [n + 1] finite numbers
    in strictly increasing order, for every [n] from 1 to 512, by
    evaluation. *)
Lemma unit_interval_binary64 (n : Z) :
  1 <= n <= 512 ->
  exists rv,
    linspace (T := float) zero one (n + 1) = Ok rv /\
    len rv = n + 1 /\
    forallb finite64 rv = true /\
    increasing rv = true.
Proof.
  intros Hn.
  assert (Hall : forallb reference_points_binary64 (range2 1 513) = true)
    by (vm_compute; reflexivity).
  rewrite forallb_forall in Hall.
  specialize (Hall n ltac:(apply In_range2; lia)).
  unfold reference_points_binary64 in Hall.
  destruct (linspace (T := float) zero one (n + 1)) as [rv|e]; [|discriminate].
  exists rv.
  apply andb_prop in Hall. destruct Hall as [Hall Hi].
  apply andb_prop in Hall. destruct Hall as [Hl Hf].
  apply Z.eqb_eq in Hl. repeat split; assumption.
Qed.

(** In binary64 the Jacobian of an element with finite end points is a
    zero exactly when the end points are equal. *)
Lemma jacobian_null_binary64 (vs : list float) (k : Z) :
  0 <= k < len vs - 1 ->
  finite64 (get zero vs k) = true -> finite64 (get zero vs (k + 1)) = true ->
  exists J,
    mapping_J vs k = Ok J /\
    PrimFloat.eqb J zero = PrimFloat.eqb (get zero vs (k + 1)) (get zero vs k).
Proof.
  intros Hk Hf0 Hf1. eexists. split; [apply mapping_J_ok; exact Hk|].
  apply binary64_sub_null; assumption.
Qed.

(** C10 (no division by zero).  In exact arithmetic, for every degree
    [d >= 1] and local indices [alpha <> j] in [[0,d]], the denominator
    [ref_vertices[alpha] - ref_vertices[j]] of the reference basis is not
    zero, the points of [linspace(0,1,d+1)] being pairwise distinct; and
    for [a < b], [M >= 1] and every element [k] in [[0,M)], the Jacobian
    [mapping_J(vertices,k)] that divides the derivatives on line 164 is
    not zero.

    In binary64, the arithmetic of the notebook: between the entries
    of a list of finite numbers in strictly increasing order no
    difference is zero; for every degree [d] from 1 to 512 the
    reference points that [linspace] computes are such a list, and no
    denominator [ref_vertices[alpha] - ref_vertices[j]] is zero.  The
    Jacobian of an element whose end points are finite is zero if and
    only if the two end points are the same number; on the interval
    [[0,1]] cut into [M] elements, [M] from 1 to 512, no Jacobian is
    zero.  ([a < b] alone does not keep two vertices apart: see the
    counterexample.) *)
Theorem divisors_nonzero :
  (forall (d alpha j M k : Z) (a b : Qc),
      1 <= d -> 0 <= alpha <= d -> 0 <= j <= d -> j <> alpha ->
      1 <= M -> 0 <= k < M -> (a < b)%Qc ->
      exists rv vs J,
        linspace zero one (d + 1) = Ok rv /\
        sub (get zero rv alpha) (get zero rv j) <> zero /\
        linspace a b (M + 1) = Ok vs /\
        mapping_J vs k = Ok J /\
        J <> zero /\
        (forall (np : Numpy Qc) exact_function rhs_function s,
            fem_assemble M exact_function rhs_function d a b = Ok s ->
            ref_vertices s = rv /\ vertices s = vs)) /\
  (forall (rv : list float) (alpha j : Z),
      forallb finite64 rv = true -> increasing rv = true ->
      0 <= alpha < len rv -> 0 <= j < len rv -> j <> alpha ->
      PrimFloat.eqb (sub (get zero rv alpha) (get zero rv j)) zero = false) /\
  (forall d alpha j : Z,
      1 <= d <= 512 -> 0 <= alpha <= d -> 0 <= j <= d -> j <> alpha ->
      exists rv,
        linspace (T := float) zero one (d + 1) = Ok rv /\
        forallb finite64 rv = true /\
        increasing rv = true /\
        PrimFloat.eqb (sub (get zero rv alpha) (get zero rv j)) zero = false /\
        (forall (np : Numpy float) M exact_function rhs_function a b s,
            fem_assemble M exact_function rhs_function d a b = Ok s ->
            ref_vertices s = rv)) /\
  (forall (vs : list float) (k : Z),
      0 <= k < len vs - 1 ->
      finite64 (get zero vs k) = true -> finite64 (get zero vs (k + 1)) = true ->
      exists J,
        mapping_J vs k = Ok J /\
        PrimFloat.eqb J zero = PrimFloat.eqb (get zero vs (k + 1)) (get zero vs k)) /\
  (forall M k : Z,
      1 <= M <= 512 -> 0 <= k < M ->
      exists vs J,
        linspace (T := float) zero one (M + 1) = Ok vs /\
        mapping_J vs k = Ok J /\
        PrimFloat.eqb J zero = false /\
        (forall (np : Numpy float) exact_function rhs_function d s,
            fem_assemble M exact_function rhs_function d zero one = Ok s ->
            vertices s = vs)).
Proof.
  split; [exact divisors_nonzero_exact|].
  split; [|split; [|split; [exact jacobian_null_binary64|]]].
  - intros rv alpha j Hf Hi Ha Hj Hne. apply increasing_denominators; auto.
  - intros d alpha j Hd Ha Hj Hne.
    destruct (unit_interval_binary64 Hd) as [rv [Erv [Lrv [Hf Hi]]]].
    exists rv. split; [exact Erv|]. split; [exact Hf|]. split; [exact Hi|]. split.
    + apply increasing_denominators; auto; lia.
    + intros np M exact_function rhs_function a b s Es.
      apply fem_assemble_inv in Es. destruct Es as [_ [_ [_ [Hrv _]]]].
      congruence.
  - intros M k HM Hk.
    destruct (unit_interval_binary64 HM) as [vs [Evs [Lvs [Hf Hi]]]].
    exists vs. eexists. split; [exact Evs|].
    split; [apply mapping_J_ok; lia|]. split.
    + apply increasing_denominators; auto; lia.
    + intros np exact_function rhs_function d s Es.
      apply fem_assemble_inv in Es. destruct Es as [_ [_ [_ [_ [Hvs _]]]]].
      congruence.
Qed.

(** C10 at [M = 4], [d = 2], on [[0,1]], in exact arithmetic and in
    binary64. *)
Lemma divisors_nonzero_witness :
  (exists rv vs J,
      linspace (T := Qc) zero one (2 + 1) = Ok rv /\
      sub (get zero rv 0) (get zero rv 2) <> zero /\
      linspace 0%Qc 1%Qc (4 + 1) = Ok vs /\
      mapping_J vs 3 = Ok J /\
      J <> zero) /\
  (exists rv,
      linspace (T := float) zero one (2 + 1) = Ok rv /\
      PrimFloat.eqb (sub (get zero rv 0) (get zero rv 2)) zero = false) /\
  (exists vs J,
      linspace (T := float) zero one (4 + 1) = Ok vs /\
      mapping_J vs 3 = Ok J /\
      PrimFloat.eqb J zero = false).
Proof.
  destruct divisors_nonzero as [Hexact [_ [Href [_ Hunit]]]]. split; [|split].
  - destruct (Hexact 2 0 2 4 3 0%Qc 1%Qc)
      as [rv [vs [J [Erv [Hden [Evs [EJ [HJ _]]]]]]]]; try lia; [reflexivity|].
    exists rv, vs, J. repeat split; assumption.
  - destruct (Href 2 0 2) as [rv [Erv [_ [_ [Hden _]]]]]; try lia.
    exists rv. split; assumption.
  - destruct (Hunit 4 3) as [vs [J [Evs [EJ [HJ _]]]]]; try lia.
    exists vs, J. repeat split; assumption.
Defined.

(** C10, counterexample in binary64.  With [a = 1.0], [b] the next
    float above and [M = 2], [a < b] but the middle vertex
    [a + 1*((b-a)/2)] rounds to [a]: [fem] computes the vertices
    [[a, a, b]], the Jacobian of element 0 is zero, and the division of
    line 164 by it leaves infinities in [Bprimeq]. *)
Lemma zero_jacobian_binary64 :
  PrimFloat.ltb 1 (next_up 1) = true /\
  exists s,
    fem_assemble 2 (fun x : float => x) (fun _ => 0%float) 1 1%float (next_up 1) = Ok s /\
    vertices s = [1%float; 1%float; next_up 1] /\
    mapping_J (vertices s) 0 = Ok 0%float /\
    get zero (get [] (Bprimeq s) 0) 0 = neg_infinity /\
    get zero (get [] (Bprimeq s) 0) 1 = infinity.
Proof. split; [reflexivity|]. eexists. vm_compute. repeat split. Qed.

(** * Further properties of the code *)

(** ** The arrays of [fem]: lines 157-169 *)

(** X3 (quadrature points and weights on the mesh, lines 157-158, 166
    and 169).  For every scalar type, [M >= 1] and [d >= 1], when
    [leggauss(n)] returns [n] nodes and [n] weights ([n = 2d + 1]), the
    flat arrays [Xq] and [JxWq] have [M*n] entries, and the entry
    [k*n + j] holds the image [mapping(vertices,k)(q[j])] of the [j]-th
    reference point in the element [k] and the weight
    [mapping_J(vertices,k) * w[j]]; neither call fails on its index. *)
Theorem mesh_quadrature_tables {T : Type} `{Scalar T} `{Numpy T}
        (M : Z) (exact_function rhs_function : T -> T) (d : Z) (a b : T) :
  1 <= M -> 1 <= d ->
  len (fst (leggauss (2 * d + 1))) = 2 * d + 1 ->
  len (snd (leggauss (2 * d + 1))) = 2 * d + 1 ->
  exists s,
    fem_assemble M exact_function rhs_function d a b = Ok s /\
    len (Xq s) = M * (2 * d + 1) /\
    len (JxWq s) = M * (2 * d + 1) /\
    forall k j, 0 <= k < M -> 0 <= j < 2 * d + 1 ->
      exists F J,
        mapping (vertices s) k = Ok F /\
        mapping_J (vertices s) k = Ok J /\
        get zero (Xq s) (k * (2 * d + 1) + j) = F (get zero (q s) j) /\
        get zero (JxWq s) (k * (2 * d + 1) + j) = mul J (get zero (w s) j).
Proof.
  intros HM Hd Lq Lw.
  destruct (fem_assemble_tabulated exact_function rhs_function a b HM Hd Lq Lw)
    as [s [Es [Hs [LX [LJ [_ [_ Htab]]]]]]].
  destruct (assembled_lengths HM Hd Hs) as [_ Lv].
  exists s. split; [exact Es|]. split; [exact LX|]. split; [exact LJ|].
  intros k j Hk Hj.
  destruct (Htab k j Hk Hj) as [EX [EJ _]].
  eexists. eexists.
  split; [apply mapping_eq; lia|]. split; [apply mapping_J_ok; lia|].
  split; [exact EX | exact EJ].
Qed.

(** X3 at [M = 2], [d = 1] over the rationals: the last entry of [Xq]
    and of [JxWq], for the element 1 and the point 2. *)
Lemma mesh_quadrature_tables_witness :
  1 <= 2 /\ 1 <= 1 /\
  len (fst (leggauss (T := Qc) (2 * 1 + 1))) = 2 * 1 + 1 /\
  len (snd (leggauss (T := Qc) (2 * 1 + 1))) = 2 * 1 + 1 /\
  exists s F J,
    fem_assemble 2 (fun x : Qc => x) (fun _ => 0%Qc) 1 0%Qc 1%Qc = Ok s /\
    len (Xq s) = 6 /\
    mapping (vertices s) 1 = Ok F /\
    mapping_J (vertices s) 1 = Ok J /\
    get zero (Xq s) 5 = F (get zero (q s) 2) /\
    get zero (JxWq s) 5 = mul J (get zero (w s) 2).
Proof.
  split; [lia|]. split; [lia|]. split; [reflexivity|]. split; [reflexivity|].
  destruct (@mesh_quadrature_tables Qc Qc_scalar Qc_numpy 2 (fun x => x) (fun _ => 0%Qc)
                                    1 0%Qc 1%Qc)
    as [s [Es [LX [_ Htab]]]]; [lia | lia | reflexivity | reflexivity |].
  destruct (Htab 1 2) as [F [J [EF [EJ [EX EW]]]]]; [lia | lia |].
  exists s, F, J. repeat split; assumption.
Defined.

(** X4 (the table of basis values, lines 138, 141, 163 and 167; the
    comment of line 160).  For every scalar type, [M >= 1] and [d >= 1],
    when [leggauss(n)] returns [n] nodes and [n] weights, [Bq] has [M*n]
    rows of [N] entries; in the row [k*n + j] the column [P[k][alpha]]
    holds [lagrange_basis(ref_vertices,alpha)(q[j])], and every column
    that is not in [P[k]] holds the zero [zeros] put there: a basis
    function has no value recorded on an element it does not belong
    to. *)
Theorem basis_values_table {T : Type} `{Scalar T} `{Numpy T}
        (M : Z) (exact_function rhs_function : T -> T) (d : Z) (a b : T) :
  1 <= M -> 1 <= d ->
  len (fst (leggauss (2 * d + 1))) = 2 * d + 1 ->
  len (snd (leggauss (2 * d + 1))) = 2 * d + 1 ->
  exists s,
    fem_assemble M exact_function rhs_function d a b = Ok s /\
    len (Bq s) = M * (2 * d + 1) /\
    forall k j, 0 <= k < M -> 0 <= j < 2 * d + 1 ->
      len (get [] (Bq s) (k * (2 * d + 1) + j)) = N s /\
      (forall alpha, 0 <= alpha <= d ->
         exists v,
           lagrange_basis (ref_vertices s) alpha = Ok v /\
           get zero (get [] (Bq s) (k * (2 * d + 1) + j)) (get 0 (get [] (P s) k) alpha)
           = v (get zero (q s) j)) /\
      (forall i, 0 <= i < N s -> ~ In i (get [] (P s) k) ->
         get zero (get [] (Bq s) (k * (2 * d + 1) + j)) i = zero).
Proof.
  intros HM Hd Lq Lw.
  destruct (fem_assemble_tabulated exact_function rhs_function a b HM Hd Lq Lw)
    as [s [Es [Hs [_ [_ [LB [_ Htab]]]]]]].
  destruct (assembled_lengths HM Hd Hs) as [Lrv _].
  destruct Hs as [_ [_ [_ [_ [_ [HP _]]]]]].
  assert (Hrow : forall k, 0 <= k < M ->
                           get [] (P s) k = range2 (k * d) (k * d + d + 1)).
  { intros k Hk. rewrite HP, numbering_rows.
    rewrite get_map with (dA := 0) by (rewrite len_range; lia).
    now rewrite get_range. }
  exists s. split; [exact Es|]. split; [exact LB|].
  intros k j Hk Hj.
  destruct (Htab k j Hk Hj) as [_ [_ [L1 [_ [Hin Hout]]]]].
  split; [exact L1|]. split.
  - intros alpha Ha. exists (basis_value (ref_vertices s) alpha).
    split; [apply lagrange_basis_eq; lia|].
    rewrite Hrow by lia. rewrite get_range2 by lia. now apply Hin.
  - intros i Hi Hnot. apply Hout; [exact Hi|].
    rewrite Hrow in Hnot by lia. rewrite In_range2 in Hnot. lia.
Qed.

(** X4 at [M = 2], [d = 1] over the rationals: in the row of the element
    1 and the point 0, the column 2 holds the value of the second basis
    function and the column 0 holds zero. *)
Lemma basis_values_table_witness :
  1 <= 2 /\ 1 <= 1 /\
  len (fst (leggauss (T := Qc) (2 * 1 + 1))) = 2 * 1 + 1 /\
  len (snd (leggauss (T := Qc) (2 * 1 + 1))) = 2 * 1 + 1 /\
  exists s v,
    fem_assemble 2 (fun x : Qc => x) (fun _ => 0%Qc) 1 0%Qc 1%Qc = Ok s /\
    lagrange_basis (ref_vertices s) 1 = Ok v /\
    get zero (get [] (Bq s) 3) (get 0 (get [] (P s) 1) 1) = v (get zero (q s) 0) /\
    (~ In 0 (get [] (P s) 1) -> get zero (get [] (Bq s) 3) 0 = 0%Qc).
Proof.
  split; [lia|]. split; [lia|]. split; [reflexivity|]. split; [reflexivity|].
  destruct (@basis_values_table Qc Qc_scalar Qc_numpy 2 (fun x => x) (fun _ => 0%Qc)
                                1 0%Qc 1%Qc)
    as [s [Es [_ Htab]]]; [lia | lia | reflexivity | reflexivity |].
  destruct (Htab 1 0) as [_ [Hin Hout]]; [lia | lia |].
  destruct (Hin 1) as [v [Ev Hv]]; [lia|].
  exists s, v. split; [exact Es|]. split; [exact Ev|]. split; [exact Hv|].
  intros Hnot. apply Hout; [|exact Hnot].
  apply fem_assemble_inv in Es. destruct Es as [_ [_ [HN _]]]. rewrite HN. lia.
Defined.

(** X5 (the table of basis derivatives, lines 139, 142, 164 and 168; the
    comment of line 161).  Under the same conditions, [Bprimeq] has
    [M*n] rows of [N] entries; in the row [k*n + j] the column
    [P[k][alpha]] holds
    [lagrange_basis_derivative(ref_vertices,alpha)(q[j]) / mapping_J(vertices,k)],
    the derivative on the reference element divided by the Jacobian of
    the element, and every column that is not in [P[k]] holds zero. *)
Theorem basis_derivatives_table {T : Type} `{Scalar T} `{Numpy T}
        (M : Z) (exact_function rhs_function : T -> T) (d : Z) (a b : T) :
  1 <= M -> 1 <= d ->
  len (fst (leggauss (2 * d + 1))) = 2 * d + 1 ->
  len (snd (leggauss (2 * d + 1))) = 2 * d + 1 ->
  exists s,
    fem_assemble M exact_function rhs_function d a b = Ok s /\
    len (Bprimeq s) = M * (2 * d + 1) /\
    forall k j, 0 <= k < M -> 0 <= j < 2 * d + 1 ->
      len (get [] (Bprimeq s) (k * (2 * d + 1) + j)) = N s /\
      (forall alpha, 0 <= alpha <= d ->
         exists v' J,
           lagrange_basis_derivative (ref_vertices s) alpha = Ok v' /\
           mapping_J (vertices s) k = Ok J /\
           get zero (get [] (Bprimeq s) (k * (2 * d + 1) + j))
               (get 0 (get [] (P s) k) alpha)
           = div (v' (get zero (q s) j)) J) /\
      (forall i, 0 <= i < N s -> ~ In i (get [] (P s) k) ->
         get zero (get [] (Bprimeq s) (k * (2 * d + 1) + j)) i = zero).
Proof.
  intros HM Hd Lq Lw.
  destruct (fem_assemble_tabulated exact_function rhs_function a b HM Hd Lq Lw)
    as [s [Es [Hs [_ [_ [_ [LB Htab]]]]]]].
  destruct (assembled_lengths HM Hd Hs) as [Lrv Lv].
  destruct Hs as [_ [_ [_ [_ [_ [HP _]]]]]].
  assert (Hrow : forall k, 0 <= k < M ->
                           get [] (P s) k = range2 (k * d) (k * d + d + 1)).
  { intros k Hk. rewrite HP, numbering_rows.
    rewrite get_map with (dA := 0) by (rewrite len_range; lia).
    now rewrite get_range. }
  exists s. split; [exact Es|]. split; [exact LB|].
  intros k j Hk Hj.
  destruct (Htab k j Hk Hj) as [_ [_ [_ [L2 [Hin Hout]]]]].
  split; [exact L2|]. split.
  - intros alpha Ha. exists (basis_slope (ref_vertices s) alpha). eexists.
    split; [apply lagrange_basis_derivative_eq; lia|].
    split; [apply mapping_J_ok; lia|].
    rewrite Hrow by lia. rewrite get_range2 by lia. now apply Hin.
  - intros i Hi Hnot. apply Hout; [exact Hi|].
    rewrite Hrow in Hnot by lia. rewrite In_range2 in Hnot. lia.
Qed.

(** X5 at [M = 2], [d = 1] over the rationals, for the element 1, the
    point 0 and the second basis function. *)
Lemma basis_derivatives_table_witness :
  1 <= 2 /\ 1 <= 1 /\
  len (fst (leggauss (T := Qc) (2 * 1 + 1))) = 2 * 1 + 1 /\
  len (snd (leggauss (T := Qc) (2 * 1 + 1))) = 2 * 1 + 1 /\
  exists s v' J,
    fem_assemble 2 (fun x : Qc => x) (fun _ => 0%Qc) 1 0%Qc 1%Qc = Ok s /\
    lagrange_basis_derivative (ref_vertices s) 1 = Ok v' /\
    mapping_J (vertices s) 1 = Ok J /\
    get zero (get [] (Bprimeq s) 3) (get 0 (get [] (P s) 1) 1)
    = div (v' (get zero (q s) 0)) J.
Proof.
  split; [lia|]. split; [lia|]. split; [reflexivity|]. split; [reflexivity|].
  destruct (@basis_derivatives_table Qc Qc_scalar Qc_numpy 2 (fun x => x) (fun _ => 0%Qc)
                                     1 0%Qc 1%Qc)
    as [s [Es [_ Htab]]]; [lia | lia | reflexivity | reflexivity |].
  destruct (Htab 1 0) as [_ [Hin _]]; [lia | lia |].
  destruct (Hin 1) as [v' [J [Ev [EJ Hv]]]]; [lia|].
  exists s, v', J. repeat split; assumption.
Defined.

(** ** Exceptions *)

(** X6 (the assertions inside the assembly never fail).  For every
    scalar type and all arguments: the only assertion [fem] can fail on
    before the solve is [assert degree > 0], and it does so only with a
    degree below 1.  The index assertions of [mapping], [mapping_J] and
    [lagrange_basis] and [assert P.max() == N-1] always pass where [fem]
    reaches them; a [ValueError] of numpy arises only from an element
    count below 1; the assembly never raises [LinAlgError], and never
    the [AttributeError] of [lagrange_basis_derivative], which [fem]
    calls on [degree + 1 >= 2] reference points; and an exception of
    [fem] is one of the assembly or one of [linalg.solve] on the
    assembled system. *)
Theorem internal_assertions_pass {T : Type} `{Scalar T} `{Numpy T}
        (M : Z) (exact_function rhs_function : T -> T) (d : Z) (a b : T) :
  (forall c, fem_assemble M exact_function rhs_function d a b = Raise (AssertionError c) ->
             c = degree_positive /\ d < 1) /\
  (forall v, fem_assemble M exact_function rhs_function d a b = Raise (ValueError v) ->
             1 <= d /\ M < 1) /\
  fem_assemble M exact_function rhs_function d a b <> Raise LinAlgError /\
  fem_assemble M exact_function rhs_function d a b <> Raise AttributeError /\
  (forall e, fem M exact_function rhs_function d a b = Raise e ->
             fem_assemble M exact_function rhs_function d a b = Raise e \/
             exists s, fem_assemble M exact_function rhs_function d a b = Ok s /\
                       linalg_solve (stiffness_matrix s) (rhs s) = Raise e).
Proof.
  assert (Hcases :
            (d < 1 /\ fem_assemble M exact_function rhs_function d a b
                      = Raise (AssertionError degree_positive)) \/
            (1 <= d /\ M < 1 /\
             exists v, fem_assemble M exact_function rhs_function d a b
                       = Raise (ValueError v)) \/
            (exists s, fem_assemble M exact_function rhs_function d a b = Ok s)).
  { destruct (Z.lt_ge_cases d 1) as [Hd|Hd].
    - left. split; [exact Hd|]. unfold fem_assemble, assert.
      destruct (Z.ltb_spec 0 d); [lia | reflexivity].
    - right. destruct (Z.lt_ge_cases M 1) as [HM|HM].
      + left. split; [exact Hd|]. split; [exact HM|]. eexists.
        apply fem_assemble_small_M; lia.
      + right.
        destruct (fem_assemble_ok exact_function rhs_function a b HM Hd) as [s [Es _]].
        now exists s. }
  split; [|split; [|split; [|split]]].
  - intros c E. destruct Hcases as [[Hd E']|[[_ [_ [v E']]]|[s E']]];
      rewrite E' in E; try discriminate.
    injection E as <-. split; [reflexivity | exact Hd].
  - intros v E. destruct Hcases as [[Hd E']|[[Hd [HM _]]|[s E']]];
      try (rewrite E' in E; discriminate).
    split; assumption.
  - intros E. destruct Hcases as [[Hd E']|[[_ [_ [v E']]]|[s E']]];
      rewrite E' in E; discriminate.
  - intros E. destruct Hcases as [[Hd E']|[[_ [_ [v E']]]|[s E']]];
      rewrite E' in E; discriminate.
  - intros e E. unfold fem in E.
    clear Hcases.
    destruct (fem_assemble M exact_function rhs_function d a b) as [s|e'] eqn:Es.
    + right. exists s. split; [reflexivity|]. cbn [bind] in E.
      destruct (linalg_solve (stiffness_matrix s) (rhs s)) as [u|e''];
        cbn [bind] in E; [discriminate | congruence].
    + left. cbn [bind] in E. congruence.
Qed.

(** X7 (index checks of the reference-element functions, lines 79-80,
    84-85, 89-90 and 101-103).  [mapping(q,i)] and [mapping_J(q,i)]
    accept exactly the indices of the elements, [0 <= i < len(q) - 1];
    [lagrange_basis] accepts exactly the indices of the points,
    [0 <= i < len(q)]; [lagrange_basis_derivative] returns a function
    exactly on the indices of the points of a list of two points or
    more, and on the one index of a list of one point it raises
    [AttributeError], after both assertions have passed.  The upper
    bound is tested first: an index that is too large fails on it, a
    negative index (which Python would count from the end of [q]) fails
    on the second assertion, unless the upper bound already refuses it,
    as it does on a list without elements. *)
Theorem index_checks {T : Type} `{Scalar T} (q : list T) (i : Z) :
  (is_ok (mapping q i) = true <-> 0 <= i < len q - 1) /\
  (is_ok (mapping_J q i) = true <-> 0 <= i < len q - 1) /\
  (is_ok (lagrange_basis q i) = true <-> 0 <= i < len q) /\
  (is_ok (lagrange_basis_derivative q i) = true <-> 0 <= i < len q /\ 2 <= len q) /\
  (0 <= i < len q -> len q < 2 ->
   lagrange_basis_derivative q i = Raise AttributeError) /\
  (len q - 1 <= i ->
   mapping q i = Raise (AssertionError mapping_index_below) /\
   mapping_J q i = Raise (AssertionError jacobian_index_below)) /\
  (i < 0 -> i < len q - 1 ->
   mapping q i = Raise (AssertionError mapping_index_nonneg) /\
   mapping_J q i = Raise (AssertionError jacobian_index_nonneg)) /\
  (len q <= i ->
   lagrange_basis q i = Raise (AssertionError basis_index_below) /\
   lagrange_basis_derivative q i = Raise (AssertionError basis_index_below)) /\
  (i < 0 -> i < len q ->
   lagrange_basis q i = Raise (AssertionError basis_index_nonneg) /\
   lagrange_basis_derivative q i = Raise (AssertionError basis_index_nonneg)).
Proof.
  assert (Hd : (2 <= len q -> 0 <= i < len q ->
                is_ok (lagrange_basis_derivative q i) = true) /\
               (len q < 2 -> 0 <= i < len q ->
                lagrange_basis_derivative q i = Raise AttributeError)).
  { split; intros Hq Hi.
    - rewrite lagrange_basis_derivative_eq by assumption. reflexivity.
    - apply lagrange_basis_derivative_single; lia. }
  destruct Hd as [Hd2 Hd1].
  destruct (Z.lt_ge_cases (len q) 2) as [Hq|Hq];
    destruct (Z.lt_ge_cases i 0) as [Hl|Hl];
    destruct (Z.lt_ge_cases i (len q)) as [Hu|Hu];
    try (rewrite Hd1 by lia); try (rewrite Hd2 by lia);
    unfold mapping, mapping_J, lagrange_basis, lagrange_basis_derivative, assert;
    destruct (Z.ltb_spec i (len q - 1)); destruct (Z.ltb_spec i (len q));
    destruct (Z.leb_spec 0 i); cbn [bind is_ok];
    repeat split; intros; try lia; try discriminate; try reflexivity.
Qed.

(** ** The reference element: cell 2 *)

(** X8 ([mapping] and [mapping_J] over the reals, lines 75-86).  On an
    element index [0 <= k < len(q) - 1], [mapping(q,k)] is the affine
    map that sends 0 to [q[k]] and 1 to [q[k+1]], and [mapping_J(q,k)]
    is its derivative at every point: the increments of the map are
    those of its argument times [mapping_J(q,k)].  The element [k] ends
    where the element [k+1] starts. *)
Theorem mapping_affine (q : list R) (k : Z) :
  0 <= k < len q - 1 ->
  exists F J,
    mapping q k = Ok F /\
    mapping_J q k = Ok J /\
    F 0%R = get zero q k /\
    F 1%R = get zero q (k + 1) /\
    (forall x, derivable_pt_lim F x J) /\
    (forall x y, (F y - F x = J * (y - x))%R) /\
    (k + 1 < len q - 1 ->
     exists G, mapping q (k + 1) = Ok G /\ G 0%R = F 1%R).
Proof.
  intros Hk. eexists. eexists.
  split; [apply mapping_eq; exact Hk|].
  split; [apply mapping_J_ok; exact Hk|].
  cbv beta. cbn [add sub mul R_scalar].
  split; [ring|]. split; [ring|]. split; [|split].
  - intros x. apply affine_derivable.
  - intros x y. ring.
  - intros Hk'. eexists. split; [apply mapping_eq; lia|].
    cbv beta. cbn [add sub mul R_scalar]. ring.
Qed.

(** X8 on the mesh [[0, 1/2, 2]], at its first element. *)
Lemma mapping_affine_witness :
  0 <= 0 < len [0%R; (1 / 2)%R; 2%R] - 1 /\
  exists F J,
    mapping [0%R; (1 / 2)%R; 2%R] 0 = Ok F /\
    mapping_J [0%R; (1 / 2)%R; 2%R] 0 = Ok J /\
    F 1%R = (1 / 2)%R /\
    derivable_pt_lim F 0%R J.
Proof.
  split; [unfold len; cbn [length]; lia|].
  destruct (@mapping_affine [0%R; (1 / 2)%R; 2%R] 0)
    as [F [J [EF [EJ [_ [F1 [D _]]]]]]]; [unfold len; cbn [length]; lia|].
  exists F, J. split; [exact EF|]. split; [exact EJ|].
  split; [exact F1 | apply D].
Defined.

(** X9 ([lagrange_basis_derivative] is the derivative of
    [lagrange_basis], lines 88-103).  Over the reals, for every list
    [q] of two points or more and every index [0 <= i < len(q)] whose
    point differs from all the others (no denominator is zero),
    [lagrange_basis_derivative(q,i)] returns a function, and this
    function is, at every point, the derivative of the function that
    [lagrange_basis(q,i)] returns.  (On a list of one point there is
    nothing to differentiate: the call raises [AttributeError], see
    X7.) *)
Theorem basis_derivative_correct (q : list R) (i : Z) :
  2 <= len q ->
  0 <= i < len q ->
  (forall j, 0 <= j < len q -> j <> i -> get zero q j <> get zero q i) ->
  exists v v',
    lagrange_basis q i = Ok v /\
    lagrange_basis_derivative q i = Ok v' /\
    forall x, derivable_pt_lim v x (v' x).
Proof.
  intros Hq Hi _. exists (basis_value q i), (basis_slope q i).
  split; [apply lagrange_basis_eq; exact Hi|].
  split; [apply lagrange_basis_derivative_eq; assumption|].
  intros x. unfold basis_value, basis_slope, one.
  cbn [of_int sub mul div R_scalar].
  apply (prod_factors_derivable (fun j => get zero q j)
                                (fun j => (get zero q i - get zero q j)%R)
                                (others q i) x).
  apply NoDup_others.
Qed.

(** X9 on the points [[0, 1/2, 1]], for the middle basis function. *)
Lemma basis_derivative_correct_witness :
  2 <= len [0%R; (1 / 2)%R; 1%R] /\
  0 <= 1 < len [0%R; (1 / 2)%R; 1%R] /\
  (forall j, 0 <= j < len [0%R; (1 / 2)%R; 1%R] -> j <> 1 ->
             get zero [0%R; (1 / 2)%R; 1%R] j <> get zero [0%R; (1 / 2)%R; 1%R] 1) /\
  exists v v',
    lagrange_basis [0%R; (1 / 2)%R; 1%R] 1 = Ok v /\
    lagrange_basis_derivative [0%R; (1 / 2)%R; 1%R] 1 = Ok v' /\
    derivable_pt_lim v (1 / 2)%R (v' (1 / 2)%R).
Proof.
  assert (Hd : forall j, 0 <= j < len [0%R; (1 / 2)%R; 1%R] -> j <> 1 ->
                         get zero [0%R; (1 / 2)%R; 1%R] j
                         <> get zero [0%R; (1 / 2)%R; 1%R] 1).
  { intros j Hj Hne. unfold len in Hj. cbn [length] in Hj.
    assert (Hc : j = 0 \/ j = 2) by lia.
    destruct Hc as [-> | ->]; unfold get, zero;
      change (Z.to_nat 0) with 0%nat; change (Z.to_nat 1) with 1%nat;
      change (Z.to_nat 2) with 2%nat; cbn [nth of_int R_scalar]; lra. }
  split; [unfold len; cbn [length]; lia|].
  split; [unfold len; cbn [length]; lia|]. split; [exact Hd|].
  destruct (@basis_derivative_correct [0%R; (1 / 2)%R; 1%R] 1)
    as [v [v' [Ev [Ev' D]]]];
    [unfold len; cbn [length]; lia | unfold len; cbn [length]; lia | exact Hd |].
  exists v, v'. split; [exact Ev|]. split; [exact Ev'|]. apply D.
Defined.

(** X10 (the Lagrange property on any points, lines 88-91).  In exact
    arithmetic, for every list of points [q] and every index [i] whose
    point differs from all the others, the function
    [lagrange_basis(q,i)] takes the value 1 at [q[i]] and the value 0 at
    every other point of [q]; the points need not be equispaced nor
    sorted. *)
Theorem lagrange_interpolates (q : list Qc) (i : Z) :
  0 <= i < len q ->
  (forall j, 0 <= j < len q -> j <> i -> get zero q j <> get zero q i) ->
  exists v,
    lagrange_basis q i = Ok v /\
    forall j, 0 <= j < len q ->
              v (get zero q j) = if j =? i then 1%Qc else 0%Qc.
Proof.
  intros Hi Hd.
  destruct (@lagrange_basis_Qc q i Hi) as [v [Ev [H1 H0]]].
  - intros j Hj Hne E. apply (Hd j Hj Hne).
    transitivity ((get zero q i - get zero q j) + get zero q j)%Qc; [|ring].
    rewrite E. ring.
  - exists v. split; [exact Ev|]. intros j Hj.
    destruct (Z.eqb_spec j i) as [->|Hne]; [exact H1 | now apply H0].
Qed.

(** X10 on the points [[0, 1/3, 1, 5]], for the basis function of the
    point 1. *)
Lemma lagrange_interpolates_witness :
  0 <= 2 < len [0%Qc; Q2Qc (1 # 3); 1%Qc; Q2Qc (5 # 1)] /\
  (forall j, 0 <= j < len [0%Qc; Q2Qc (1 # 3); 1%Qc; Q2Qc (5 # 1)] -> j <> 2 ->
             get zero [0%Qc; Q2Qc (1 # 3); 1%Qc; Q2Qc (5 # 1)] j
             <> get zero [0%Qc; Q2Qc (1 # 3); 1%Qc; Q2Qc (5 # 1)] 2) /\
  exists v,
    lagrange_basis [0%Qc; Q2Qc (1 # 3); 1%Qc; Q2Qc (5 # 1)] 2 = Ok v /\
    v 1%Qc = 1%Qc /\ v (Q2Qc (5 # 1)) = 0%Qc.
Proof.
  assert (Hd : forall j, 0 <= j < len [0%Qc; Q2Qc (1 # 3); 1%Qc; Q2Qc (5 # 1)] -> j <> 2 ->
                         get zero [0%Qc; Q2Qc (1 # 3); 1%Qc; Q2Qc (5 # 1)] j
                         <> get zero [0%Qc; Q2Qc (1 # 3); 1%Qc; Q2Qc (5 # 1)] 2).
  { intros j Hj Hne. unfold len in Hj. cbn [length] in Hj.
    assert (Hc : j = 0 \/ j = 1 \/ j = 3) by lia.
    destruct Hc as [-> | [-> | ->]]; intros E; apply (f_equal this) in E;
      vm_compute in E; discriminate E. }
  split; [unfold len; cbn [length]; lia|]. split; [exact Hd|].
  destruct (@lagrange_interpolates [0%Qc; Q2Qc (1 # 3); 1%Qc; Q2Qc (5 # 1)] 2)
    as [v [Ev Hv]]; [unfold len; cbn [length]; lia | exact Hd |].
  exists v. split; [exact Ev|]. split.
  - apply (Hv 2). unfold len; cbn [length]; lia.
  - apply (Hv 3). unfold len; cbn [length]; lia.
Defined.

(** ** The meshes: lines 129-130 *)

(** X11 (the meshes in exact arithmetic).  Over the rationals, for
    [M >= 1] and [d >= 1]: the reference points are [alpha/d]; the mesh
    has [M + 1] vertices [a + k*(b-a)/M], the first one [a] and the last
    one [b]; every element has the same Jacobian
    [mapping_J(vertices,k) = (b-a)/M]; and when [a < b] the vertices
    increase strictly. *)
Theorem uniform_mesh (np : Numpy Qc)
        (M : Z) (exact_function rhs_function : Qc -> Qc) (d : Z) (a b : Qc) :
  1 <= M -> 1 <= d ->
  exists s,
    fem_assemble M exact_function rhs_function d a b = Ok s /\
    len (ref_vertices s) = d + 1 /\
    (forall alpha, 0 <= alpha <= d ->
                   get zero (ref_vertices s) alpha = (of_int alpha / of_int d)%Qc) /\
    len (vertices s) = M + 1 /\
    (forall k, 0 <= k <= M ->
               get zero (vertices s) k = (a + of_int k * ((b - a) / of_int M))%Qc) /\
    get zero (vertices s) 0 = a /\
    get zero (vertices s) M = b /\
    (forall k, 0 <= k < M ->
               mapping_J (vertices s) k = Ok ((b - a) / of_int M)%Qc) /\
    ((a < b)%Qc ->
     forall k, 0 <= k < M ->
               (get zero (vertices s) k < get zero (vertices s) (k + 1))%Qc).
Proof.
  intros HM Hd.
  destruct (fem_assemble_ok exact_function rhs_function a b HM Hd)
    as [s [Es [_ [Hrv [Hvs _]]]]].
  destruct (@linspace_Qc zero one (d + 1)) as [rv [Erv [Lrv Grv]]]; [lia|].
  destruct (@linspace_Qc a b (M + 1)) as [vs [Evs [Lvs Gvs]]]; [lia|].
  rewrite Hrv in Erv. injection Erv as <-.
  rewrite Hvs in Evs. injection Evs as <-.
  replace (d + 1 - 1) with d in Grv by lia.
  replace (M + 1 - 1) with M in Gvs by lia.
  pose proof (of_int_Qc_nonzero (x := M)) as HnzM.
  pose proof (of_int_Qc_nonzero (x := d)) as Hnzd.
  assert (Hstep : forall k, 0 <= k < M ->
                    (get zero (vertices s) (k + 1) - get zero (vertices s) k)%Qc
                    = ((b - a) / of_int M)%Qc).
  { intros k Hk. rewrite !Gvs by lia. rewrite of_int_Qc_succ. field. apply HnzM. lia. }
  exists s. split; [exact Es|]. split; [exact Lrv|]. split; [|split; [exact Lvs|]].
  - intros alpha Ha. rewrite Grv by lia. qc_ops. field. apply Hnzd. lia.
  - split; [intros k Hk; apply Gvs; lia|].
    split; [rewrite Gvs by lia; qc_ops; field; apply HnzM; lia|].
    split; [rewrite Gvs by lia; qc_ops; field; apply HnzM; lia|].
    split.
    + intros k Hk. rewrite mapping_J_ok by lia. f_equal. now apply Hstep.
    + intros Hab k Hk. apply Qclt_minus_iff.
      change (0 < get zero (vertices s) (k + 1) - get zero (vertices s) k)%Qc.
      rewrite Hstep by lia. now apply width_Qc_positive.
Qed.

(** X11 at [M = 4], [d = 2] on [[1, 3]]: the element 2 is [[2, 5/2]]. *)
Lemma uniform_mesh_witness :
  1 <= 4 /\ 1 <= 2 /\
  exists s,
    fem_assemble 4 (fun x : Qc => x) (fun _ => 0%Qc) 2 1%Qc (Q2Qc (3 # 1)) = Ok s /\
    get zero (vertices s) 4 = Q2Qc (3 # 1) /\
    mapping_J (vertices s) 2 = Ok ((Q2Qc (3 # 1) - 1) / of_int 4)%Qc.
Proof.
  split; [lia|]. split; [lia|].
  destruct (@uniform_mesh Qc_numpy 4 (fun x => x) (fun _ => 0%Qc) 2 1%Qc (Q2Qc (3 # 1)))
    as [s [Es [_ [_ [_ [_ [_ [Hb [HJ _]]]]]]]]]; [lia | lia |].
  exists s. split; [exact Es|]. split; [exact Hb|]. apply HJ. lia.
Defined.

(** ** Integration on the mesh: lines 155-158 *)

(** X12 (the mesh rule integrates polynomials exactly).  Over the reals,
    for [M >= 1] and [d >= 1], given what [leggauss(n)] returns ([n]
    nodes and [n] weights of a rule on [[-1,1]] exact up to degree
    [2n - 1]): the points [Xq] with the weights [JxWq], the arrays that
    [fem] integrates the right-hand side and the matrices with, form a
    rule that integrates every polynomial of degree at most [4d + 1]
    over the whole interval [[a, b]], for every [a] and [b]. *)
Theorem mesh_rule_exact (np : Numpy R)
        (M : Z) (exact_function rhs_function : R -> R) (d : Z) (a b : R) :
  1 <= M -> 1 <= d ->
  gauss_legendre (2 * d + 1) (leggauss (2 * d + 1)) ->
  exists s,
    fem_assemble M exact_function rhs_function d a b = Ok s /\
    exact_rule a b (4 * d + 1) (Xq s) (JxWq s).
Proof.
  intros HM Hd [Lx [Lw Hex]].
  destruct (fem_assemble_closed exact_function rhs_function a b HM Hd)
    as [s [Es [Hs [EX [EJ _]]]]].
  exists s. split; [exact Es|].
  destruct Hs as [_ [_ [Hvs [Hq [Hw _]]]]].
  assert (Lqw : length (q s) = length (w s)).
  { rewrite Hq, Hw, !length_map. unfold len in Lx, Lw. lia. }
  assert (Hrule : exact_rule 0 1 (4 * d + 1) (q s) (w s)).
  { rewrite Hq, Hw. apply rescaled_rule_exact.
    replace (4 * d + 1) with (2 * (2 * d + 1) - 1) by lia. exact Hex. }
  destruct (@linspace_R a b (M + 1)) as [vs [Evs [Lvs Gvs]]]; [lia|].
  rewrite Hvs in Evs. injection Evs as <-.
  intros p Hp. rewrite EX, EJ.
  rewrite (quadrature_concat
             (fun k => map (fun x => add (get zero (vertices s) k)
                                         (mul x (sub (get zero (vertices s) (k + 1))
                                                     (get zero (vertices s) k))))
                           (q s))
             (fun k => map (fun wj => mul (sub (get zero (vertices s) (k + 1))
                                               (get zero (vertices s) k)) wj)
                           (w s)))
    by (intros k; rewrite !length_map; exact Lqw).
  rewrite (map_ext _ (fun k => (eval (primitive p) (get zero (vertices s) (k + 1))
                                - eval (primitive p) (get zero (vertices s) k))%R)).
  - replace M with (Z.of_nat (Z.to_nat M)) at 1 by lia.
    rewrite (telescope (fun k => eval (primitive p) (get zero (vertices s) k))).
    replace (Z.of_nat (Z.to_nat M)) with M by lia.
    rewrite (Gvs M), (Gvs 0) by lia.
    replace (M + 1 - 1) with M by lia.
    unfold integral. f_equal; f_equal.
    + field. apply not_0_IZR. lia.
    + ring.
  - intros k.
    rewrite (quadrature_affine (get zero (vertices s) k)
                               (get zero (vertices s) (k + 1) - get zero (vertices s) k)%R).
    rewrite Hrule by (unfold len in *; rewrite length_affine; exact Hp).
    rewrite integral_affine. unfold integral. f_equal. f_equal. ring.
Qed.

(** X12 at [M = 2], [d = 1] on [[1, 4]], with the three-point rule: the
    mesh rule integrates [x^5]. *)
Lemma mesh_rule_exact_witness :
  1 <= 2 /\ 1 <= 1 /\ gauss_legendre (2 * 1 + 1) (leggauss (2 * 1 + 1)) /\
  exists s,
    fem_assemble 2 (fun x : R => x) (fun _ => 0%R) 1 1%R 4%R = Ok s /\
    quadrature (Xq s) (JxWq s) [0; 0; 0; 0; 0; 1]%R
    = integral [0; 0; 0; 0; 0; 1]%R 1 4.
Proof.
  split; [lia|]. split; [lia|]. split; [exact leggauss_3_exact|].
  destruct (@mesh_rule_exact R_numpy 2 (fun x : R => x) (fun _ => 0%R) 1 1%R 4%R)
    as [s [Es Hex]]; [lia | lia | exact leggauss_3_exact |].
  exists s. split; [exact Es|]. apply Hex. unfold len. cbn [length]. lia.
Defined.

(** ** The stiffness matrix: lines 172-174 *)

(** X13 (the stiffness matrix is banded).  In an arithmetic where a
    product with 0 is 0 and [0 + 0 = 0] (the rationals and the reals;
    not binary64, where [0 * inf] is NaN), for [M >= 1] and [d >= 1],
    when [leggauss(n)] returns [n] nodes and [n] weights: the entry
    [(i, j)] of the matrix handed to the solver is zero as soon as no
    element holds both basis functions, that is, no row of [P] contains
    both [i] and [j]; in particular as soon as [|i - j| > d]. *)
Theorem stiffness_banded {T : Type} `{Scalar T} `{Numpy T}
        (M : Z) (exact_function rhs_function : T -> T) (d : Z) (a b : T) :
  (forall x : T, mul zero x = zero) ->
  (forall x : T, mul x zero = zero) ->
  add (zero : T) zero = zero ->
  1 <= M -> 1 <= d ->
  len (fst (leggauss (2 * d + 1))) = 2 * d + 1 ->
  len (snd (leggauss (2 * d + 1))) = 2 * d + 1 ->
  exists s,
    fem_assemble M exact_function rhs_function d a b = Ok s /\
    (forall i j, 0 <= i < N s -> 0 <= j < N s ->
                 (forall k, 0 <= k < M ->
                            ~ (In i (get [] (P s) k) /\ In j (get [] (P s) k))) ->
                 get zero (get [] (stiffness_matrix s) i) j = zero) /\
    (forall i j, 0 <= i < N s -> 0 <= j < N s -> d < Z.abs (i - j) ->
                 get zero (get [] (stiffness_matrix s) i) j = zero).
Proof.
  intros Hzl Hzr Hadd HM Hd Lq Lw.
  destruct (fem_assemble_tabulated exact_function rhs_function a b HM Hd Lq Lw)
    as [s [Es [Hs Htab]]].
  destruct Hs as [HN [_ [_ [_ [_ [HP [HA [HS _]]]]]]]].
  assert (Hrow : forall k, 0 <= k < M ->
                           get [] (P s) k = range2 (k * d) (k * d + d + 1)).
  { intros k Hk. rewrite HP, numbering_rows.
    rewrite get_map with (dA := 0) by (rewrite len_range; lia).
    now rewrite get_range. }
  assert (Hn : 2 <= N s) by nia.
  assert (LA : len (assembled_matrix s) = N s)
    by (rewrite HA; apply len_einsum_qi_qj_q; lia).
  assert (LR : forall i, 0 <= i < N s -> len (get [] (assembled_matrix s) i) = N s)
    by (intros i Hi; rewrite HA; now apply len_row_einsum_qi_qj_q).
  destruct (boundary_rows_spec (assembled_matrix s) LA Hn) as [_ [R0 [Rn Ri]]].
  assert (Hband : forall i j, 0 <= i < N s -> 0 <= j < N s ->
                    (forall k, 0 <= k < M ->
                               ~ (k * d <= i <= k * d + d /\ k * d <= j <= k * d + d)) ->
                    get zero (get [] (stiffness_matrix s) i) j = zero).
  { intros i j Hi Hj Hno. rewrite HS.
    destruct (Z.eq_dec i 0) as [->|Hi0].
    - rewrite R0, get_unit_row by (rewrite LR; lia).
      destruct (Z.eqb_spec j 0) as [->|_]; [|reflexivity].
      exfalso. apply (Hno 0); lia.
    - destruct (Z.eq_dec i (N s - 1)) as [->|Hin].
      + rewrite Rn, LR by lia. rewrite get_unit_row by (rewrite LR; lia).
        destruct (Z.eqb_spec j (N s - 1)) as [->|_]; [|reflexivity].
        exfalso. apply (Hno (M - 1)); nia.
      + rewrite Ri by lia. rewrite HA.
        apply (assembled_entry_null (fun x : T => x = zero) (fun _ : T => True))
          with (M := M) (degree := d); auto.
        * intros x y -> _. apply Hzl.
        * intros x y _ ->. apply Hzr.
        * intros x y -> ->. exact Hadd. }
  exists s. split; [exact Es|]. split.
  - intros i j Hi Hj Hno. apply Hband; auto.
    intros k Hk Hboth. apply (Hno k Hk).
    rewrite Hrow by lia. rewrite !In_range2. lia.
  - intros i j Hi Hj Hfar. apply Hband; auto. intros k Hk. lia.
Qed.

(** X13 over the rationals at [M = 4], [d = 1]: the entry [(1, 3)]. *)
Lemma stiffness_banded_witness :
  (forall x : Qc, mul zero x = zero) /\
  (forall x : Qc, mul x zero = zero) /\
  add (zero : Qc) zero = zero /\
  1 <= 4 /\ 1 <= 1 /\
  len (fst (leggauss (T := Qc) (2 * 1 + 1))) = 2 * 1 + 1 /\
  len (snd (leggauss (T := Qc) (2 * 1 + 1))) = 2 * 1 + 1 /\
  exists s,
    fem_assemble 4 (fun x : Qc => x) (fun _ => 0%Qc) 1 0%Qc 1%Qc = Ok s /\
    get zero (get [] (stiffness_matrix s) 1) 3 = 0%Qc.
Proof.
  assert (Hzl : forall x : Qc, mul zero x = zero) by (intros x; qc_ops; ring).
  assert (Hzr : forall x : Qc, mul x zero = zero) by (intros x; qc_ops; ring).
  assert (Hadd : add (zero : Qc) zero = zero) by (qc_ops; ring).
  split; [exact Hzl|]. split; [exact Hzr|]. split; [exact Hadd|].
  split; [lia|]. split; [lia|]. split; [reflexivity|]. split; [reflexivity|].
  destruct (@stiffness_banded Qc Qc_scalar Qc_numpy 4 (fun x => x) (fun _ => 0%Qc)
                              1 0%Qc 1%Qc Hzl Hzr Hadd)
    as [s [Es [_ Hfar]]]; [lia | lia | reflexivity | reflexivity |].
  exists s. split; [exact Es|].
  pose proof Es as Es'. apply fem_assemble_inv in Es'. destruct Es' as [_ [_ [HN _]]].
  apply Hfar; rewrite ?HN; lia.
Defined.

(** X14 (the stiffness matrix is banded, in binary64).  In the
    arithmetic the notebook runs, for [M >= 1] and [d >= 1], when
    [leggauss(n)] returns [n] nodes and [n] weights: if no entry of
    [Bprimeq] and of [JxWq] is an infinity or a NaN, then every entry
    [(i, j)] with [|i - j| > d] of the matrix handed to the solver
    [== 0.0] (it is [0.0] or [-0.0]). *)
Theorem stiffness_banded_binary64 (np : Numpy float)
        (M : Z) (exact_function rhs_function : float -> float) (d : Z) (a b : float) :
  1 <= M -> 1 <= d ->
  len (fst (leggauss (2 * d + 1))) = 2 * d + 1 ->
  len (snd (leggauss (2 * d + 1))) = 2 * d + 1 ->
  exists s,
    fem_assemble M exact_function rhs_function d a b = Ok s /\
    (forallb (forallb finite64) (Bprimeq s) = true ->
     forallb finite64 (JxWq s) = true ->
     forall i j, 0 <= i < N s -> 0 <= j < N s -> d < Z.abs (i - j) ->
                 eqb (get zero (get [] (stiffness_matrix s) i) j) zero = true).
Proof.
  intros HM Hd Lq Lw.
  destruct (fem_assemble_tabulated exact_function rhs_function a b HM Hd Lq Lw)
    as [s [Es [Hs Htab]]].
  destruct Hs as [HN [_ [_ [_ [_ [_ [HA [HS _]]]]]]]].
  assert (Hn : 2 <= N s) by nia.
  assert (LA : len (assembled_matrix s) = N s)
    by (rewrite HA; apply len_einsum_qi_qj_q; lia).
  assert (LR : forall i, 0 <= i < N s -> len (get [] (assembled_matrix s) i) = N s)
    by (intros i Hi; rewrite HA; now apply len_row_einsum_qi_qj_q).
  destruct (boundary_rows_spec (assembled_matrix s) LA Hn) as [_ [R0 [Rn Ri]]].
  exists s. split; [exact Es|].
  intros HB HJ i j Hi Hj Hfar. rewrite HS.
  destruct (Z.eq_dec i 0) as [->|Hi0].
  - rewrite R0, get_unit_row by (rewrite LR; lia).
    destruct (Z.eqb_spec j 0) as [->|_]; [lia | reflexivity].
  - destruct (Z.eq_dec i (N s - 1)) as [->|Hin].
    + rewrite Rn, LR by lia. rewrite get_unit_row by (rewrite LR; lia).
      destruct (Z.eqb_spec j (N s - 1)) as [->|_]; [lia | reflexivity].
    + rewrite Ri by lia. rewrite HA.
      apply binary64_null_eqb.
      apply (assembled_entry_null (fun x : float => exists sg, Prim2SF x = S754_zero sg)
                                  (fun x : float => finite64 x = true))
        with (M := M) (degree := d); auto.
      * exists false. reflexivity.
      * exact binary64_null_mul_l.
      * exact binary64_null_mul_r.
      * exact binary64_null_add.
      * intros r x Hr Hx. rewrite forallb_forall in HB.
        specialize (HB r Hr). rewrite forallb_forall in HB. now apply HB.
      * intros jq Hjq. rewrite forallb_forall in HJ. now apply HJ.
      * intros k Hk. lia.
Qed.

(** X14 at [M = 4], [d = 1] on [[0, 1]]: the entry [(1, 3)]. *)
Lemma stiffness_banded_binary64_witness :
  1 <= 4 /\ 1 <= 1 /\
  len (fst (leggauss (T := float) (2 * 1 + 1))) = 2 * 1 + 1 /\
  len (snd (leggauss (T := float) (2 * 1 + 1))) = 2 * 1 + 1 /\
  exists s,
    fem_assemble 4 (fun x : float => x * x)%float (fun _ => (-2)%float) 1 0%float 1%float
    = Ok s /\
    forallb (forallb finite64) (Bprimeq s) = true /\
    forallb finite64 (JxWq s) = true /\
    eqb (get zero (get [] (stiffness_matrix s) 1) 3) zero = true.
Proof.
  split; [lia|]. split; [lia|]. split; [reflexivity|]. split; [reflexivity|].
  destruct (@stiffness_banded_binary64 float_numpy 4 (fun x : float => x * x)%float
                                       (fun _ => (-2)%float) 1 0%float 1%float)
    as [s [Es Hband]]; [lia | lia | reflexivity | reflexivity |].
  assert (HB : forallb (forallb finite64) (Bprimeq s) = true).
  { pose proof Es as Es'. vm_compute in Es'. injection Es' as <-.
    vm_compute. reflexivity. }
  assert (HJ : forallb finite64 (JxWq s) = true).
  { pose proof Es as Es'. vm_compute in Es'. injection Es' as <-.
    vm_compute. reflexivity. }
  exists s. split; [exact Es|]. split; [exact HB|]. split; [exact HJ|].
  pose proof Es as Es'. apply fem_assemble_inv in Es'. destruct Es' as [_ [_ [HN _]]].
  apply Hband; auto; rewrite ?HN; lia.
Defined.

(** X15 (the stiffness matrix is positive semidefinite before the
    boundary rows are written).  Over the reals, for [M >= 1] and
    [d >= 1], when [leggauss(n)] returns [n] nodes and [n] weights: for
    every vector [u] of length [N], the quadratic form [u . (A u)] of
    the matrix [A] that [einsum] assembles on line 172 is
    [einsum('q,q', (Bprimeq.dot(u))**2, JxWq)], the weighted sum of the
    squares of the derivative of the finite element function of
    coefficients [u] at the quadrature points; hence it is not negative
    when [a < b] and no weight is negative. *)
Theorem stiffness_energy (np : Numpy R)
        (M : Z) (exact_function rhs_function : R -> R) (d : Z) (a b : R) :
  1 <= M -> 1 <= d ->
  len (fst (leggauss (2 * d + 1))) = 2 * d + 1 ->
  len (snd (leggauss (2 * d + 1))) = 2 * d + 1 ->
  exists s,
    fem_assemble M exact_function rhs_function d a b = Ok s /\
    forall u, len u = N s ->
      energy (assembled_matrix s) u
      = einsum_q_q (map (fun x => mul x x) (dot (Bprimeq s) u)) (JxWq s) /\
      ((a < b)%R ->
       (forall wj, In wj (snd (leggauss (2 * d + 1))) -> (0 <= wj)%R) ->
       (0 <= energy (assembled_matrix s) u)%R).
Proof.
  intros HM Hd Lq Lw.
  destruct (fem_assemble_tabulated exact_function rhs_function a b HM Hd Lq Lw)
    as [s [Es [Hs Htab]]].
  destruct (fem_assemble_closed exact_function rhs_function a b HM Hd)
    as [s' [Es' [_ [_ [EJ _]]]]].
  assert (s' = s) by congruence. subst s'.
  destruct Hs as [HN [_ [Hvs [_ [Hw [_ [HA _]]]]]]].
  pose proof Htab as [_ [LJ [_ [LB Hent]]]].
  exists s. split; [exact Es|].
  intros u Lu.
  assert (Hen : energy (assembled_matrix s) u
                = einsum_q_q (map (fun x => mul x x) (dot (Bprimeq s) u)) (JxWq s)).
  { rewrite HA.
    apply (@einsum_energy (N s) (M * (2 * d + 1))); auto; [nia|].
    intros r Hr.
    assert (Hn : 0 < 2 * d + 1) by lia.
    pose proof (Z.div_mod r (2 * d + 1) ltac:(lia)) as Hdm.
    pose proof (Z.mod_pos_bound r (2 * d + 1) Hn) as Hmod.
    assert (Hk : 0 <= r / (2 * d + 1) < M).
    { split; [apply Z.div_pos; lia|]. apply Z.div_lt_upper_bound; lia. }
    destruct (Hent (r / (2 * d + 1)) (r mod (2 * d + 1)) Hk Hmod)
      as [_ [_ [_ [Lr _]]]].
    replace (r / (2 * d + 1) * (2 * d + 1) + r mod (2 * d + 1)) with r in Lr by lia.
    exact Lr. }
  split; [exact Hen|].
  intros Hab Hw0. rewrite Hen. apply einsum_q_q_squares_nonneg_R.
  intros jq Hin. rewrite EJ in Hin. apply in_concat in Hin.
  destruct Hin as [blk [Hblk Hin]]. apply in_map_iff in Hblk.
  destruct Hblk as [k [<- Hk]]. apply In_range in Hk.
  apply in_map_iff in Hin. destruct Hin as [wj [<- Hwj]].
  rewrite Hw in Hwj. apply in_map_iff in Hwj. destruct Hwj as [w0 [<- Hw0in]].
  specialize (Hw0 w0 Hw0in).
  pose proof (proj2 (@mesh_step_R a b M (vertices s) k HM Hvs Hk)) as Estep.
  unfold zero in *. cbn [of_int sub mul div R_scalar] in *. rewrite Estep.
  assert (HMpos : (0 < IZR M)%R) by (apply IZR_lt; lia).
  assert (Hh : (0 < (b - a) / IZR M)%R) by (apply Rdiv_lt_0_compat; lra).
  apply Rmult_le_pos; [lra|]. lra.
Qed.

(** X15 at [M = 2], [d = 1] on [[1, 4]], with the three-point rule, for
    the vector [[1, 2, 3]]. *)
Lemma stiffness_energy_witness :
  1 <= 2 /\ 1 <= 1 /\
  len (fst (leggauss (T := R) (2 * 1 + 1))) = 2 * 1 + 1 /\
  len (snd (leggauss (T := R) (2 * 1 + 1))) = 2 * 1 + 1 /\
  exists s,
    fem_assemble 2 (fun x : R => x) (fun _ => 0%R) 1 1%R 4%R = Ok s /\
    energy (assembled_matrix s) [1; 2; 3]%R
    = einsum_q_q (map (fun x => mul x x) (dot (Bprimeq s) [1; 2; 3]%R)) (JxWq s).
Proof.
  split; [lia|]. split; [lia|]. split; [reflexivity|]. split; [reflexivity|].
  destruct (@stiffness_energy R_numpy 2 (fun x : R => x) (fun _ => 0%R) 1 1%R 4%R)
    as [s [Es Hen]]; [lia | lia | reflexivity | reflexivity |].
  exists s. split; [exact Es|].
  pose proof Es as Es'. apply fem_assemble_inv in Es'. destruct Es' as [_ [_ [HN _]]].
  apply Hen. rewrite HN. reflexivity.
Defined.

(** ** Exact integration of the basis functions: lines 119-121, 172, 177 *)

(** X16 (the entries of the stiffness matrix are integrals; the comment
    of lines 119-120).  Over the reals, for [M >= 1], [d >= 1] and
    [a <> b], given what [leggauss(n)] returns: the reference basis
    functions are polynomials, with the coefficients [basis_poly], whose
    derivatives are the functions of [lagrange_basis_derivative]; every
    element has the Jacobian [(b-a)/M]; and the entry [(i, j)] of the
    matrix that [einsum] assembles on line 172 is the sum, over the
    elements that hold both [i] and [j], of the integral over [[0,1]] of
    the product of the derivatives of the two reference basis functions
    divided by the Jacobian, that is, the integral over the element of
    [v_i' v_j']: [2d + 1] points integrate it without error. *)
Theorem stiffness_entries_exact (np : Numpy R)
        (M : Z) (exact_function rhs_function : R -> R) (d : Z) (a b : R) :
  1 <= M -> 1 <= d -> a <> b ->
  gauss_legendre (2 * d + 1) (leggauss (2 * d + 1)) ->
  exists s,
    fem_assemble M exact_function rhs_function d a b = Ok s /\
    (forall alpha, 0 <= alpha <= d ->
       exists v v',
         lagrange_basis (ref_vertices s) alpha = Ok v /\
         lagrange_basis_derivative (ref_vertices s) alpha = Ok v' /\
         (forall x, v x = eval (basis_poly (ref_vertices s) alpha) x) /\
         (forall x, v' x = eval (pderiv (basis_poly (ref_vertices s) alpha)) x)) /\
    (forall k, 0 <= k < M ->
               mapping_J (vertices s) k = Ok ((b - a) / IZR M)%R) /\
    forall i j, 0 <= i < N s -> 0 <= j < N s ->
      get zero (get [] (assembled_matrix s) i) j
      = sum (map (fun k =>
                    if on_element d k i && on_element d k j
                    then (integral
                            (pmul (pderiv (basis_poly (ref_vertices s) (i - k * d)))
                                  (pderiv (basis_poly (ref_vertices s) (j - k * d))))
                            0 1
                          / ((b - a) / IZR M))%R
                    else 0%R)
                 (range M)).
Proof.
  intros HM Hd Hab [Lx [Lw Hex]].
  destruct (fem_assemble_tabulated exact_function rhs_function a b HM Hd Lx Lw)
    as [s [Es [Hs Htab]]].
  destruct (assembled_lengths HM Hd Hs) as [Lrv Lv].
  destruct Hs as [HN [_ [Hvs [Hq [Hw [_ [HA _]]]]]]].
  assert (Lq : len (q s) = 2 * d + 1) by (rewrite Hq, len_map; exact Lx).
  assert (Lws : len (w s) = 2 * d + 1) by (rewrite Hw, len_map; exact Lw).
  assert (Hrule : exact_rule 0 1 (4 * d + 1) (q s) (w s)).
  { rewrite Hq, Hw. apply rescaled_rule_exact.
    replace (4 * d + 1) with (2 * (2 * d + 1) - 1) by lia. exact Hex. }
  pose proof (@width_R_nonzero a b M HM Hab) as HJ.
  exists s. split; [exact Es|]. split; [|split].
  - intros alpha Ha.
    exists (basis_value (ref_vertices s) alpha), (basis_slope (ref_vertices s) alpha).
    split; [apply lagrange_basis_eq; lia|].
    split; [apply lagrange_basis_derivative_eq; lia|].
    split; intros x; symmetry; [apply eval_basis_poly | apply eval_pderiv_basis_poly].
  - intros k Hk. rewrite mapping_J_ok by lia. f_equal.
    apply (@mesh_step_R a b M (vertices s) k HM Hvs Hk).
  - intros i j Hi Hj. rewrite HA.
    pose proof Htab as [LX [LJ [LB [LB' _]]]].
    rewrite (@einsum_qi_qj_q_blocks (N s) M (2 * d + 1)) by (assumption || lia).
    f_equal. apply map_ext_in. intros k Hk. apply In_range in Hk.
    rewrite <- (proj2 (@mesh_step_R a b M (vertices s) k HM Hvs Hk)).
    apply element_stiffness_sum with (M := M); auto.
    rewrite (proj2 (@mesh_step_R a b M (vertices s) k HM Hvs Hk)). exact HJ.
Qed.

(** X16 at [M = 2], [d = 1] on [[1, 4]], with the three-point rule: the
    entry [(1, 1)] of the middle basis function, which both elements
    hold. *)
Lemma stiffness_entries_exact_witness :
  1 <= 2 /\ 1 <= 1 /\ 1%R <> 4%R /\
  gauss_legendre (2 * 1 + 1) (leggauss (2 * 1 + 1)) /\
  exists s,
    fem_assemble 2 (fun x : R => x) (fun _ => 0%R) 1 1%R 4%R = Ok s /\
    get zero (get [] (assembled_matrix s) 1) 1
    = sum (map (fun k =>
                  if on_element 1 k 1 && on_element 1 k 1
                  then (integral
                          (pmul (pderiv (basis_poly (ref_vertices s) (1 - k * 1)))
                                (pderiv (basis_poly (ref_vertices s) (1 - k * 1))))
                          0 1
                        / ((4 - 1) / IZR 2))%R
                  else 0%R)
               (range 2)).
Proof.
  assert (H14 : 1%R <> 4%R) by lra.
  split; [lia|]. split; [lia|]. split; [exact H14|]. split; [exact leggauss_3_exact|].
  destruct (@stiffness_entries_exact R_numpy 2 (fun x : R => x) (fun _ => 0%R) 1 1%R 4%R)
    as [s [Es [_ [_ Hent]]]]; [lia | lia | exact H14 | exact leggauss_3_exact |].
  exists s. split; [exact Es|].
  pose proof Es as Es'. apply fem_assemble_inv in Es'. destruct Es' as [_ [_ [HN _]]].
  apply Hent; rewrite HN; lia.
Defined.

(** X17 (the entries of the right-hand side are integrals, line 177).
    Over the reals, for [M >= 1] and [d >= 1], given what [leggauss(n)]
    returns, and for a right-hand side that is a polynomial of degree at
    most [3d + 1] with the coefficients [g]: the vertex [k] is
    [a + k*(b-a)/M], and the entry [i] of the vector that [einsum]
    assembles on line 177 is the sum, over the elements that hold [i],
    of the Jacobian times the integral over [[0,1]] of the reference
    basis function times the right-hand side taken at the image
    [mapping(vertices,k)(t)] of the point, that is, the integral over
    the element of [v_i f]. *)
Theorem rhs_entries_exact (np : Numpy R)
        (M : Z) (exact_function : R -> R) (g : list R) (d : Z) (a b : R) :
  1 <= M -> 1 <= d -> len g <= 3 * d + 2 ->
  gauss_legendre (2 * d + 1) (leggauss (2 * d + 1)) ->
  exists s,
    fem_assemble M exact_function (eval g) d a b = Ok s /\
    (forall k t, 0 <= k < M ->
       exists F,
         mapping (vertices s) k = Ok F /\
         eval (affine (a + IZR k * ((b - a) / IZR M)) ((b - a) / IZR M) g) t
         = eval g (F t)) /\
    forall i, 0 <= i < N s ->
      get zero (assembled_rhs s) i
      = sum (map (fun k =>
                    if on_element d k i
                    then ((b - a) / IZR M
                          * integral
                              (pmul (basis_poly (ref_vertices s) (i - k * d))
                                    (affine (a + IZR k * ((b - a) / IZR M))
                                            ((b - a) / IZR M) g))
                              0 1)%R
                    else 0%R)
                 (range M)).
Proof.
  intros HM Hd Hg [Lx [Lw Hex]].
  destruct (fem_assemble_tabulated exact_function (eval g) a b HM Hd Lx Lw)
    as [s [Es [Hs Htab]]].
  destruct (assembled_lengths HM Hd Hs) as [Lrv Lv].
  destruct Hs as [HN [_ [Hvs [Hq [Hw [_ [_ [_ [HF _]]]]]]]]].
  assert (Lq : len (q s) = 2 * d + 1) by (rewrite Hq, len_map; exact Lx).
  assert (Lws : len (w s) = 2 * d + 1) by (rewrite Hw, len_map; exact Lw).
  assert (Hrule : exact_rule 0 1 (4 * d + 1) (q s) (w s)).
  { rewrite Hq, Hw. apply rescaled_rule_exact.
    replace (4 * d + 1) with (2 * (2 * d + 1) - 1) by lia. exact Hex. }
  exists s. split; [exact Es|]. split.
  - intros k t Hk. eexists. split; [apply mapping_eq; lia|].
    rewrite eval_affine. cbv beta. cbn [add mul sub R_scalar].
    destruct (@mesh_step_R a b M (vertices s) k HM Hvs Hk) as [E0 E1].
    unfold zero. cbn [of_int R_scalar]. rewrite E1, E0. reflexivity.
  - intros i Hi. rewrite HF.
    pose proof Htab as [LX [LJ [LB [LB' _]]]].
    rewrite (@einsum_qi_q_q_blocks (N s) M (2 * d + 1))
      by (rewrite ?len_map; assumption || lia).
    f_equal. apply map_ext_in. intros k Hk. apply In_range in Hk.
    destruct (@mesh_step_R a b M (vertices s) k HM Hvs Hk) as [E0 E1]. rewrite <- E0, <- E1.
    apply element_rhs_sum with (M := M); auto.
Qed.

(** X17 at [M = 2], [d = 1] on [[1, 4]], with the three-point rule and
    the right-hand side [f(x) = x^4]: the middle entry. *)
Lemma rhs_entries_exact_witness :
  1 <= 2 /\ 1 <= 1 /\ len [0; 0; 0; 0; 1]%R <= 3 * 1 + 2 /\
  gauss_legendre (2 * 1 + 1) (leggauss (2 * 1 + 1)) /\
  exists s,
    fem_assemble 2 (fun x : R => x) (eval [0; 0; 0; 0; 1]%R) 1 1%R 4%R = Ok s /\
    get zero (assembled_rhs s) 1
    = sum (map (fun k =>
                  if on_element 1 k 1
                  then ((4 - 1) / IZR 2
                        * integral
                            (pmul (basis_poly (ref_vertices s) (1 - k * 1))
                                  (affine (1 + IZR k * ((4 - 1) / IZR 2))
                                          ((4 - 1) / IZR 2) [0; 0; 0; 0; 1]))
                            0 1)%R
                  else 0%R)
               (range 2)).
Proof.
  assert (Hg : len [0; 0; 0; 0; 1]%R <= 3 * 1 + 2) by (unfold len; cbn [length]; lia).
  split; [lia|]. split; [lia|]. split; [exact Hg|]. split; [exact leggauss_3_exact|].
  destruct (@rhs_entries_exact R_numpy 2 (fun x : R => x) [0; 0; 0; 0; 1]%R 1 1%R 4%R)
    as [s [Es [_ Hent]]]; [lia | lia | exact Hg | exact leggauss_3_exact |].
  exists s. split; [exact Es|].
  pose proof Es as Es'. apply fem_assemble_inv in Es'. destruct Es' as [_ [_ [HN _]]].
  apply Hent; rewrite HN; lia.
Defined.

(** ** The error: lines 184-185 *)

(** X18 (the square root of line 184 is taken of a number that is not
    negative).  Over the reals, for [M >= 1], [d >= 1] and [a < b], when
    no weight that [leggauss(n)] returns is negative: every entry of
    [JxWq] is the width [(b-a)/M] of an element times half a weight,
    hence not negative; and for every vector [u] that [linalg.solve]
    returns, the value of [fem] is the square root of
    [einsum('q,q', (Bq.dot(u) - exact(Xq))**2, JxWq)], this weighted sum
    of squares is not negative, and so the value returned is the number
    [e >= 0] whose square is that sum. *)
Theorem error_radicand_nonneg (np : Numpy R)
        (M : Z) (exact_function rhs_function : R -> R) (d : Z) (a b : R) :
  1 <= M -> 1 <= d -> (a < b)%R ->
  (forall wj, In wj (snd (leggauss (2 * d + 1))) -> (0 <= wj)%R) ->
  exists s,
    fem_assemble M exact_function rhs_function d a b = Ok s /\
    (forall jq, In jq (JxWq s) -> (0 <= jq)%R) /\
    forall u, linalg_solve (stiffness_matrix s) (rhs s) = Ok u ->
      let r := einsum_q_q
                 (map (fun x => mul x x)
                      (map (fun '(x, y) => sub x y)
                           (combine (dot (Bq s) u) (map exact_function (Xq s)))))
                 (JxWq s) in
      fem M exact_function rhs_function d a b = Ok (R_sqrt.sqrt r) /\
      (0 <= r)%R /\
      (0 <= R_sqrt.sqrt r)%R /\
      (R_sqrt.sqrt r * R_sqrt.sqrt r = r)%R.
Proof.
  intros HM Hd Hab Hw0.
  destruct (fem_assemble_closed exact_function rhs_function a b HM Hd)
    as [s [Es [Hs [_ [EJ _]]]]].
  destruct Hs as [_ [_ [Hvs [_ [Hw _]]]]].
  assert (HJ : forall jq, In jq (JxWq s) -> (0 <= jq)%R).
  { intros jq Hin. rewrite EJ in Hin. apply in_concat in Hin.
    destruct Hin as [blk [Hblk Hin]]. apply in_map_iff in Hblk.
    destruct Hblk as [k [<- Hk]]. apply In_range in Hk.
    apply in_map_iff in Hin. destruct Hin as [wj [<- Hwj]].
    rewrite Hw in Hwj. apply in_map_iff in Hwj. destruct Hwj as [w0 [<- Hw0in]].
    specialize (Hw0 w0 Hw0in).
    pose proof (proj2 (@mesh_step_R a b M (vertices s) k HM Hvs Hk)) as Estep.
    unfold zero in *. cbn [of_int sub mul div R_scalar] in *. rewrite Estep.
    assert (HMpos : (0 < IZR M)%R) by (apply IZR_lt; lia).
    assert (Hh : (0 < (b - a) / IZR M)%R) by (apply Rdiv_lt_0_compat; lra).
    apply Rmult_le_pos; [lra|]. lra. }
  exists s. split; [exact Es|]. split; [exact HJ|].
  intros u Eu r.
  assert (Hr : (0 <= r)%R) by (apply einsum_q_q_squares_nonneg_R; exact HJ).
  split; [|split; [exact Hr|split]].
  - unfold fem. rewrite Es. cbn [bind]. rewrite Eu. cbn [bind]. reflexivity.
  - apply R_sqrt.sqrt_pos.
  - apply R_sqrt.sqrt_sqrt. exact Hr.
Qed.

(** X18 at [M = 2], [d = 1] on [[0, 1]], with the three-point rule, for
    [exact(x) = x^2] and the right-hand side [-2]. *)
Lemma error_radicand_nonneg_witness :
  1 <= 2 /\ 1 <= 1 /\ (0 < 1)%R /\
  (forall wj, In wj (snd (leggauss (T := R) (2 * 1 + 1))) -> (0 <= wj)%R) /\
  exists s,
    fem_assemble 2 (fun x : R => x * x)%R (fun _ => (-2)%R) 1 0%R 1%R = Ok s /\
    forall u, linalg_solve (stiffness_matrix s) (rhs s) = Ok u ->
      exists r, fem 2 (fun x : R => x * x)%R (fun _ => (-2)%R) 1 0%R 1%R
                = Ok (R_sqrt.sqrt r) /\
                (0 <= r)%R /\ (R_sqrt.sqrt r * R_sqrt.sqrt r = r)%R.
Proof.
  assert (Hw : forall wj, In wj (snd (leggauss (T := R) (2 * 1 + 1))) -> (0 <= wj)%R).
  { intros wj Hin. cbn in Hin.
    repeat (destruct Hin as [<-|Hin]; [lra|]). contradiction. }
  split; [lia|]. split; [lia|]. split; [lra|]. split; [exact Hw|].
  destruct (@error_radicand_nonneg R_numpy 2 (fun x : R => x * x)%R
                                   (fun _ => (-2)%R) 1 0%R 1%R)
    as [s [Es [_ Hfem]]]; [lia | lia | lra | exact Hw |].
  exists s. split; [exact Es|].
  intros u Eu. destruct (Hfem u Eu) as [Ef [Hr [_ Hsq]]].
  eexists. split; [exact Ef|]. split; [exact Hr | exact Hsq].
Defined.

(** ** The test problem and the convergence study: cells 4 and 6 *)

(** X19 (the test problem is consistent, lines 195-200).  Over the
    reals, [exact_function] is twice differentiable, its first
    derivative is [2 pi cos(2 pi x)] and its second derivative is
    [- rhs_function]: the pair solves [-u'' = f], as the comment of line
    195 says.  It vanishes at 0 and at 1, so that the two boundary
    entries that [fem] writes into [rhs] on the default interval
    [[0, 1]] are zero. *)
Theorem manufactured_solution (x : R) :
  derivable_pt_lim TestProblem.exact_function x (2 * PI * cos (2 * PI * x))%R /\
  derivable_pt_lim (fun t => (2 * PI * cos (2 * PI * t))%R) x
                   (- TestProblem.rhs_function x)%R /\
  TestProblem.exact_function 0 = 0%R /\
  TestProblem.exact_function 1 = 0%R /\
  forall (np : Numpy R) (M d : Z), 1 <= M -> 1 <= d ->
    exists s,
      fem_assemble M TestProblem.exact_function TestProblem.rhs_function d 0%R 1%R = Ok s /\
      get zero (rhs s) 0 = 0%R /\
      get zero (rhs s) (N s - 1) = 0%R.
Proof.
  assert (E0 : TestProblem.exact_function 0 = 0%R).
  { unfold TestProblem.exact_function. rewrite Rmult_0_r. apply sin_0. }
  assert (E1 : TestProblem.exact_function 1 = 0%R).
  { unfold TestProblem.exact_function. rewrite Rmult_1_r. apply sin_2PI. }
  split; [|split; [|split; [exact E0 | split; [exact E1|]]]].
  - apply (sin_scaled_derivable (2 * PI)%R x).
  - unfold TestProblem.rhs_function.
    replace (- (sin (2 * PI * x) * (4 * PI ^ 2)))%R
      with (2 * PI * - (2 * PI * sin (2 * PI * x)))%R by ring.
    apply (derivable_pt_lim_scal (fun t => cos (2 * PI * t)%R) (2 * PI)%R x).
    apply (cos_scaled_derivable (2 * PI)%R x).
  - intros np M d HM Hd.
    destruct (fem_assemble_ok TestProblem.exact_function TestProblem.rhs_function
                              0%R 1%R HM Hd)
      as [s [Es [HN [_ [_ [_ [_ [_ [_ [_ [HF HR]]]]]]]]]]].
    assert (Hn : 2 <= N s) by nia.
    assert (LF : len (assembled_rhs s) = N s)
      by (rewrite HF; apply len_einsum_qi_q_q; lia).
    destruct (boundary_values_spec (assembled_rhs s)
                                   (TestProblem.exact_function 0)
                                   (TestProblem.exact_function 1) LF Hn)
      as [F0 [Fn _]].
    exists s. split; [exact Es|]. rewrite HR.
    split; [rewrite F0; exact E0 | rewrite Fn; exact E1].
Qed.

(** X20 (the calls of the convergence study, lines 229-237).  For every
    scalar type: the study runs [fem] on the meshes of 8, 16, 32, 64,
    128 and 256 elements with the degrees 1 to 4, on the interval
    [[0, 1]]; every one of the 24 calls passes the checks of [fem] and
    assembles its system, so that the study can fail only with an
    exception of [linalg.solve]; and when the 24 calls return, the study
    ends with an array [errors] of 6 rows and 4 columns whose entry
    [(i, j)] is the result of [fem(Ms[i], ..., degrees[j])]. *)
Theorem convergence_study_calls {T : Type} `{Scalar T} `{Numpy T}
        (exact_function rhs_function : T -> T) :
  Ms = [8; 16; 32; 64; 128; 256] /\
  (forall i j, 0 <= i < 6 -> 0 <= j < 4 ->
     exists s, fem_assemble (get 0 Ms i) exact_function rhs_function
                            (get 0 degrees j) zero one = Ok s) /\
  (forall e, convergence_study exact_function rhs_function = Raise e ->
     exists i j s,
       0 <= i < 6 /\ 0 <= j < 4 /\
       fem_assemble (get 0 Ms i) exact_function rhs_function
                    (get 0 degrees j) zero one = Ok s /\
       linalg_solve (stiffness_matrix s) (rhs s) = Raise e) /\
  (forall g : Z -> Z -> T,
     (forall i j, 0 <= i < 6 -> 0 <= j < 4 ->
        fem (get 0 Ms i) exact_function rhs_function (get 0 degrees j) zero one
        = Ok (g i j)) ->
     exists errors,
       convergence_study exact_function rhs_function = Ok errors /\
       len errors = 6 /\
       forall i j, 0 <= i < 6 -> 0 <= j < 4 ->
         len (get [] errors i) = 4 /\
         get zero (get [] errors i) j = g i j).
Proof.
  split; [exact Ms_values|]. split; [|split].
  - intros i j Hi Hj.
    pose proof (Ms_positive Hi). pose proof (degrees_positive Hj).
    destruct (fem_assemble_ok exact_function rhs_function zero one
                              (M := get 0 Ms i) (degree := get 0 degrees j))
      as [s [Es _]]; [lia | lia |].
    now exists s.
  - intros e E. rewrite convergence_study_flat in E.
    apply (foldM_fill_raise
             (fun p => fem (get 0 Ms (fst p)) exact_function rhs_function
                           (get 0 degrees (snd p)) zero one)
             (fun errors p x => set2 errors (fst p) (snd p) x)) in E.
    destruct E as [[i j] [Hin E]]. cbn [fst snd] in E.
    apply in_prod_iff in Hin. destruct Hin as [Hi Hj].
    apply In_range in Hi. apply In_range in Hj.
    pose proof (Ms_positive Hi). pose proof (degrees_positive Hj).
    destruct (fem_raise_solver (M := get 0 Ms i) (d := get 0 degrees j)
                               exact_function rhs_function zero one)
      with (e := e) as [s [Es Eu]]; [lia | lia | exact E |].
    exists i, j, s. repeat split; auto; lia.
  - intros g Hg. rewrite convergence_study_flat.
    rewrite (foldM_fill_ok
               (fun p => fem (get 0 Ms (fst p)) exact_function rhs_function
                             (get 0 degrees (snd p)) zero one)
               (fun p => g (fst p) (snd p))
               (fun errors p x => set2 errors (fst p) (snd p) x)).
    + eexists. split; [reflexivity|]. split; [vm_compute; reflexivity|].
      intros i j Hi Hj.
      assert (Hci : i = 0 \/ i = 1 \/ i = 2 \/ i = 3 \/ i = 4 \/ i = 5) by lia.
      assert (Hcj : j = 0 \/ j = 1 \/ j = 2 \/ j = 3) by lia.
      destruct Hci as [-> | [-> | [-> | [-> | [-> | ->]]]]];
        destruct Hcj as [-> | [-> | [-> | ->]]];
        split; vm_compute; reflexivity.
    + intros [i j] Hin. cbn [fst snd].
      apply in_prod_iff in Hin. destruct Hin as [Hi Hj].
      apply In_range in Hi. apply In_range in Hj. now apply Hg.
Qed.

(** X21 (the abscissa of the plot is not the mesh size, lines 231 and
    259).  In exact arithmetic, for every mesh [Ms[i]] and degree
    [degrees[j]] of the study: every element of the mesh that [fem]
    builds on [[0, 1]] has the width [mapping_J(vertices,k) = 1/Ms[i]],
    while the value [h[i]] that the errors are plotted against is
    [1/(Ms[i] + 1)], which is smaller. *)
Theorem plotted_h_below_width (np : Numpy Qc)
        (exact_function rhs_function : Qc -> Qc) (i j k : Z) :
  0 <= i < 6 -> 0 <= j < 4 -> 0 <= k < get 0 Ms i ->
  exists s J,
    fem_assemble (get 0 Ms i) exact_function rhs_function (get 0 degrees j) zero one
    = Ok s /\
    mapping_J (vertices s) k = Ok J /\
    J = (1 / of_int (get 0%Z Ms i))%Qc /\
    get zero h i = (1 / of_int (get 0%Z Ms i + 1)%Z)%Qc /\
    (get zero h i < J)%Qc.
Proof.
  intros Hi Hj Hk.
  pose proof (Ms_positive Hi) as HM. pose proof (degrees_positive Hj) as Hd.
  destruct (fem_assemble_ok exact_function rhs_function zero one
                            (M := get 0 Ms i) (degree := get 0 degrees j))
    as [s [Es [_ [_ [Hvs _]]]]]; [lia | lia |].
  assert (Eh : get zero (h (T := Qc)) i = (1 / of_int (get 0%Z Ms i + 1)%Z)%Qc).
  { unfold h. rewrite get_map with (dA := 0) by (change (len Ms) with 6; lia).
    reflexivity. }
  exists s. eexists. split; [exact Es|].
  split; [apply mapping_J_ok; rewrite (proj2 (assembled_lengths
            (M := get 0 Ms i) (degree := get 0 degrees j)
            (exact_function := exact_function) (rhs_function := rhs_function)
            (a := zero) (b := one) (s := s) ltac:(lia) ltac:(lia)
            ltac:(apply fem_assemble_inv in Es; tauto))); lia|].
  assert (EJ : (get zero (vertices s) (k + 1) - get zero (vertices s) k)%Qc
               = (1 / of_int (get 0%Z Ms i))%Qc).
  { rewrite (@mesh_step_Qc zero one (get 0 Ms i) (vertices s) k) by (auto; lia).
    qc_ops. now f_equal. }
  split; [exact EJ|]. split; [exact Eh|].
  cbn [sub Qc_scalar]. rewrite EJ, Eh.
  pose proof (of_int_Qc_positive (x := get 0 Ms i) ltac:(lia)) as P1.
  pose proof (of_int_Qc_positive (x := get 0 Ms i + 1) ltac:(lia)) as P2.
  pose proof (of_int_Qc_nonzero (x := get 0 Ms i) ltac:(lia)) as N1.
  pose proof (of_int_Qc_nonzero (x := get 0 Ms i + 1) ltac:(lia)) as N2.
  rewrite of_int_Qc_succ in *.
  set (m := of_int (get 0 Ms i)) in *.
  apply Qclt_minus_iff.
  replace (1 / m + - (1 / (m + 1)))%Qc with (1 / (m * (m + 1)))%Qc
    by (field; split; assumption).
  unfold Qcdiv. rewrite Qcmult_1_l.
  apply Qcnot_le_lt. intros Hle.
  apply (Qcmult_le_compat_r _ _ (m * (m + 1))) in Hle.
  - rewrite Qcmult_inv_l in Hle.
    + replace (0 * (m * (m + 1)))%Qc with 0%Qc in Hle by ring.
      apply (Qclt_not_le 0 1); [reflexivity | exact Hle].
    + intros E. apply Qcmult_integral in E. destruct E; contradiction.
  - apply Qc_mul_nonneg; now apply Qclt_le_weak.
Qed.

(** X21 for the first mesh (8 elements), the degree 1 and the element
    3. *)
Lemma plotted_h_below_width_witness :
  0 <= 0 < 6 /\ 0 <= 0 < 4 /\ 0 <= 3 < get 0 Ms 0 /\
  exists s J,
    fem_assemble (get 0 Ms 0) (fun x : Qc => x) (fun _ => 0%Qc) (get 0 degrees 0) zero one
    = Ok s /\
    mapping_J (vertices s) 3 = Ok J /\
    (get zero h 0 < J)%Qc.
Proof.
  assert (H3 : 0 <= 3 < get 0 Ms 0) by (vm_compute; split; [discriminate | reflexivity]).
  split; [lia|]. split; [lia|]. split; [exact H3|].
  destruct (@plotted_h_below_width Qc_numpy (fun x : Qc => x) (fun _ => 0%Qc) 0 0 3)
    as [s [J [Es [EJ [_ [_ Hlt]]]]]]; [lia | lia | exact H3 |].
  exists s, J. split; [exact Es|]. split; [exact EJ | exact Hlt].
Defined.
